(** * Replay of recorded PyTorch execution graphs

    A shallow embedding of [train/compute/python/tools/eg_replay.py]
    (class [ExgrReplayManager]) and the properties of its preprocessing
    phases and of its replay loop.

    Python objects are modelled by value: the manager is a record that every
    method takes and returns, dictionaries are finite maps, sets are finite
    sets, and a method that can raise returns a [Result]. *)

From Stdlib Require Import ZArith String Ascii Floats Uint63 Lia.
From stdpp Require Import base option list gmap strings.

Set Warnings "-register-all".
Open Scope Z_scope.

(** ** Trace nodes (the loader's [Node] objects) *)

Inductive NodeType : Type := OPERATOR | LABEL.

#[global] Instance NodeType_eq_dec : EqDecision NodeType.
Proof. solve_decision. Defined.

(** One entry of [node.inputs], as the JSON trace gives it: a list of
    integers (a tensor identifier), a list of such lists (a tensor list), a
    string (among them the markers ['<None>'], ['<Generator>'], ['inf'],
    ['-inf']), or a number. *)
Inductive Item : Type :=
| ItemInts (t : list Z)
| ItemLists (ts : list (list Z))
| ItemStr (s : string)
| ItemNum (z : Z).

(** A node of the trace tree.  [child.parent] is not a field: a traversal
    that needs it carries the chain of ancestors it came through. *)
Inductive Node : Type := mkNode {
  node_id : Z;
  node_name : string;
  node_type : NodeType;
  node_inputs : list Item;
  node_input_types : list string;
  node_input_shapes : list (list Z);
  node_outputs : list Item;
  node_output_types : list string;
  node_output_shapes : list (list Z);
  node_children : list Node }.

(** ** Python values handled by the replay *)

(** A tensor: its device, its element type, its shape and its contents,
    row after row. *)
Record Tensor : Type := mkTensor {
  is_cuda : bool;
  dtype : string;
  tensor_shape : list Z;
  data : list float }.

Inductive Value : Type :=
| VNone
| VTensor (t : Tensor)
| VList (l : list Value)
| VBool (b : bool)
| VTuple (l : list Value)
| VFloat (f : float)
| VItem (it : Item).

(** A callable operator: [call f args] is [None] when the call raises. *)
Record Callable : Type := mkCallable { call : list Value → option Value }.

(** The object [build_fbgemm_func] returns. *)
Record FbgemmFunc : Type := mkFbgemmFunc { forward : Callable; backward : Callable }.

(** ** The helpers imported from [eg_replay_utils]

    The module is not part of the sources at hand: its functions and tables
    are the parameters of the development.  A builder that raises returns
    [None]. *)
Class EgReplayUtils : Type := {
  is_qualified : Node → bool;
  is_backward_aten : Node → bool;
  has_backward_parent : Node → bool;
  get_input_tensors : Node → list (string * list Z * list Z);
  get_output_tensors : Node → list (string * list Z * list Z);
  is_fbgemm_forward : Node → bool;
  is_fbgemm_backward : Node → bool;
  is_fbgemm_forward_unweighted : Node → bool;
  fbgemm_input_args_indices : Node → list nat;
  generate_fbgemm_tensors : Node → list Value;
  build_fbgemm_func : Node → option (FbgemmFunc * nat);
  build_torchscript_func : Node → option (option Callable * nat);
  is_tensor : Node → nat → bool;
  is_tensor_list : Node → nat → bool;
  TORCH_DTYPES_RNG : gmap string (string * (list Z → Tensor));
  TORCH_DTYPES_BYTES : gmap string Z }.

(** ** Output and abnormal termination *)

(** The lines the manager prints, by the statement that prints them. *)
Inductive Msg : Type :=
| GraphParseError (node : Z)
| OperationsToExecute (n : nat)
| AdditionalAllocated (n : nat) (size : Z)
| TensorCount (multiple total : nat)
| KeyErrorLine (node : Z) (t_id : list Z) (data_type : string)
| InputsError (node : Z)
| RunOpError (node : Z)
| StartToExecution.

Inductive PyExc : Type :=
| KeyError | TypeError | IndexError | AttributeError | ZeroDivisionError | OverflowError
| OperatorError.

(** How the process ends when it does not run to completion: [exit(1)], or
    an exception that no handler catches. *)
Inductive Stop : Type :=
| SystemExit (code : Z)
| Traceback (e : PyExc).

(** ** The manager *)

Record Manager : Type := mkManager {
  tensor_registry_permanent : gmap Z Value;
  dependency_permanent : gmap (list Z) nat;
  sorted_nodes : list Node;
  funcs : gmap Z (option Callable * nat);
  unchangeable_intermediate_tensors : gset Z;
  original_unique_tensors : gset (list Z);
  replay_unique_tensor_num : Z;
  tensors_mapping : gmap (Z * list Z) Z;
  replay_tensors_shapes : gmap Z (list Z);
  tensor_shapes : gmap (list Z) (gset (Z * list Z));
  instantiate : gset Z;
  cpu_tensor : gset Z;
  tensor_registry : gmap Z Value;
  fbgemm_backward_ops : list Callable;
  additional_tensors : gset (list Z);
  top_tensors : gmap Z (gset (list Z));
  additional_tensors_size : Z;
  stdout : list Msg }.

(** [__init__]: every container empty, every counter zero. *)
Definition init_manager : Manager :=
  {| tensor_registry_permanent := ∅; dependency_permanent := ∅; sorted_nodes := [];
     funcs := ∅; unchangeable_intermediate_tensors := ∅; original_unique_tensors := ∅;
     replay_unique_tensor_num := 0; tensors_mapping := ∅; replay_tensors_shapes := ∅;
     tensor_shapes := ∅; instantiate := ∅; cpu_tensor := ∅; tensor_registry := ∅;
     fbgemm_backward_ops := []; additional_tensors := ∅; top_tensors := ∅;
     additional_tensors_size := 0; stdout := [] |}.

(** Assignment to one attribute of the manager. *)
Definition set_tensor_registry_permanent (v : gmap Z Value) (m : Manager) : Manager :=
  {| tensor_registry_permanent := v; dependency_permanent := dependency_permanent m;
     sorted_nodes := sorted_nodes m; funcs := funcs m;
     unchangeable_intermediate_tensors := unchangeable_intermediate_tensors m;
     original_unique_tensors := original_unique_tensors m;
     replay_unique_tensor_num := replay_unique_tensor_num m;
     tensors_mapping := tensors_mapping m; replay_tensors_shapes := replay_tensors_shapes m;
     tensor_shapes := tensor_shapes m; instantiate := instantiate m; cpu_tensor := cpu_tensor m;
     tensor_registry := tensor_registry m; fbgemm_backward_ops := fbgemm_backward_ops m;
     additional_tensors := additional_tensors m; top_tensors := top_tensors m;
     additional_tensors_size := additional_tensors_size m; stdout := stdout m |}.

Definition set_dependency_permanent (v : gmap (list Z) nat) (m : Manager) : Manager :=
  {| tensor_registry_permanent := tensor_registry_permanent m; dependency_permanent := v;
     sorted_nodes := sorted_nodes m; funcs := funcs m;
     unchangeable_intermediate_tensors := unchangeable_intermediate_tensors m;
     original_unique_tensors := original_unique_tensors m;
     replay_unique_tensor_num := replay_unique_tensor_num m;
     tensors_mapping := tensors_mapping m; replay_tensors_shapes := replay_tensors_shapes m;
     tensor_shapes := tensor_shapes m; instantiate := instantiate m; cpu_tensor := cpu_tensor m;
     tensor_registry := tensor_registry m; fbgemm_backward_ops := fbgemm_backward_ops m;
     additional_tensors := additional_tensors m; top_tensors := top_tensors m;
     additional_tensors_size := additional_tensors_size m; stdout := stdout m |}.

Definition set_sorted_nodes (v : list Node) (m : Manager) : Manager :=
  {| tensor_registry_permanent := tensor_registry_permanent m;
     dependency_permanent := dependency_permanent m; sorted_nodes := v; funcs := funcs m;
     unchangeable_intermediate_tensors := unchangeable_intermediate_tensors m;
     original_unique_tensors := original_unique_tensors m;
     replay_unique_tensor_num := replay_unique_tensor_num m;
     tensors_mapping := tensors_mapping m; replay_tensors_shapes := replay_tensors_shapes m;
     tensor_shapes := tensor_shapes m; instantiate := instantiate m; cpu_tensor := cpu_tensor m;
     tensor_registry := tensor_registry m; fbgemm_backward_ops := fbgemm_backward_ops m;
     additional_tensors := additional_tensors m; top_tensors := top_tensors m;
     additional_tensors_size := additional_tensors_size m; stdout := stdout m |}.

Definition set_funcs (v : gmap Z (option Callable * nat)) (m : Manager) : Manager :=
  {| tensor_registry_permanent := tensor_registry_permanent m;
     dependency_permanent := dependency_permanent m; sorted_nodes := sorted_nodes m; funcs := v;
     unchangeable_intermediate_tensors := unchangeable_intermediate_tensors m;
     original_unique_tensors := original_unique_tensors m;
     replay_unique_tensor_num := replay_unique_tensor_num m;
     tensors_mapping := tensors_mapping m; replay_tensors_shapes := replay_tensors_shapes m;
     tensor_shapes := tensor_shapes m; instantiate := instantiate m; cpu_tensor := cpu_tensor m;
     tensor_registry := tensor_registry m; fbgemm_backward_ops := fbgemm_backward_ops m;
     additional_tensors := additional_tensors m; top_tensors := top_tensors m;
     additional_tensors_size := additional_tensors_size m; stdout := stdout m |}.

Definition set_unchangeable_intermediate_tensors (v : gset Z) (m : Manager) : Manager :=
  {| tensor_registry_permanent := tensor_registry_permanent m;
     dependency_permanent := dependency_permanent m; sorted_nodes := sorted_nodes m;
     funcs := funcs m; unchangeable_intermediate_tensors := v;
     original_unique_tensors := original_unique_tensors m;
     replay_unique_tensor_num := replay_unique_tensor_num m;
     tensors_mapping := tensors_mapping m; replay_tensors_shapes := replay_tensors_shapes m;
     tensor_shapes := tensor_shapes m; instantiate := instantiate m; cpu_tensor := cpu_tensor m;
     tensor_registry := tensor_registry m; fbgemm_backward_ops := fbgemm_backward_ops m;
     additional_tensors := additional_tensors m; top_tensors := top_tensors m;
     additional_tensors_size := additional_tensors_size m; stdout := stdout m |}.

Definition set_original_unique_tensors (v : gset (list Z)) (m : Manager) : Manager :=
  {| tensor_registry_permanent := tensor_registry_permanent m;
     dependency_permanent := dependency_permanent m; sorted_nodes := sorted_nodes m;
     funcs := funcs m; unchangeable_intermediate_tensors := unchangeable_intermediate_tensors m;
     original_unique_tensors := v; replay_unique_tensor_num := replay_unique_tensor_num m;
     tensors_mapping := tensors_mapping m; replay_tensors_shapes := replay_tensors_shapes m;
     tensor_shapes := tensor_shapes m; instantiate := instantiate m; cpu_tensor := cpu_tensor m;
     tensor_registry := tensor_registry m; fbgemm_backward_ops := fbgemm_backward_ops m;
     additional_tensors := additional_tensors m; top_tensors := top_tensors m;
     additional_tensors_size := additional_tensors_size m; stdout := stdout m |}.

Definition set_replay_unique_tensor_num (v : Z) (m : Manager) : Manager :=
  {| tensor_registry_permanent := tensor_registry_permanent m;
     dependency_permanent := dependency_permanent m; sorted_nodes := sorted_nodes m;
     funcs := funcs m; unchangeable_intermediate_tensors := unchangeable_intermediate_tensors m;
     original_unique_tensors := original_unique_tensors m; replay_unique_tensor_num := v;
     tensors_mapping := tensors_mapping m; replay_tensors_shapes := replay_tensors_shapes m;
     tensor_shapes := tensor_shapes m; instantiate := instantiate m; cpu_tensor := cpu_tensor m;
     tensor_registry := tensor_registry m; fbgemm_backward_ops := fbgemm_backward_ops m;
     additional_tensors := additional_tensors m; top_tensors := top_tensors m;
     additional_tensors_size := additional_tensors_size m; stdout := stdout m |}.

Definition set_tensors_mapping (v : gmap (Z * list Z) Z) (m : Manager) : Manager :=
  {| tensor_registry_permanent := tensor_registry_permanent m;
     dependency_permanent := dependency_permanent m; sorted_nodes := sorted_nodes m;
     funcs := funcs m; unchangeable_intermediate_tensors := unchangeable_intermediate_tensors m;
     original_unique_tensors := original_unique_tensors m;
     replay_unique_tensor_num := replay_unique_tensor_num m; tensors_mapping := v;
     replay_tensors_shapes := replay_tensors_shapes m; tensor_shapes := tensor_shapes m;
     instantiate := instantiate m; cpu_tensor := cpu_tensor m;
     tensor_registry := tensor_registry m; fbgemm_backward_ops := fbgemm_backward_ops m;
     additional_tensors := additional_tensors m; top_tensors := top_tensors m;
     additional_tensors_size := additional_tensors_size m; stdout := stdout m |}.

Definition set_replay_tensors_shapes (v : gmap Z (list Z)) (m : Manager) : Manager :=
  {| tensor_registry_permanent := tensor_registry_permanent m;
     dependency_permanent := dependency_permanent m; sorted_nodes := sorted_nodes m;
     funcs := funcs m; unchangeable_intermediate_tensors := unchangeable_intermediate_tensors m;
     original_unique_tensors := original_unique_tensors m;
     replay_unique_tensor_num := replay_unique_tensor_num m;
     tensors_mapping := tensors_mapping m; replay_tensors_shapes := v;
     tensor_shapes := tensor_shapes m; instantiate := instantiate m; cpu_tensor := cpu_tensor m;
     tensor_registry := tensor_registry m; fbgemm_backward_ops := fbgemm_backward_ops m;
     additional_tensors := additional_tensors m; top_tensors := top_tensors m;
     additional_tensors_size := additional_tensors_size m; stdout := stdout m |}.

Definition set_tensor_shapes (v : gmap (list Z) (gset (Z * list Z))) (m : Manager) : Manager :=
  {| tensor_registry_permanent := tensor_registry_permanent m;
     dependency_permanent := dependency_permanent m; sorted_nodes := sorted_nodes m;
     funcs := funcs m; unchangeable_intermediate_tensors := unchangeable_intermediate_tensors m;
     original_unique_tensors := original_unique_tensors m;
     replay_unique_tensor_num := replay_unique_tensor_num m;
     tensors_mapping := tensors_mapping m; replay_tensors_shapes := replay_tensors_shapes m;
     tensor_shapes := v; instantiate := instantiate m; cpu_tensor := cpu_tensor m;
     tensor_registry := tensor_registry m; fbgemm_backward_ops := fbgemm_backward_ops m;
     additional_tensors := additional_tensors m; top_tensors := top_tensors m;
     additional_tensors_size := additional_tensors_size m; stdout := stdout m |}.

Definition set_instantiate (v : gset Z) (m : Manager) : Manager :=
  {| tensor_registry_permanent := tensor_registry_permanent m;
     dependency_permanent := dependency_permanent m; sorted_nodes := sorted_nodes m;
     funcs := funcs m; unchangeable_intermediate_tensors := unchangeable_intermediate_tensors m;
     original_unique_tensors := original_unique_tensors m;
     replay_unique_tensor_num := replay_unique_tensor_num m;
     tensors_mapping := tensors_mapping m; replay_tensors_shapes := replay_tensors_shapes m;
     tensor_shapes := tensor_shapes m; instantiate := v; cpu_tensor := cpu_tensor m;
     tensor_registry := tensor_registry m; fbgemm_backward_ops := fbgemm_backward_ops m;
     additional_tensors := additional_tensors m; top_tensors := top_tensors m;
     additional_tensors_size := additional_tensors_size m; stdout := stdout m |}.

Definition set_cpu_tensor (v : gset Z) (m : Manager) : Manager :=
  {| tensor_registry_permanent := tensor_registry_permanent m;
     dependency_permanent := dependency_permanent m; sorted_nodes := sorted_nodes m;
     funcs := funcs m; unchangeable_intermediate_tensors := unchangeable_intermediate_tensors m;
     original_unique_tensors := original_unique_tensors m;
     replay_unique_tensor_num := replay_unique_tensor_num m;
     tensors_mapping := tensors_mapping m; replay_tensors_shapes := replay_tensors_shapes m;
     tensor_shapes := tensor_shapes m; instantiate := instantiate m; cpu_tensor := v;
     tensor_registry := tensor_registry m; fbgemm_backward_ops := fbgemm_backward_ops m;
     additional_tensors := additional_tensors m; top_tensors := top_tensors m;
     additional_tensors_size := additional_tensors_size m; stdout := stdout m |}.

Definition set_tensor_registry (v : gmap Z Value) (m : Manager) : Manager :=
  {| tensor_registry_permanent := tensor_registry_permanent m;
     dependency_permanent := dependency_permanent m; sorted_nodes := sorted_nodes m;
     funcs := funcs m; unchangeable_intermediate_tensors := unchangeable_intermediate_tensors m;
     original_unique_tensors := original_unique_tensors m;
     replay_unique_tensor_num := replay_unique_tensor_num m;
     tensors_mapping := tensors_mapping m; replay_tensors_shapes := replay_tensors_shapes m;
     tensor_shapes := tensor_shapes m; instantiate := instantiate m; cpu_tensor := cpu_tensor m;
     tensor_registry := v; fbgemm_backward_ops := fbgemm_backward_ops m;
     additional_tensors := additional_tensors m; top_tensors := top_tensors m;
     additional_tensors_size := additional_tensors_size m; stdout := stdout m |}.

Definition set_fbgemm_backward_ops (v : list Callable) (m : Manager) : Manager :=
  {| tensor_registry_permanent := tensor_registry_permanent m;
     dependency_permanent := dependency_permanent m; sorted_nodes := sorted_nodes m;
     funcs := funcs m; unchangeable_intermediate_tensors := unchangeable_intermediate_tensors m;
     original_unique_tensors := original_unique_tensors m;
     replay_unique_tensor_num := replay_unique_tensor_num m;
     tensors_mapping := tensors_mapping m; replay_tensors_shapes := replay_tensors_shapes m;
     tensor_shapes := tensor_shapes m; instantiate := instantiate m; cpu_tensor := cpu_tensor m;
     tensor_registry := tensor_registry m; fbgemm_backward_ops := v;
     additional_tensors := additional_tensors m; top_tensors := top_tensors m;
     additional_tensors_size := additional_tensors_size m; stdout := stdout m |}.

Definition set_additional_tensors (v : gset (list Z)) (m : Manager) : Manager :=
  {| tensor_registry_permanent := tensor_registry_permanent m;
     dependency_permanent := dependency_permanent m; sorted_nodes := sorted_nodes m;
     funcs := funcs m; unchangeable_intermediate_tensors := unchangeable_intermediate_tensors m;
     original_unique_tensors := original_unique_tensors m;
     replay_unique_tensor_num := replay_unique_tensor_num m;
     tensors_mapping := tensors_mapping m; replay_tensors_shapes := replay_tensors_shapes m;
     tensor_shapes := tensor_shapes m; instantiate := instantiate m; cpu_tensor := cpu_tensor m;
     tensor_registry := tensor_registry m; fbgemm_backward_ops := fbgemm_backward_ops m;
     additional_tensors := v; top_tensors := top_tensors m;
     additional_tensors_size := additional_tensors_size m; stdout := stdout m |}.

Definition set_top_tensors (v : gmap Z (gset (list Z))) (m : Manager) : Manager :=
  {| tensor_registry_permanent := tensor_registry_permanent m;
     dependency_permanent := dependency_permanent m; sorted_nodes := sorted_nodes m;
     funcs := funcs m; unchangeable_intermediate_tensors := unchangeable_intermediate_tensors m;
     original_unique_tensors := original_unique_tensors m;
     replay_unique_tensor_num := replay_unique_tensor_num m;
     tensors_mapping := tensors_mapping m; replay_tensors_shapes := replay_tensors_shapes m;
     tensor_shapes := tensor_shapes m; instantiate := instantiate m; cpu_tensor := cpu_tensor m;
     tensor_registry := tensor_registry m; fbgemm_backward_ops := fbgemm_backward_ops m;
     additional_tensors := additional_tensors m; top_tensors := v;
     additional_tensors_size := additional_tensors_size m; stdout := stdout m |}.

Definition set_additional_tensors_size (v : Z) (m : Manager) : Manager :=
  {| tensor_registry_permanent := tensor_registry_permanent m;
     dependency_permanent := dependency_permanent m; sorted_nodes := sorted_nodes m;
     funcs := funcs m; unchangeable_intermediate_tensors := unchangeable_intermediate_tensors m;
     original_unique_tensors := original_unique_tensors m;
     replay_unique_tensor_num := replay_unique_tensor_num m;
     tensors_mapping := tensors_mapping m; replay_tensors_shapes := replay_tensors_shapes m;
     tensor_shapes := tensor_shapes m; instantiate := instantiate m; cpu_tensor := cpu_tensor m;
     tensor_registry := tensor_registry m; fbgemm_backward_ops := fbgemm_backward_ops m;
     additional_tensors := additional_tensors m; top_tensors := top_tensors m;
     additional_tensors_size := v; stdout := stdout m |}.

Definition set_stdout (v : list Msg) (m : Manager) : Manager :=
  {| tensor_registry_permanent := tensor_registry_permanent m;
     dependency_permanent := dependency_permanent m; sorted_nodes := sorted_nodes m;
     funcs := funcs m; unchangeable_intermediate_tensors := unchangeable_intermediate_tensors m;
     original_unique_tensors := original_unique_tensors m;
     replay_unique_tensor_num := replay_unique_tensor_num m;
     tensors_mapping := tensors_mapping m; replay_tensors_shapes := replay_tensors_shapes m;
     tensor_shapes := tensor_shapes m; instantiate := instantiate m; cpu_tensor := cpu_tensor m;
     tensor_registry := tensor_registry m; fbgemm_backward_ops := fbgemm_backward_ops m;
     additional_tensors := additional_tensors m; top_tensors := top_tensors m;
     additional_tensors_size := additional_tensors_size m; stdout := v |}.
Definition print (line : Msg) (m : Manager) : Manager := set_stdout (stdout m ++ [line]) m.

(** The result of a method: it returns, or the process stops in the state
    [m]. *)
Inductive Result (A : Type) : Type :=
| Ret (a : A)
| Abort (why : Stop) (m : Manager).
Arguments Ret {A} a.
Arguments Abort {A} why m.

#[global] Instance Result_bind : MBind Result := λ A B f r,
  match r with
  | Ret a => f a
  | Abort why m => Abort why m
  end.

(** A [for] loop whose body may stop the process. *)
Fixpoint for_each {A S : Type} (body : S → A → Result S) (l : list A) (s : S) : Result S :=
  match l with
  | [] => Ret s
  | x :: l' => s' ← body s x; for_each body l' s'
  end.

(** ** Strings *)

Fixpoint starts_with (p s : string) : bool :=
  match p, s with
  | EmptyString, _ => true
  | String _ _, EmptyString => false
  | String a p', String b s' => Ascii.eqb a b && starts_with p' s'
  end.

(** Python's [x in s] on strings. *)
Fixpoint str_in (x s : string) : bool :=
  starts_with x s ||
  match s with
  | EmptyString => false
  | String _ s' => str_in x s'
  end.

Definition char_in (c : ascii) (chars : string) : bool :=
  existsb (Ascii.eqb c) (list_ascii_of_string chars).

(** [s.lstrip(chars)] and [s.rstrip(chars)]: they strip characters of the
    set [chars], not a prefix or a suffix. *)
Fixpoint lstrip_list (chars : string) (s : list ascii) : list ascii :=
  match s with
  | [] => []
  | c :: s' => if char_in c chars then lstrip_list chars s' else s
  end.

Definition lstrip (chars s : string) : string :=
  string_of_list_ascii (lstrip_list chars (list_ascii_of_string s)).

Definition rstrip (chars s : string) : string :=
  string_of_list_ascii (rev (lstrip_list chars (rev (list_ascii_of_string s)))).

(** [data_type.lstrip('Tensor(').rstrip(')')] *)
Definition strip_dtype (data_type : string) : string :=
  rstrip ")" (lstrip "Tensor(" data_type).

(** ** The methods of [ExgrReplayManager] *)

Section Methods.
Context `{EgReplayUtils}.

(** [self.skip_node_names], never reassigned. *)
Definition skip_node_names : list string := ["DataLoader"; "aten::set_"]%string.

(** [any(x in child.name for x in self.skip_node_names)] *)
Definition name_skipped (child : Node) : bool :=
  existsb (λ x, str_in x (node_name child)) skip_node_names.

(** [t_id in self.dependency_permanent.keys()] *)
Definition tracked (m : Manager) (t_id : list Z) : bool :=
  bool_decide (t_id ∈ dom (dependency_permanent m)).

(** [self.tensors_mapping[(node.id, t_id)]]; [None] is a [KeyError]. *)
Definition slot_of (m : Manager) (node : Node) (t_id : list Z) : option Z :=
  tensors_mapping m !! (node_id node, t_id).

(** *** [build_func] *)

(** [ops.pop(-1)] on a non-empty list. *)
Definition pop_last {A : Type} (l : list A) : option (list A * A) :=
  x ← last l; Some (removelast l, x).

(** [None]: the builder raised, or [assert self.fbgemm_backward_ops] failed. *)
Definition build_func (node : Node) (m : Manager)
  : option ((option Callable * nat) * Manager) :=
  if is_fbgemm_forward node then
    '(func, output_count) ← build_fbgemm_func node;
    Some ((Some (forward func), output_count),
          set_fbgemm_backward_ops (fbgemm_backward_ops m ++ [backward func]) m)
  else if is_fbgemm_backward node then
    '(ops, func) ← pop_last (fbgemm_backward_ops m);
    Some ((Some func, length (node_output_types node)), set_fbgemm_backward_ops ops m)
  else
    r ← build_torchscript_func node; Some (r, m).

(** *** [extract_subgraph] *)

Definition tensor_ids (ts : list (string * list Z * list Z)) : list (list Z) :=
  (λ t, t.1.2) <$> ts.

(** [self.dependency_permanent[t_id] += 1] on a [defaultdict(int)]. *)
Definition count_dependency (dep : gmap (list Z) nat) (t_id : list Z) : gmap (list Z) nat :=
  <[t_id := S (default 0%nat (dep !! t_id))]> dep.

(** The statements of the qualified branch that precede [build_func]:
    append to [sorted_nodes], fill [top_tensors[child]], count the inputs. *)
Definition record_node (child : Node) (m : Manager) : Manager :=
  let m1 := set_sorted_nodes (sorted_nodes m ++ [child]) m in
  let top : gset (list Z) :=
    list_to_set (tensor_ids (get_input_tensors child) ++
                 tensor_ids (get_output_tensors child)) in
  let m2 := set_top_tensors (<[node_id child := top]> (top_tensors m1)) m1 in
  set_dependency_permanent
    (foldl count_dependency (dependency_permanent m2)
       (tensor_ids (get_input_tensors child))) m2.

(** The qualified branch; an exception is caught by the enclosing handler,
    which prints the node and calls [exit(1)]. *)
Definition visit_qualified (child : Node) (m : Manager) : Result Manager :=
  let m1 := record_node child m in
  match build_func child m1 with
  | Some (fc, m2) => Ret (set_funcs (<[node_id child := fc]> (funcs m2)) m2)
  | None => Abort (SystemExit 1) (print (GraphParseError (node_id child)) m1)
  end.

Fixpoint _dfs_traverse (root : Node) (m : Manager) {struct root} : Result Manager :=
  (fix loop (cs : list Node) (m : Manager) {struct cs} : Result Manager :=
     match cs with
     | [] => Ret m
     | child :: cs' =>
         if name_skipped child then loop cs' m
         else if is_qualified child then
           m' ← visit_qualified child m; loop cs' m'
         else
           m' ← _dfs_traverse child m; loop cs' m'
     end) (node_children root) m.

(** [sorted(self.sorted_nodes, key=lambda x: x.id)]: a stable sort. *)
Fixpoint insert_by_id (x : Node) (l : list Node) : list Node :=
  match l with
  | [] => [x]
  | y :: l' => if node_id x <=? node_id y then x :: l else y :: insert_by_id x l'
  end.

Definition sorted_by_id (l : list Node) : list Node := foldr insert_by_id [] l.

Definition extract_subgraph (root : Node) (m : Manager) : Result Manager :=
  m1 ← _dfs_traverse root m;
  let m2 := set_sorted_nodes (sorted_by_id (sorted_nodes m1)) m1 in
  Ret (print (OperationsToExecute (length (sorted_nodes m2))) m2).

(** *** [analyze_subgraph] *)

(** [n in self.sorted_nodes]: nodes are compared by identity, which the
    unique node id stands for. *)
Definition in_sorted_nodes (m : Manager) (n : Node) : bool :=
  bool_decide (node_id n ∈ node_id <$> sorted_nodes m).

(** [node = child.parent; while node not in self.sorted_nodes: node =
    node.parent], on the chain of ancestors of [child], parent first.  The
    root has no parent: past it [node] is [None], which is in no list, and
    [None.parent] raises.  That is the result [None]. *)
Fixpoint qualified_ancestor (m : Manager) (chain : list Node) : option Node :=
  match chain with
  | [] => None
  | node :: up => if in_sorted_nodes m node then Some node else qualified_ancestor m up
  end.

(** [reduce(lambda x, y: x * y, shape)] on a non-empty shape. *)
Definition shape_product (shape : list Z) : Z :=
  match shape with
  | [] => 1
  | x :: xs => foldl Z.mul x xs
  end.

(** The body of the loop over the outputs of a node outside the replayed
    list, [node] being its qualified ancestor. *)
Definition note_additional (node : Node) (m : Manager)
    (t : string * list Z * list Z) : Result Manager :=
  let '(data_type, t_id, shape) := t in
  match top_tensors m !! node_id node with
  | None => Abort (Traceback KeyError) m
  | Some top =>
      if bool_decide (t_id ∉ top) && tracked m t_id
         && bool_decide (t_id ∉ additional_tensors m) then
        let m1 := set_additional_tensors ({[t_id]} ∪ additional_tensors m) m in
        match shape with
        | [] => Ret m1
        | _ :: _ =>
            match TORCH_DTYPES_BYTES !! strip_dtype data_type with
            | None => Abort (Traceback KeyError) m1
            | Some width =>
                Ret (set_additional_tensors_size
                       (additional_tensors_size m1 + shape_product shape * width) m1)
            end
        end
      else Ret m
  end.

(** What the loop body does with [child] before it descends into it;
    [chain] holds [child.parent] and the ancestors above it. *)
Definition analyze_child (child : Node) (chain : list Node) (m : Manager) : Result Manager :=
  if negb (in_sorted_nodes m child) && bool_decide (node_type child = OPERATOR) then
    match qualified_ancestor m chain with
    | None => Abort (Traceback AttributeError) m
    | Some node => for_each (note_additional node) (get_output_tensors child) m
    end
  else Ret m.

(** [chain]: the ancestors of [node], parent first. *)
Fixpoint _bfs_traverse (node : Node) (chain : list Node) (m : Manager) {struct node}
  : Result Manager :=
  (fix loop (cs : list Node) (m : Manager) {struct cs} : Result Manager :=
     match cs with
     | [] => Ret m
     | child :: cs' =>
         if name_skipped child then loop cs' m
         else if is_backward_aten child || has_backward_parent child then loop cs' m
         else
           m1 ← analyze_child child (node :: chain) m;
           m2 ← _bfs_traverse child (node :: chain) m1;
           loop cs' m2
     end) (node_children node) m.

Definition analyze_subgraph (root : Node) (m : Manager) : Result Manager :=
  m1 ← _bfs_traverse root [] m;
  Ret (print (AdditionalAllocated (size (additional_tensors m1))
                (additional_tensors_size m1)) m1).

(** *** [analyze_tensors] *)

(** [self.tensor_shapes[t_id]] on a [defaultdict(set)]. *)
Definition shapes_of (m : Manager) (t_id : list Z) : gset (Z * list Z) :=
  default ∅ (tensor_shapes m !! t_id).

(** The four statements that mint a replay tensor (they stand twice in
    [add_unique_tensor]): bump the counter, bind [(node_id, t_id)] to it,
    record its shape, and add [(slot, shape)] to the shapes seen for [t_id]. *)
Definition new_replay_tensor (node_id : Z) (t_id shape : list Z) (m : Manager) : Manager :=
  let num := replay_unique_tensor_num m + 1 in
  let m1 := set_replay_unique_tensor_num num m in
  let m2 := set_tensors_mapping (<[(node_id, t_id) := num]> (tensors_mapping m1)) m1 in
  let m3 := set_replay_tensors_shapes (<[num := shape]> (replay_tensors_shapes m2)) m2 in
  set_tensor_shapes (<[t_id := {[ (num, shape) ]} ∪ shapes_of m3 t_id]> (tensor_shapes m3)) m3.

(** The loop over [self.tensor_shapes[t_id]] returns at the first pair whose
    shape equals [tuple(shape)]; the set is enumerated in the order of
    [elements]. *)
Definition find_shape (shape : list Z) (seen : gset (Z * list Z)) : option Z :=
  (λ r, r.2.1) <$> list_find (λ p, shape = p.2) (elements seen).

Definition add_unique_tensor (node_id : Z) (t_id shape : list Z) (m : Manager) : Manager :=
  if bool_decide (t_id ∉ original_unique_tensors m) then
    new_replay_tensor node_id t_id shape
      (set_original_unique_tensors ({[t_id]} ∪ original_unique_tensors m) m)
  else
    (* reading a defaultdict creates the entry *)
    let m1 := set_tensor_shapes (<[t_id := shapes_of m t_id]> (tensor_shapes m)) m in
    match find_shape shape (shapes_of m1 t_id) with
    | Some relay_t_id =>
        set_tensors_mapping (<[(node_id, t_id) := relay_t_id]> (tensors_mapping m1)) m1
    | None => new_replay_tensor node_id t_id shape m1
    end.

(** First pass, one tensor of a node. *)
Definition assign_tensor (node : Node) (m : Manager) (t : string * list Z * list Z) : Manager :=
  if tracked m t.1.2 then add_unique_tensor (node_id node) t.1.2 t.2 m else m.

Definition assign_node (m : Manager) (node : Node) : Manager :=
  foldl (assign_tensor node)
    (foldl (assign_tensor node) m (get_input_tensors node))
    (get_output_tensors node).

(** Second pass; the state is the manager and the local [output_set]. *)
Definition classify_input (node : Node) (s : Manager * gset Z)
    (t : string * list Z * list Z) : Result (Manager * gset Z) :=
  let '(m, output_set) := s in
  if tracked m t.1.2 then
    match slot_of m node t.1.2 with
    | None => Abort (Traceback KeyError) m
    | Some slot =>
        if bool_decide (slot ∉ output_set)
        then Ret (set_instantiate ({[slot]} ∪ instantiate m) m, output_set)
        else Ret (m, output_set)
    end
  else Ret (m, output_set).

Definition classify_output (node : Node) (s : Manager * gset Z)
    (t : string * list Z * list Z) : Result (Manager * gset Z) :=
  let '(m, output_set) := s in
  if tracked m t.1.2 then
    match slot_of m node t.1.2 with
    | None => Abort (Traceback KeyError) m
    | Some slot => Ret (m, {[slot]} ∪ output_set)
    end
  else Ret (m, output_set).

Definition classify_node (s : Manager * gset Z) (node : Node) : Result (Manager * gset Z) :=
  s1 ← for_each (classify_input node) (get_input_tensors node) s;
  for_each (classify_output node) (get_output_tensors node) s1.

Definition analyze_tensors (m : Manager) : Result Manager :=
  let m1 := foldl assign_node m (sorted_nodes m) in
  s ← for_each classify_node (sorted_nodes m1) (m1, ∅);
  Ret s.1.

(** *** [allocate_tensors] *)

(** [t.to(dtype)]; the conversion of the contents is the tensor library's. *)
Definition to_dtype (d : string) (t : Tensor) : Tensor :=
  {| is_cuda := is_cuda t; dtype := d; tensor_shape := tensor_shape t; data := data t |}.

Definition name_is (node : Node) (s : string) : bool := String.eqb (node_name node) s.

(** The body of the loop over [enumerate(get_input_tensors(node))].  In the
    [try] block only a [KeyError] is handled: it binds the slot to [None]. *)
Definition allocate_input (node : Node) (m : Manager)
    (it : nat * (string * list Z * list Z)) : Result Manager :=
  let '(idx, (data_type, t_id, shape)) := it in
  match slot_of m node t_id with
  | None => Abort (Traceback KeyError) m
  | Some replay_t_id =>
      if tracked m t_id
         && bool_decide (replay_t_id ∉ dom (tensor_registry_permanent m))
         && (name_is node "aten::embedding_bag"
             || name_is node "fbgemm::split_embedding_codegen_lookup_sgd_function"
             || bool_decide (replay_t_id ∈ instantiate m))
      then
        if is_fbgemm_forward node then
          match generate_fbgemm_tensors node !! idx with
          | None => Abort (Traceback IndexError) m
          | Some v =>
              let m1 := set_tensor_registry_permanent
                          (<[replay_t_id := v]> (tensor_registry_permanent m)) m in
              Ret (if name_is node "fbgemm::split_embedding_codegen_lookup_sgd_function"
                   then set_unchangeable_intermediate_tensors
                          ({[replay_t_id]} ∪ unchangeable_intermediate_tensors m1) m1
                   else m1)
          end
        else
          match TORCH_DTYPES_RNG !! strip_dtype data_type with
          | Some (dt, rng) =>
              let m1 := set_tensor_registry_permanent
                          (<[replay_t_id := VTensor (to_dtype dt (rng shape))]>
                             (tensor_registry_permanent m)) m in
              let m2 := if name_is node "aten::embedding_bag"
                        then set_unchangeable_intermediate_tensors
                               ({[replay_t_id]} ∪ unchangeable_intermediate_tensors m1) m1
                        else m1 in
              Ret (if name_is node "aten::pin_memory" && bool_decide (idx = 0%nat)
                   then set_cpu_tensor ({[replay_t_id]} ∪ cpu_tensor m2) m2
                   else m2)
          | None =>
              let m1 := if String.eqb data_type "Tensor(nullptr (uninitialized))"
                        then m
                        else print (KeyErrorLine (node_id node) t_id data_type) m in
              Ret (set_tensor_registry_permanent
                     (<[replay_t_id := VNone]> (tensor_registry_permanent m1)) m1)
          end
      else Ret m
  end.

Definition enumerate {A : Type} (l : list A) : list (nat * A) := zip (seq 0 (length l)) l.

(** A Python integer as an operand of a float operation, not rounded yet. *)
Definition exact_int (z : Z) : spec_float :=
  match z with
  | Z0 => S754_zero false
  | Zpos p => S754_finite false p 0
  | Zneg p => S754_finite true p 0
  end.

(** [a / b] on Python integers, true division: a [ZeroDivisionError] when
    [b] is zero; otherwise the float nearest to the quotient (ties to even),
    and an [OverflowError] when that is beyond the largest float. *)
Definition true_div (a b : Z) : PyExc + float :=
  if b =? 0 then inl ZeroDivisionError
  else match SFdiv prec emax (exact_int a) (exact_int b) with
       | S754_infinity _ => inl OverflowError
       | q => inr (SF2Prim q)
       end.

(** [float(z)] for a Python integer: the nearest float (ties to even), an
    [OverflowError] beyond the largest float. *)
Definition py_float (z : Z) : PyExc + float :=
  match binary_normalize prec emax z 0 false with
  | S754_infinity _ => inl OverflowError
  | f => inr (SF2Prim f)
  end.

(** [i * nnz] for an integer [i] and a float [nnz]: the integer is converted
    to a float, then the floats are multiplied. *)
Definition int_times (i : Z) (nnz : float) : PyExc + float :=
  match py_float i with
  | inl e => inl e
  | inr f => inr (PrimFloat.mul f nnz)
  end.

(** [tuple(item)] used as a tensor identifier: a list of integers gives the
    key; an empty list or string gives the empty tuple.  [None]: the
    conversion, or the dictionary lookup that follows it, raises. *)
Definition item_tuple (it : Item) : option (list Z) :=
  match it with
  | ItemInts t => Some t
  | ItemLists [] => Some []
  | ItemStr EmptyString => Some []
  | _ => None
  end.

(** The exception that [self.tensors_mapping[(node.id, item)]] raises when
    [item] is taken from [node.inputs] as it is, not converted by [tuple].
    A list, which is how the trace gives a tensor identifier, cannot be
    hashed: a [TypeError].  A string or a number can, and it is the second
    component of no key of [tensors_mapping], whose keys are made with
    tuples of integers: a [KeyError]. *)
Definition raw_key_error (item : Item) : PyExc :=
  match item with
  | ItemInts _ | ItemLists _ => TypeError
  | ItemStr _ | ItemNum _ => KeyError
  end.

(** One iteration of the loop that rewrites the offsets:
    [registry[mapping[(node.id, node.inputs[2])]][i] = i * nnz].  The
    right-hand side is evaluated first, then the target, from the inside:
    [node.inputs[2]], then the subscript of [tensors_mapping].  That
    subscript raises whatever the item is, so that the lookup in the
    registry and the store into its object, which would come next, are never
    reached. *)
Definition patch_offset (node : Node) (nnz : float) (m : Manager) (i : nat) : Result Manager :=
  match int_times (Z.of_nat i) nnz with
  | inl e => Abort (Traceback e) m
  | inr _ =>
      match node_inputs node !! 2%nat with
      | None => Abort (Traceback IndexError) m
      | Some item => Abort (Traceback (raw_key_error item)) m
      end
  end.

(** [node.input_shapes[k][0]] *)
Definition input_dim (node : Node) (k : nat) : option Z :=
  shape ← node_input_shapes node !! k; shape !! 0%nat.

(** The workaround that follows the loop over the inputs of a node. *)
Definition match_offsets (node : Node) (m : Manager) : Result Manager :=
  if name_is node "aten::embedding_bag" then
    match input_dim node 1, input_dim node 2 with
    | Some indices_tensor_shape, Some offsets_tensor_shape =>
        match true_div indices_tensor_shape offsets_tensor_shape with
        | inl e => Abort (Traceback e) m
        | inr nnz =>
            for_each (patch_offset node nnz) (seq 0 (Z.to_nat offsets_tensor_shape)) m
        end
    | _, _ => Abort (Traceback IndexError) m
    end
  else Ret m.

Definition allocate_node (m : Manager) (node : Node) : Result Manager :=
  m1 ← for_each (allocate_input node) (enumerate (get_input_tensors node)) m;
  match_offsets node m1.

Definition allocate_tensors (m : Manager) : Result Manager :=
  for_each allocate_node (sorted_nodes m) m.

(** *** [reset_registry] *)

(** One entry of the working registry; [None] when [v.cuda] does not exist. *)
Definition reset_value (m : Manager) (k : Z) (v : Value) : option Value :=
  match v with
  | VNone => Some VNone
  | VTensor t =>
      if bool_decide (k ∈ cpu_tensor m) then Some v
      else Some (VTensor {| is_cuda := true; dtype := dtype t;
                            tensor_shape := tensor_shape t; data := data t |})
  | _ => if bool_decide (k ∈ cpu_tensor m) then Some v else None
  end.

Definition reset_registry (m : Manager) : Result Manager :=
  if bool_decide (map_Forall (λ k v, is_Some (reset_value m k v)) (tensor_registry_permanent m))
  then Ret (set_tensor_registry (map_imap (reset_value m) (tensor_registry_permanent m)) m)
  else Abort (Traceback AttributeError) m.

(** *** [preprocess_graph] *)

Definition tensor_count (m : Manager) : Msg :=
  TensorCount
    (map_fold (λ _ s n, if bool_decide (size s = 1%nat) then n else (n + size s)%nat)
       0%nat (tensor_shapes m))
    (size (tensor_shapes m)).

(** [root] is [nodes[1]] of the loaded graph. *)
Definition preprocess_graph (root : Node) (m : Manager) : Result Manager :=
  m1 ← extract_subgraph root m;
  m2 ← analyze_subgraph root m1;
  m3 ← analyze_tensors m2;
  m4 ← allocate_tensors (print (tensor_count m3) m3);
  reset_registry m4.

(** *** [get_inputs] *)

(** [self.tensor_registry[self.tensors_mapping[(node.id, t_id)]]] *)
Definition registry_at (m : Manager) (node : Node) (t_id : list Z) : option Value :=
  slot ← slot_of m node t_id; tensor_registry m !! slot.

(** The identifiers [for t_id in item] yields, each through [tuple]. *)
Definition item_tuples (it : Item) : option (list (list Z)) :=
  match it with
  | ItemLists ts => Some ts
  | ItemInts [] => Some []
  | ItemStr EmptyString => Some []
  | _ => None
  end.

Definition resolve_item (m : Manager) (node : Node) (p : nat * Item) : option Value :=
  let '(idx, item) := p in
  if is_tensor node idx then
    t_id ← item_tuple item; registry_at m node t_id
  else if is_tensor_list node idx then
    ts ← item_tuples item; VList <$> mapM (registry_at m node) ts
  else
    match item with
    | ItemStr s =>
        if String.eqb s "<None>" || String.eqb s "<Generator>" then Some VNone
        else if String.eqb s "inf" then Some (VFloat infinity)
        else if String.eqb s "-inf" then Some (VFloat neg_infinity)
        else Some (VItem item)
    | _ => Some (VItem item)
    end.

(** [None]: an exception was raised inside the [try] block. *)
Definition resolve_inputs (m : Manager) (node : Node) : option (list Value) :=
  if is_fbgemm_forward node then
    inputs ← mapM (λ idx, item ← node_inputs node !! idx;
                          t_id ← item_tuple item;
                          registry_at m node t_id)
                  (fbgemm_input_args_indices node);
    Some (if is_fbgemm_forward_unweighted node then inputs ++ [VNone] else inputs)
  else mapM (resolve_item m node) (enumerate (node_inputs node)).

(** The handler prints the node and the method returns Python's [None]. *)
Definition get_inputs (node : Node) (m : Manager) : option (list Value) * Manager :=
  match resolve_inputs m node with
  | Some inputs => (Some inputs, m)
  | None => (None, print (InputsError (node_id node)) m)
  end.

(** *** [run_op] *)

(** [inputs[-1] = [True, True, True]] for [aten::convolution_backward]. *)
Definition workaround_convolution (node : Node) (inputs : option (list Value)) (m : Manager)
  : Result (option (list Value)) :=
  if name_is node "aten::convolution_backward" then
    match inputs with
    | None => Abort (Traceback TypeError) m
    | Some [] => Abort (Traceback IndexError) m
    | Some l => Ret (Some (removelast l ++ [VList [VBool true; VBool true; VBool true]]))
    end
  else Ret inputs.

(** The operands of [aten::mul] are brought to the device of the first. *)
Definition workaround_mul (node : Node) (inputs : option (list Value)) (m : Manager)
  : Result (option (list Value)) :=
  if name_is node "aten::mul" then
    match inputs with
    | None => Abort (Traceback TypeError) m
    | Some l =>
        match l !! 0%nat with
        | None => Abort (Traceback IndexError) m
        | Some (VTensor a) =>
            match l !! 1%nat with
            | None => Abort (Traceback IndexError) m
            | Some (VTensor b) =>
                if xorb (is_cuda a) (is_cuda b)
                then Ret (Some (<[1%nat := VTensor {| is_cuda := is_cuda a; dtype := dtype b;
                                                      tensor_shape := tensor_shape b;
                                                      data := data b |}]> l))
                else Ret (Some l)
            | Some _ => Abort (Traceback AttributeError) m
            end
        | Some _ => Abort (Traceback AttributeError) m
        end
    end
  else Ret inputs.

(** What one element of [tmp] adds to [outputs]: a list whose first
    element is a tensor is appended element by element, a tensor is appended,
    anything else is dropped.  [None] is the [IndexError] of [x[0]] on an
    empty list. *)
Definition flatten_output (x : Value) : option (list Value) :=
  match x with
  | VList [] | VItem (ItemInts []) | VItem (ItemLists []) => None
  | VList (VTensor t :: l) => Some (VTensor t :: l)
  | VTensor t => Some [x]
  | _ => Some []
  end.

(** The rows of a tensor, which iterating over it yields; a tensor without
    dimensions cannot be iterated over. *)
Definition tensor_rows (t : Tensor) : option (list Tensor) :=
  match tensor_shape t with
  | [] => None
  | n :: rest =>
      let width := Z.to_nat (foldl Z.mul 1 rest) in
      Some (map (λ k : nat, {| is_cuda := is_cuda t; dtype := dtype t; tensor_shape := rest;
                               data := take width (drop (k * width) (data t)) |})
              (seq 0 (Z.to_nat n)))
  end.

(** [for x in tmp]: a list or a tuple yields its elements, a tensor its
    rows, a string its characters; [None], a number and a tensor without
    dimensions are not iterable. *)
Definition iter_value (tmp : Value) : option (list Value) :=
  match tmp with
  | VList l | VTuple l => Some l
  | VTensor t => option_map (map VTensor) (tensor_rows t)
  | VItem (ItemInts l) => Some ((λ z, VItem (ItemNum z)) <$> l)
  | VItem (ItemLists ls) => Some ((λ l, VItem (ItemInts l)) <$> ls)
  | VItem (ItemStr s) =>
      Some ((λ c, VItem (ItemStr (String c EmptyString))) <$> list_ascii_of_string s)
  | VNone | VBool _ | VFloat _ | VItem (ItemNum _) => None
  end.

(** The [try] block of [run_op]; [None] when anything in it raises, which
    unpacking [inputs] into the call does when [inputs] is Python's [None]. *)
Definition invoke (func : Callable) (output_count : nat) (inputs : option (list Value))
  : option (list Value) :=
  args ← inputs;
  match output_count with
  | O => _ ← call func args; Some []
  | 1%nat => x ← call func args; flatten_output x
  | _ => tmp ← call func args; xs ← iter_value tmp; mjoin <$> mapM flatten_output xs
  end.

(** The body of the loop over [zip(get_output_tensors(node), outputs)]. *)
Definition write_output (node : Node) (m : Manager)
    (p : (string * list Z * list Z) * Value) : Result Manager :=
  let '((_, t_id, _), output) := p in
  if tracked m t_id then
    match slot_of m node t_id with
    | None => Abort (Traceback KeyError) m
    | Some slot =>
        if bool_decide (slot ∉ unchangeable_intermediate_tensors m) then
          if bool_decide (slot ∉ instantiate m)
          then Ret (set_tensor_registry (<[slot := output]> (tensor_registry m)) m)
          else Ret m
        else Ret m
    end
  else Ret m.

Definition run_op (node : Node) (m : Manager) : Result Manager :=
  match funcs m !! node_id node with
  | None => Abort (Traceback KeyError) m
  | Some (None, _) => Ret m
  | Some (Some func, output_count) =>
      let '(inputs, m1) := get_inputs node m in
      inputs1 ← workaround_convolution node inputs m1;
      inputs2 ← workaround_mul node inputs1 m1;
      match invoke func output_count inputs2 with
      | None => Abort (SystemExit 1) (print (RunOpError (node_id node)) m1)
      | Some outputs =>
          for_each (write_output node) (zip (get_output_tensors node) outputs) m1
      end
  end.

(** *** The replay loop of [benchTime] *)

(** [for node in self.sorted_nodes: self.run_op(node)] *)
Definition run_nodes (nodes : list Node) (m : Manager) : Result Manager :=
  for_each (λ m node, run_op node m) nodes m.

(** [iters] passes, the warm-up passes included. *)
Fixpoint run_passes (iters : nat) (m : Manager) : Result Manager :=
  match iters with
  | O => Ret m
  | S n => m' ← run_nodes (sorted_nodes m) m; run_passes n m'
  end.

Definition benchTime (root : Node) (numWarmupIters numIters : nat) (m : Manager)
  : Result Manager :=
  m1 ← preprocess_graph root m;
  run_passes (numWarmupIters + numIters) (print StartToExecution m1).

End Methods.

(** * Specifications

    The notions the properties below are stated with. *)

Section Specifications.
Context `{EgReplayUtils}.

(** The state of the resolver is consistent: slots are numbered from 1 up
    to the counter, a slot belongs to one identifier and one shape, and an
    identifier has one slot per shape. *)
Record resolver_inv (m : Manager) : Prop := {
  inv_range : ∀ t s sh, (s, sh) ∈ shapes_of m t → 1 ≤ s ≤ replay_unique_tensor_num m;
  inv_slot : ∀ t t' s sh sh',
    (s, sh) ∈ shapes_of m t → (s, sh') ∈ shapes_of m t' → t = t' ∧ sh = sh';
  inv_shape : ∀ t s s' sh, (s, sh) ∈ shapes_of m t → (s', sh) ∈ shapes_of m t → s = s';
  inv_seen : ∀ t, t ∉ original_unique_tensors m → shapes_of m t = ∅;
  inv_num : 0 ≤ replay_unique_tensor_num m;
  inv_bound : ∀ n t s, tensors_mapping m !! (n, t) = Some s → ∃ sh, (s, sh) ∈ shapes_of m t;
  inv_shapes : ∀ t s sh, (s, sh) ∈ shapes_of m t → replay_tensors_shapes m !! s = Some sh }.

(** The resolver has not run yet. *)
Definition resolver_fresh (m : Manager) : Prop :=
  original_unique_tensors m = ∅ ∧ tensor_shapes m = ∅ ∧ tensors_mapping m = ∅
  ∧ replay_unique_tensor_num m = 0.

(** The calls of [add_unique_tensor] that the first pass makes for a node,
    in order: its tracked inputs, then its tracked outputs. *)
Definition resolver_calls_of (m : Manager) (node : Node) : list (Z * list Z * list Z) :=
  (λ t, (node_id node, t.1.2, t.2))
    <$> filter (λ t, tracked m t.1.2 = true) (get_input_tensors node ++ get_output_tensors node).

Definition resolver_calls (m : Manager) (nodes : list Node) : list (Z * list Z * list Z) :=
  nodes ≫= resolver_calls_of m.

Definition resolve (m : Manager) (c : Z * list Z * list Z) : Manager :=
  add_unique_tensor c.1.1 c.1.2 c.2 m.

(** The slot each call binds its key to, read right after the call. *)
Fixpoint assigned_slots (m : Manager) (calls : list (Z * list Z * list Z)) : list (option Z) :=
  match calls with
  | [] => []
  | c :: rest => tensors_mapping (resolve m c) !! (c.1.1, c.1.2) :: assigned_slots (resolve m c) rest
  end.

Inductive Use : Type := AsInput | AsOutput.

#[global] Instance Use_eq_dec : EqDecision Use.
Proof. solve_decision. Defined.

(** What the second pass reads for a list of tensors of [node]: for each
    tracked tensor, the slot that [tensors_mapping] binds the node and the
    identifier to. *)
Definition uses_of (m : Manager) (node : Node) (u : Use)
    (ts : list (string * list Z * list Z)) : list (Use * Z) :=
  omap (λ t, if tracked m t.1.2 then (λ s, (u, s)) <$> slot_of m node t.1.2 else None) ts.

(** The bindings the second pass reads, in its order: node after node, the
    inputs of a node before its outputs. *)
Definition scan_node (m : Manager) (node : Node) : list (Use * Z) :=
  uses_of m node AsInput (get_input_tensors node)
  ++ uses_of m node AsOutput (get_output_tensors node).

Definition scan (m : Manager) : list (Use * Z) := sorted_nodes m ≫= scan_node m.

(** The position of the first appearance of [k] as an input, or as an
    output, in a list of appearances. *)
Definition first_use {K : Type} `{EqDecision K} (u : Use) (k : K) (evs : list (Use * K))
  : option nat :=
  fst <$> list_find (λ e, e = (u, k)) evs.

(** [k] appears as an input, and not as an output before that. *)
Definition input_first {K : Type} `{EqDecision K} (k : K) (evs : list (Use * K)) : Prop :=
  match first_use AsInput k evs, first_use AsOutput k evs with
  | Some i, Some j => (i < j)%nat
  | Some _, None => True
  | None, _ => False
  end.

#[global] Instance input_first_dec {K : Type} `{EqDecision K} (k : K) (evs : list (Use * K)) :
  Decision (input_first k evs).
Proof. unfold input_first. repeat case_match; apply _. Defined.

(** The second pass on the appearances alone. *)
Definition classify_use (st : gset Z * gset Z) (e : Use * Z) : gset Z * gset Z :=
  match e.1 with
  | AsInput => if bool_decide (e.2 ∉ st.2) then ({[e.2]} ∪ st.1, st.2) else st
  | AsOutput => (st.1, {[e.2]} ∪ st.2)
  end.

(** The attributes the second pass reads. *)
Definition same_bindings (m m' : Manager) : Prop :=
  tensors_mapping m' = tensors_mapping m
  ∧ dependency_permanent m' = dependency_permanent m
  ∧ sorted_nodes m' = sorted_nodes m.

(** Every tracked tensor of [ts] has a binding for [node]. *)
Definition all_bound (m : Manager) (node : Node) (ts : list (string * list Z * list Z)) : Prop :=
  ∀ t, t ∈ ts → tracked m t.1.2 = true → is_Some (slot_of m node t.1.2).

(** The state a method leaves, whether it returns or the process stops. *)
Definition final_state (r : Result Manager) : Manager :=
  match r with
  | Ret m => m
  | Abort _ m => m
  end.

(** What a replay pass never assigns to. *)
Definition replay_frame (m m' : Manager) : Prop :=
  tensors_mapping m' = tensors_mapping m
  ∧ dependency_permanent m' = dependency_permanent m
  ∧ sorted_nodes m' = sorted_nodes m
  ∧ instantiate m' = instantiate m
  ∧ unchangeable_intermediate_tensors m' = unchangeable_intermediate_tensors m
  ∧ funcs m' = funcs m
  ∧ tensor_registry_permanent m' = tensor_registry_permanent m.

(** Unchangeable slots keep their entry. *)
Definition unchangeable_kept (m m' : Manager) : Prop :=
  replay_frame m m'
  ∧ ∀ slot, slot ∈ unchangeable_intermediate_tensors m →
            tensor_registry m' !! slot = tensor_registry m !! slot.

(** What the loop of [_dfs_traverse] does with one child. *)
Definition dfs_visit (m : Manager) (child : Node) : Result Manager :=
  if name_skipped child then Ret m
  else if is_qualified child then visit_qualified child m
  else _dfs_traverse child m.

(** The nodes the traversal records, in the order it meets them. *)
Fixpoint replay_nodes (root : Node) : list Node :=
  (fix loop (cs : list Node) : list Node :=
     match cs with
     | [] => []
     | child :: cs' =>
         (if name_skipped child then []
          else if is_qualified child then [child]
          else replay_nodes child) ++ loop cs'
     end) (node_children root).

Definition replay_nodes_of (child : Node) : list Node :=
  if name_skipped child then []
  else if is_qualified child then [child]
  else replay_nodes child.

(** The nodes the traversal meets: the children of the root, and the
    children of every node met that is neither skipped nor qualified. *)
Inductive Encountered (root : Node) : Node → Prop :=
| encountered_child c : c ∈ node_children root → Encountered root c
| encountered_below n c :
    Encountered root n → name_skipped n = false → is_qualified n = false →
    c ∈ node_children n → Encountered root c.

(** The nodes met if every node that is not qualified were descended into. *)
Inductive EncounteredAsClaimed (root : Node) : Node → Prop :=
| claimed_child c : c ∈ node_children root → EncounteredAsClaimed root c
| claimed_below n c :
    EncounteredAsClaimed root n → is_qualified n = false →
    c ∈ node_children n → EncounteredAsClaimed root c.

Definition ascending (l : list Node) : Prop :=
  ∀ i j a b, (i < j)%nat → l !! i = Some a → l !! j = Some b → node_id a ≤ node_id b.

(** [build_func] on the nodes of a list, in order, with what it returned
    for each. *)
Fixpoint build_funcs (nodes : list Node) (m : Manager)
  : option (list (Node * (option Callable * nat)) * Manager) :=
  match nodes with
  | [] => Some ([], m)
  | node :: rest =>
      '(fc, m1) ← build_func node m;
      '(fcs, m2) ← build_funcs rest m1;
      Some ((node, fc) :: fcs, m2)
  end.

(** A sequence in which the embedding forward and backward nodes are
    nested like brackets, with the pairs of matching nodes; any other node
    may stand anywhere. *)
Inductive Nested : list Node → list (Node * Node) → Prop :=
| nested_nil : Nested [] []
| nested_other n w ps :
    is_fbgemm_forward n = false → is_fbgemm_backward n = false →
    Nested w ps → Nested (n :: w) ps
| nested_pair f b w1 w2 ps1 ps2 :
    is_fbgemm_forward f = true →
    is_fbgemm_forward b = false → is_fbgemm_backward b = true →
    Nested w1 ps1 → Nested w2 ps2 →
    Nested (f :: w1 ++ b :: w2) ((f, b) :: ps1 ++ ps2).

(** The builders the node needs do not raise. *)
Definition buildable (n : Node) : Prop :=
  if is_fbgemm_forward n then is_Some (build_fbgemm_func n)
  else if is_fbgemm_backward n then True
  else is_Some (build_torchscript_func n).

(** What the loop of [_bfs_traverse] does with one child of [node]. *)
Definition bfs_visit (node : Node) (chain : list Node) (m : Manager) (child : Node)
  : Result Manager :=
  if name_skipped child then Ret m
  else if is_backward_aten child || has_backward_parent child then Ret m
  else
    m1 ← analyze_child child (node :: chain) m;
    _bfs_traverse child (node :: chain) m1.

(** The nodes the traversal gets to, each with the ancestors it was reached
    through (parent first): the children of a node it got to, unless
    skipped by name or part of the backward pass. *)
Inductive Reached (root : Node) : Node → list Node → Prop :=
| reached_child c :
    c ∈ node_children root → name_skipped c = false →
    is_backward_aten c || has_backward_parent c = false →
    Reached root c [root]
| reached_below n chain c :
    Reached root n chain →
    c ∈ node_children n → name_skipped c = false →
    is_backward_aten c || has_backward_parent c = false →
    Reached root c (n :: chain).

Definition aborts {A : Type} (r : Result A) : Prop := ∃ why m, r = Abort why m.

(** The condition under which [allocate_tensors] materializes an input:
    the node is one of the two whose inputs are always materialized, or the
    slot is in the instantiate set. *)
Definition materialized (node : Node) (m : Manager) (slot : Z) : bool :=
  name_is node "aten::embedding_bag"
  || name_is node "fbgemm::split_embedding_codegen_lookup_sgd_function"
  || bool_decide (slot ∈ instantiate m).

(** What allocation never assigns to. *)
Definition allocation_frame (m m' : Manager) : Prop :=
  tensors_mapping m' = tensors_mapping m
  ∧ dependency_permanent m' = dependency_permanent m
  ∧ sorted_nodes m' = sorted_nodes m
  ∧ instantiate m' = instantiate m
  ∧ original_unique_tensors m' = original_unique_tensors m
  ∧ tensor_shapes m' = tensor_shapes m
  ∧ tensor_registry m' = tensor_registry m
  ∧ dom (tensor_registry_permanent m) ⊆ dom (tensor_registry_permanent m').

(** An attribute, or any function of the manager, that an assignment to
    another attribute leaves alone. *)
Definition preserved_by {X V : Type} (set : V → Manager → Manager) (f : Manager → X) : Prop :=
  ∀ v m, f (set v m) = f m.

(** The attributes [extract_subgraph] assigns to. *)
Definition untouched_by_extraction {X : Type} (f : Manager → X) : Prop :=
  preserved_by set_sorted_nodes f ∧ preserved_by set_top_tensors f
  ∧ preserved_by set_dependency_permanent f ∧ preserved_by set_fbgemm_backward_ops f
  ∧ preserved_by set_funcs f ∧ preserved_by set_stdout f.

(** The attributes [analyze_subgraph] assigns to. *)
Definition untouched_by_analysis {X : Type} (f : Manager → X) : Prop :=
  preserved_by set_additional_tensors f ∧ preserved_by set_additional_tensors_size f
  ∧ preserved_by set_stdout f.

(** No slot has been made for the identifier. *)
Definition no_slot (m : Manager) (t_id : list Z) : Prop :=
  (∀ n, tensors_mapping m !! (n, t_id) = None)
  ∧ tensor_shapes m !! t_id = None
  ∧ t_id ∉ original_unique_tensors m.

(** The attributes the resolver assigns to. *)
Definition untouched_by_resolver {X : Type} (f : Manager → X) : Prop :=
  preserved_by set_original_unique_tensors f ∧ preserved_by set_replay_unique_tensor_num f
  ∧ preserved_by set_tensors_mapping f ∧ preserved_by set_replay_tensors_shapes f
  ∧ preserved_by set_tensor_shapes f ∧ preserved_by set_instantiate f.

(** Every input of a recorded node has been counted, and every count that
    is stored is positive. *)
Definition dependency_inv (m : Manager) : Prop :=
  (∀ node t, node ∈ sorted_nodes m → t ∈ tensor_ids (get_input_tensors node) →
             is_Some (dependency_permanent m !! t))
  ∧ (∀ t c, dependency_permanent m !! t = Some c → (0 < c)%nat).

(** Every slot bound in the permanent registry is the slot of a tracked
    identifier. *)
Definition bound_tracked (m : Manager) : Prop :=
  ∀ s, s ∈ dom (tensor_registry_permanent m) →
       ∃ n t, tracked m t = true ∧ tensors_mapping m !! (n, t) = Some s.

(** [self.dependency_permanent[t_id]] read without creating the entry. *)
Definition dependency_count (m : Manager) (t_id : list Z) : nat :=
  default 0%nat (dependency_permanent m !! t_id).

(** The appearances of the tracked tensors of a list of tensors of a node:
    how each is used, and the identifier and the shape it is listed with. *)
Definition appearances_of (m : Manager) (u : Use) (ts : list (string * list Z * list Z))
  : list (Use * (list Z * list Z)) :=
  (λ t, (u, (t.1.2, t.2))) <$> filter (λ t, tracked m t.1.2 = true) ts.

(** The appearances in the order of the scan: node after node along the
    replay list, the inputs of a node before its outputs. *)
Definition node_appearances (m : Manager) (node : Node) : list (Use * (list Z * list Z)) :=
  appearances_of m AsInput (get_input_tensors node)
  ++ appearances_of m AsOutput (get_output_tensors node).

Definition appearances (m : Manager) : list (Use * (list Z * list Z)) :=
  sorted_nodes m ≫= node_appearances m.

(** The slot of an (identifier, shape) pair: the pairs are numbered from 1
    in the order of their first appearance. *)
Definition slot_number (pairs : list (list Z * list Z)) (p : list Z * list Z) : option Z :=
  (λ r, Z.of_nat (size (list_to_set (C := gset (list Z * list Z)) (take r.1 pairs))) + 1)
    <$> list_find (λ q, q = p) pairs.

(** Every key of [tensors_mapping], a node id and an identifier, comes with
    a single shape along the replay list.  With node ids that are distinct
    it says that no node carries a tracked identifier with two different
    shapes: the assumption the source states for [tensors_mapping]. *)
Definition one_shape_per_binding (m : Manager) : Prop :=
  let calls := resolver_calls m (sorted_nodes m) in
  Forall (λ c1, Forall (λ c2, c1.1 = c2.1 → c1.2 = c2.2) calls) calls.

#[global] Instance one_shape_per_binding_dec (m : Manager) : Decision (one_shape_per_binding m).
Proof. unfold one_shape_per_binding. apply _. Defined.

Definition pair_of (c : Z * list Z * list Z) : list Z * list Z := (c.1.2, c.2).

(** A value [reset_registry] can place on the device: [None], or a tensor. *)
Definition resettable (v : Value) : Prop :=
  match v with
  | VNone | VTensor _ => True
  | _ => False
  end.

#[global] Instance resettable_dec (v : Value) : Decision (resettable v).
Proof. destruct v; apply _. Defined.




End Specifications.

(** ** A concrete helper module and sample traces

    An implementation of the helpers in the manner of the loader's
    accessors, used to run the methods on concrete graphs. *)

Module Sample.

(** The tensors among typed values: the entries whose type starts with
    [Tensor] and whose value is an identifier. *)
Fixpoint tensors_of (types : list string) (items : list Item) (shapes : list (list Z))
  : list (string * list Z * list Z) :=
  match types, items, shapes with
  | ty :: types', it :: items', sh :: shapes' =>
      match it with
      | ItemInts t =>
          if starts_with "Tensor" ty then (ty, t, sh) :: tensors_of types' items' shapes'
          else tensors_of types' items' shapes'
      | _ => tensors_of types' items' shapes'
      end
  | _, _, _ => []
  end.

Definition type_at (n : Node) (idx : nat) : string := default ""%string (node_input_types n !! idx).

Definition ones (len : nat) : list float := replicate len 1%float.

Definition cpu_tensor_of (d : string) (shape : list Z) : Tensor :=
  {| is_cuda := false; dtype := d; tensor_shape := shape;
     data := ones (Z.to_nat (foldl Z.mul 1 shape)) |}.

(** An operator that returns one fresh tensor whatever it is given. *)
Definition op_one : Callable := mkCallable (λ _, Some (VTensor (cpu_tensor_of "float32" [1]))).

(** An operator that returns two tensors. *)
Definition op_two : Callable :=
  mkCallable (λ _, Some (VTuple [VTensor (cpu_tensor_of "float32" [1]);
                                 VTensor (cpu_tensor_of "float32" [2])])).

(** An operator that raises. *)
Definition op_raise : Callable := mkCallable (λ _, None).

(** An operator that returns nothing. *)
Definition op_none : Callable := mkCallable (λ _, Some VNone).

(** The forward and backward entries built for an embedding node: each is
    tagged, through the length of the tensor it returns, with the node it
    was built for: twice its id for the forward entry, and one more for the
    backward entry. *)
Definition fbgemm_entry (tag : Z) : Callable :=
  mkCallable (λ _, Some (VTensor (cpu_tensor_of "float32" [tag]))).

Definition is_fbgemm_forward_name (n : Node) : bool :=
  str_in "fbgemm::split_embedding_codegen_lookup_" (node_name n).

#[local] Instance utils : EgReplayUtils := {|
  is_qualified n :=
    bool_decide (node_type n = OPERATOR) && negb (str_in "Optimizer.step" (node_name n));
  is_backward_aten n :=
    starts_with "aten::" (node_name n) && str_in "autograd::" (node_name n);
  has_backward_parent n := str_in "autograd::engine::evaluate_function: " (node_name n);
  get_input_tensors n := tensors_of (node_input_types n) (node_inputs n) (node_input_shapes n);
  get_output_tensors n :=
    tensors_of (node_output_types n) (node_outputs n) (node_output_shapes n);
  is_fbgemm_forward := is_fbgemm_forward_name;
  is_fbgemm_backward n := str_in "CppNode<SplitLookupFunction_" (node_name n);
  is_fbgemm_forward_unweighted n := false;
  fbgemm_input_args_indices n := seq 0 (length (node_inputs n));
  generate_fbgemm_tensors n :=
    (λ sh, VTensor (cpu_tensor_of "int64" sh)) <$> node_input_shapes n;
  build_fbgemm_func n :=
    Some ({| forward := fbgemm_entry (2 * node_id n);
             backward := fbgemm_entry (2 * node_id n + 1) |},
          1%nat);
  build_torchscript_func n :=
    if String.eqb (node_name n) "aten::unknown" then Some (None, 0%nat)
    else if String.eqb (node_name n) "aten::broken" then Some (Some op_raise, 1%nat)
    else match length (node_output_types n) with
         | O => Some (Some op_none, 0%nat)
         | 1%nat => Some (Some op_one, 1%nat)
         | k => Some (Some op_two, k)
         end;
  is_tensor n idx := starts_with "Tensor" (type_at n idx);
  is_tensor_list n idx := starts_with "GenericList[Tensor" (type_at n idx);
  TORCH_DTYPES_RNG :=
    {[ "float"%string := ("float32"%string, cpu_tensor_of "float32");
       "long"%string := ("int64"%string, cpu_tensor_of "int64") ]};
  TORCH_DTYPES_BYTES := {[ "float"%string := 4; "long"%string := 8 ]} |}.

(** An operator node with the given tensor inputs and outputs, each a
    (type, identifier, shape) triple. *)
Definition op (id : Z) (name : string) (ins outs : list (string * list Z * list Z))
    (children : list Node) : Node :=
  {| node_id := id; node_name := name; node_type := OPERATOR;
     node_inputs := (λ p, ItemInts p.1.2) <$> ins;
     node_input_types := (λ p, p.1.1) <$> ins;
     node_input_shapes := snd <$> ins;
     node_outputs := (λ p, ItemInts p.1.2) <$> outs;
     node_output_types := (λ p, p.1.1) <$> outs;
     node_output_shapes := snd <$> outs;
     node_children := children |}.

(** A grouping node. *)
Definition label (id : Z) (name : string) (children : list Node) : Node :=
  {| node_id := id; node_name := name; node_type := LABEL;
     node_inputs := []; node_input_types := []; node_input_shapes := [];
     node_outputs := []; node_output_types := []; node_output_shapes := [];
     node_children := children |}.

Definition float_tensor (t_id shape : list Z) : string * list Z * list Z :=
  ("Tensor(float)"%string, t_id, shape).

Definition long_tensor (t_id shape : list Z) : string * list Z * list Z :=
  ("Tensor(long)"%string, t_id, shape).

Definition process : string := "[pytorch|profiler|execution_graph|process]".

(** The state a run is in after a phase, whether the phase returned or not. *)
Definition state_of (r : Result Manager) : Manager :=
  match r with
  | Ret m => m
  | Abort _ m => m
  end.

(** Tensor identifiers. *)
Definition T1 : list Z := [1; 10; 0; 4; 4].
Definition T2 : list Z := [2; 20; 0; 4; 4].
Definition T3 : list Z := [3; 30; 0; 2; 4].
Definition T4 : list Z := [4; 40; 0; 8; 4].
Definition T5 : list Z := [5; 50; 0; 3; 2].

(** Scenario 1 of the specification: A produces T1 of shape [4]; B consumes
    T1 and produces T2 of shape [4]. *)
Definition nodeA : Node := op 2 "aten::ones" [] [float_tensor T1 [4]] [].
Definition nodeB : Node := op 3 "aten::relu" [float_tensor T1 [4]] [float_tensor T2 [4]] [].
Definition scenario1 : Node := label 1 process [nodeA; nodeB].

(** Scenario 2: later C produces T1 with shape [8], and D consumes it
    together with T3, which no node produces. *)
Definition nodeC : Node := op 4 "aten::zeros" [] [float_tensor T1 [8]] [].
Definition nodeD : Node :=
  op 5 "aten::add" [float_tensor T1 [8]; float_tensor T3 [2]] [float_tensor T4 [8]] [].
Definition scenario2 : Node := label 1 process [nodeA; nodeB; nodeC; nodeD].

(** The manager of scenario 2 when [analyze_tensors] is called. *)
Definition scenario2_extracted : Manager :=
  state_of (m ← extract_subgraph scenario2 init_manager; analyze_subgraph scenario2 m).

(** The manager of scenario 2 when the replay starts. *)
Definition scenario2_ready : Manager := state_of (preprocess_graph scenario2 init_manager).

(** A data-loading group with an operator inside, beside an operator. *)
Definition loaded : Node := op 3 "aten::relu" [float_tensor T1 [4]] [float_tensor T2 [4]] [].
Definition loader : Node := label 2 "enumerate(DataLoader)#_SingleProcessDataLoaderIter" [loaded].
Definition adder : Node := op 4 "aten::add" [float_tensor T1 [4]] [float_tensor T2 [4]] [].
Definition loader_tree : Node := label 1 process [loader; adder].
Definition loader_extracted : Manager := state_of (extract_subgraph loader_tree init_manager).

(** Two embedding forward nodes and their backward nodes, nested. *)
Definition F1 : Node :=
  op 2 "fbgemm::split_embedding_codegen_lookup_sgd_function" [long_tensor T1 [4]]
    [float_tensor T2 [4]] [].
Definition F2 : Node :=
  op 3 "fbgemm::split_embedding_codegen_lookup_sgd_function" [long_tensor T3 [2]]
    [float_tensor T4 [8]] [].
Definition B2 : Node := op 8 "CppNode<SplitLookupFunction_sgd_Op>" [] [] [].
Definition B1 : Node := op 9 "CppNode<SplitLookupFunction_sgd_Op>" [] [] [].

(** An operator with an undefined optional tensor among its inputs, and an
    embedding forward node with an input of a type the table does not list. *)
Definition with_null : Node :=
  op 2 "aten::native_layer_norm"
    [float_tensor T1 [2]; ("Tensor(nullptr (uninitialized))"%string, T4, [])]
    [float_tensor T2 [2]] [].
Definition with_half : Node :=
  op 3 "fbgemm::split_embedding_codegen_lookup_sgd_function"
    [("Tensor(c10::Half)"%string, T5, [3])] [float_tensor T3 [2]] [].
Definition null_graph : Node := label 1 process [with_null; with_half].
Definition null_type : string := "Tensor(nullptr (uninitialized))".
Definition half_type : string := "Tensor(c10::Half)".

(** The manager of that graph when [allocate_tensors] is called. *)
Definition null_analyzed : Manager :=
  state_of (m1 ← extract_subgraph null_graph init_manager;
            m2 ← analyze_subgraph null_graph m1;
            m3 ← analyze_tensors m2;
            Ret (print (tensor_count m3) m3)).

(** The manager of that graph when the replay starts, and after two passes. *)
Definition null_ready : Manager := state_of (preprocess_graph null_graph init_manager).
Definition null_replayed : Manager := state_of (run_passes 2 null_ready).

(** An operator whose invocation raises, followed by another operator. *)
Definition broken : Node := op 2 "aten::broken" [float_tensor T1 [4]] [float_tensor T2 [4]] [].
Definition broken_graph : Node := label 1 process [broken; adder].
Definition broken_ready : Manager := state_of (preprocess_graph broken_graph init_manager).

(** An [aten::embedding_bag] node with 10 indices and 2 offsets; its inputs
    are the weights, the indices and the offsets. *)
Definition W : list Z := [6; 60; 0; 15; 4].
Definition I1 : list Z := [7; 70; 0; 10; 8].
Definition OFF : list Z := [9; 90; 0; 2; 8].
Definition bag : Node :=
  op 2 "aten::embedding_bag" [float_tensor W [5; 3]; long_tensor I1 [10]; long_tensor OFF [2]]
    [float_tensor T2 [2; 3]] [].
Definition bag_graph : Node := label 1 process [bag].

(** The manager of that graph when [allocate_tensors] is called, when the
    loop over the inputs of the node is over, and when the run ends. *)
Definition bag_analyzed : Manager :=
  state_of (m1 ← extract_subgraph bag_graph init_manager;
            m2 ← analyze_subgraph bag_graph m1;
            m3 ← analyze_tensors m2;
            Ret (print (tensor_count m3) m3)).
Definition bag_filled : Manager :=
  state_of (for_each (allocate_input bag) (enumerate (get_input_tensors bag)) bag_analyzed).
Definition bag_stopped : Manager := state_of (preprocess_graph bag_graph init_manager).

(** An operator that produces the tensor an embedding forward node of the
    [sgd] kind consumes. *)
Definition producer : Node :=
  op 2 "aten::randint" [long_tensor T3 [2]] [long_tensor T1 [4]] [].
Definition lookup : Node :=
  op 3 "fbgemm::split_embedding_codegen_lookup_sgd_function" [long_tensor T1 [4]]
    [float_tensor T2 [4]] [].
Definition lookup_graph : Node := label 1 process [producer; lookup].
Definition lookup_ready : Manager := state_of (preprocess_graph lookup_graph init_manager).
Definition lookup_replayed : Manager := state_of (run_passes 2 lookup_ready).

(** An operator that changes the shape of its tensor in place, followed by
    a consumer of the tensor in its new shape. *)
Definition unsqueeze : Node :=
  op 2 "aten::unsqueeze_" [float_tensor T1 [4]] [float_tensor T1 [4; 1]] [].
Definition reader : Node :=
  op 3 "aten::relu" [float_tensor T1 [4; 1]] [float_tensor T2 [4; 1]] [].
Definition reshaped : Node := label 1 process [unsqueeze; reader].
Definition reshaped_extracted : Manager :=
  state_of (m ← extract_subgraph reshaped init_manager; analyze_subgraph reshaped m).
Definition reshaped_analyzed : Manager := state_of (analyze_tensors reshaped_extracted).

(** An operator group that is not replayed as a whole, at the top of the
    trace, with an operator inside. *)
Definition stepped : Node := op 3 "aten::add_" [float_tensor T1 [4]] [float_tensor T1 [4]] [].
Definition optimizer : Node := op 2 "Optimizer.step#SGD.step" [] [] [stepped].
Definition optimizer_tree : Node := label 1 process [optimizer].
Definition optimizer_extracted : Manager :=
  state_of (extract_subgraph optimizer_tree init_manager).





End Sample.

(** * Properties *)

Section Properties.
Context `{EgReplayUtils}.

(** ** The tensor identity resolver *)

Lemma shapes_of_fresh m t : resolver_fresh m → shapes_of m t = ∅.
Proof. intros (_ & Hs & _). unfold shapes_of. by rewrite Hs, lookup_empty. Qed.

Lemma resolver_fresh_inv m : resolver_fresh m → resolver_inv m.
Proof.
  intros Hf. pose proof (λ t, shapes_of_fresh m t Hf) as He.
  destruct Hf as (_ & _ & Hm & Hn).
  split; intros *; rewrite ?He; try set_solver.
  - lia.
  - rewrite Hm, lookup_empty. done.
Qed.

Lemma find_shape_Some (sh : list Z) (seen : gset (Z * list Z)) (s : Z) :
  find_shape sh seen = Some s → (s, sh) ∈ seen.
Proof.
  unfold find_shape. destruct (list_find _ _) as [[i [s' sh']]|] eqn:E; [|done].
  simpl. intros [= <-]. apply list_find_Some in E as (Hl & Hp & _).
  simpl in Hp. subst sh'. apply elem_of_elements. eapply list_elem_of_lookup_2, Hl.
Qed.

Lemma find_shape_None (sh : list Z) (seen : gset (Z * list Z)) :
  find_shape sh seen = None ↔ ∀ s, (s, sh) ∉ seen.
Proof.
  unfold find_shape. rewrite fmap_None, list_find_None, Forall_forall. split.
  - intros Hn s Hs. apply (Hn (s, sh)); [|done]. by apply elem_of_elements.
  - intros Hn [s sh'] Hs%elem_of_elements Hp. simpl in Hp. subst. by apply (Hn s).
Qed.

Lemma shapes_of_insert m m0 t X t' :
  tensor_shapes m = <[t := X]> (tensor_shapes m0) →
  shapes_of m t' = if decide (t' = t) then X else shapes_of m0 t'.
Proof.
  intros E. unfold shapes_of. rewrite E. case_decide as Ht.
  - subst. by rewrite lookup_insert_eq.
  - by rewrite lookup_insert_ne.
Qed.

Lemma new_replay_tensor_spec n t sh m :
  let m' := new_replay_tensor n t sh m in
  let num := replay_unique_tensor_num m + 1 in
  tensors_mapping m' = <[(n, t) := num]> (tensors_mapping m)
  ∧ (∀ t', shapes_of m' t' =
           if decide (t' = t) then {[ (num, sh) ]} ∪ shapes_of m t else shapes_of m t')
  ∧ replay_unique_tensor_num m' = num
  ∧ replay_tensors_shapes m' = <[num := sh]> (replay_tensors_shapes m)
  ∧ original_unique_tensors m' = original_unique_tensors m.
Proof.
  repeat split. intros t'.
  by rewrite (shapes_of_insert _ m t ({[ (replay_unique_tensor_num m + 1, sh) ]} ∪ shapes_of m t)).
Qed.

(** What one call of [add_unique_tensor] does: it reuses the slot recorded
    for this identifier and shape, or it mints the next one. *)
Lemma add_unique_tensor_cases n t sh m :
  resolver_inv m →
  let m' := add_unique_tensor n t sh m in
  (∃ s, (s, sh) ∈ shapes_of m t
        ∧ tensors_mapping m' = <[(n, t) := s]> (tensors_mapping m)
        ∧ (∀ t', shapes_of m' t' = shapes_of m t')
        ∧ replay_unique_tensor_num m' = replay_unique_tensor_num m
        ∧ replay_tensors_shapes m' = replay_tensors_shapes m
        ∧ original_unique_tensors m' = original_unique_tensors m)
  ∨ ((∀ s, (s, sh) ∉ shapes_of m t)
     ∧ tensors_mapping m' = <[(n, t) := replay_unique_tensor_num m + 1]> (tensors_mapping m)
     ∧ (∀ t', shapes_of m' t' =
              if decide (t' = t)
              then {[ (replay_unique_tensor_num m + 1, sh) ]} ∪ shapes_of m t
              else shapes_of m t')
     ∧ replay_unique_tensor_num m' = replay_unique_tensor_num m + 1
     ∧ replay_tensors_shapes m' =
         <[replay_unique_tensor_num m + 1 := sh]> (replay_tensors_shapes m)
     ∧ original_unique_tensors m' = {[t]} ∪ original_unique_tensors m).
Proof.
  intros Hinv m'. subst m'. unfold add_unique_tensor. case_bool_decide as Hseen.
  - right. pose proof (inv_seen m Hinv t Hseen) as He.
    split; [intros s; rewrite He; set_solver|].
    set (m0 := set_original_unique_tensors _ m).
    destruct (new_replay_tensor_spec n t sh m0) as (E1 & E2 & E3 & E4 & E5).
    repeat split; try done.
  - set (m1 := set_tensor_shapes (<[t:=shapes_of m t]> (tensor_shapes m)) m).
    assert (Hm1 : ∀ t', shapes_of m1 t' = shapes_of m t').
    { intros t'. rewrite (shapes_of_insert m1 m t (shapes_of m t)) by done.
      case_decide; by subst. }
    rewrite Hm1. destruct (find_shape sh (shapes_of m t)) as [s|] eqn:E.
    + left. exists s. apply find_shape_Some in E. repeat split; try done.
    + right. rewrite find_shape_None in E. split; [done|].
      destruct (new_replay_tensor_spec n t sh m1) as (E1 & E2 & E3 & E4 & E5).
      repeat split; try done.
      * intros t'. rewrite E2, !Hm1. done.
      * rewrite E5. simpl. set_solver.
Qed.

Lemma add_unique_tensor_inv n t sh m :
  resolver_inv m → resolver_inv (add_unique_tensor n t sh m).
Proof.
  intros Hinv.
  destruct (add_unique_tensor_cases n t sh m Hinv)
    as [(s & Hs & Em & Es & En & Er & Eo)|(Hnew & Em & Es & En & Er & Eo)].
  - destruct Hinv as [I1 I2 I3 I4 I5 I6 I7].
    split; intros *; rewrite ?Es, ?En, ?Er, ?Eo, ?Em; eauto.
    destruct (decide ((n, t) = (n0, t0))) as [[= <- <-]|Hne].
    + rewrite lookup_insert_eq. intros [= <-]. eauto.
    + rewrite lookup_insert_ne by done. eauto.
  - set (s0 := replay_unique_tensor_num m + 1) in *.
    assert (Hold : ∀ t' s sh', (s, sh') ∈ shapes_of m t' → s ≠ s0).
    { intros t' s sh' Hin ->. apply (inv_range m Hinv) in Hin. lia. }
    assert (Hin : ∀ t' s sh', (s, sh') ∈ shapes_of (add_unique_tensor n t sh m) t' →
                  (t' = t ∧ s = s0 ∧ sh' = sh) ∨ (s, sh') ∈ shapes_of m t').
    { intros t' s sh'. rewrite Es. case_decide; [|by right].
      rewrite elem_of_union, elem_of_singleton. intros [[= -> ->]|?]; subst; auto. }
    assert (Hmono : ∀ t' s sh', (s, sh') ∈ shapes_of m t' →
                  (s, sh') ∈ shapes_of (add_unique_tensor n t sh m) t').
    { intros t' s sh' Hi. rewrite Es. case_decide; subst; set_solver. }
    assert (Hfresh : (s0, sh) ∈ shapes_of (add_unique_tensor n t sh m) t).
    { rewrite Es. rewrite decide_True by done. set_solver. }
    pose proof (inv_num m Hinv) as Hnum.
    split.
    + intros t' s sh' [(-> & -> & ->)|Ho]%Hin; rewrite En; [lia|].
      apply (inv_range m Hinv) in Ho. lia.
    + intros t1 t2 s sh1 sh2 [(-> & -> & ->)|Ho1]%Hin [(-> & E & ->)|Ho2]%Hin; auto.
      * by apply Hold in Ho2.
      * subst. by apply Hold in Ho1.
      * eapply (inv_slot m Hinv); eauto.
    + intros t1 s s' sh1 [(-> & -> & ->)|Ho1]%Hin [(E & -> & E')|Ho2]%Hin; auto.
      * by apply Hnew in Ho2.
      * subst. by apply Hnew in Ho1.
      * eapply (inv_shape m Hinv); eauto.
    + intros t'. rewrite Eo, Es. intros Hni. rewrite decide_False by set_solver.
      apply (inv_seen m Hinv). set_solver.
    + rewrite En. lia.
    + intros n' t' s. rewrite Em. destruct (decide ((n, t) = (n', t'))) as [[= <- <-]|Hne].
      * rewrite lookup_insert_eq. intros [= <-]. eauto.
      * rewrite lookup_insert_ne by done. intros Hl.
        destruct (inv_bound m Hinv _ _ _ Hl) as [sh' Hsh]. eauto.
    + intros t' s sh' [(-> & -> & ->)|Ho]%Hin; rewrite Er.
      * by rewrite lookup_insert_eq.
      * rewrite lookup_insert_ne by (intros E; symmetry in E; by apply Hold in Ho).
        by apply (inv_shapes m Hinv) in Ho.
Qed.

(** A call binds its key, and the slot it binds is the one recorded for the
    identifier and the shape. *)
Lemma add_unique_tensor_binds n t sh m :
  resolver_inv m →
  ∃ s, tensors_mapping (add_unique_tensor n t sh m) !! (n, t) = Some s
       ∧ (s, sh) ∈ shapes_of (add_unique_tensor n t sh m) t.
Proof.
  intros Hinv.
  destruct (add_unique_tensor_cases n t sh m Hinv)
    as [(s & Hs & Em & Es & _)|(Hnew & Em & Es & _)].
  - exists s. rewrite Em, lookup_insert_eq, Es. done.
  - eexists. rewrite Em, lookup_insert_eq, Es, decide_True by done. split; [done|set_solver].
Qed.

Lemma add_unique_tensor_mono n t sh m t' s sh' :
  resolver_inv m →
  (s, sh') ∈ shapes_of m t' → (s, sh') ∈ shapes_of (add_unique_tensor n t sh m) t'.
Proof.
  intros Hinv Hin.
  destruct (add_unique_tensor_cases n t sh m Hinv)
    as [(s0 & Hs & Em & Es & _)|(Hnew & Em & Es & _)]; rewrite Es; [done|].
  case_decide; subst; set_solver.
Qed.

(** [add_unique_tensor] touches the resolver's attributes only. *)
Lemma add_unique_tensor_frame n t sh m :
  let m' := add_unique_tensor n t sh m in
  dependency_permanent m' = dependency_permanent m
  ∧ sorted_nodes m' = sorted_nodes m
  ∧ instantiate m' = instantiate m
  ∧ unchangeable_intermediate_tensors m' = unchangeable_intermediate_tensors m
  ∧ tensor_registry_permanent m' = tensor_registry_permanent m
  ∧ tensor_registry m' = tensor_registry m
  ∧ funcs m' = funcs m
  ∧ stdout m' = stdout m.
Proof.
  unfold add_unique_tensor, new_replay_tensor. simpl.
  case_bool_decide; [done|]. by case_match.
Qed.

Lemma tracked_add_unique_tensor n t sh m t' :
  tracked (add_unique_tensor n t sh m) t' = tracked m t'.
Proof.
  unfold tracked. by rewrite (proj1 (add_unique_tensor_frame n t sh m)).
Qed.

Lemma foldl_assign_tensor node ts m :
  foldl (assign_tensor node) m ts
  = foldl resolve m ((λ t, (node_id node, t.1.2, t.2)) <$> filter (λ t, tracked m t.1.2 = true) ts)
  ∧ ∀ t', tracked (foldl (assign_tensor node) m ts) t' = tracked m t'.
Proof.
  revert m. induction ts as [|t ts IH]; intros m; [done|].
  rewrite filter_cons. cbn [foldl].
  assert (Ha : assign_tensor node m t
               = if tracked m t.1.2 then add_unique_tensor (node_id node) t.1.2 t.2 m else m)
    by done.
  rewrite Ha. destruct (tracked m t.1.2) eqn:E.
  - rewrite decide_True by done. rewrite fmap_cons. cbn [foldl].
    destruct (IH (add_unique_tensor (node_id node) t.1.2 t.2 m)) as [IH1 IH2].
    split.
    + rewrite IH1. unfold resolve at 2. cbn [fst snd]. f_equal. f_equal.
      apply list_filter_iff. intros x. by rewrite tracked_add_unique_tensor.
    + intros t'. by rewrite IH2, tracked_add_unique_tensor.
  - rewrite decide_False by done. apply IH.
Qed.

Lemma assign_node_calls m node :
  assign_node m node = foldl resolve m (resolver_calls_of m node)
  ∧ ∀ t', tracked (assign_node m node) t' = tracked m t'.
Proof.
  unfold assign_node, resolver_calls_of.
  destruct (foldl_assign_tensor node (get_input_tensors node) m) as [E1 T1].
  destruct (foldl_assign_tensor node (get_output_tensors node)
              (foldl (assign_tensor node) m (get_input_tensors node))) as [E2 T2].
  split.
  - rewrite E2.
    rewrite (list_filter_iff _ (λ t, tracked m t.1.2 = true) (get_output_tensors node))
      by (intros x; by rewrite T1).
    by rewrite E1, filter_app, fmap_app, foldl_app.
  - intros t'. by rewrite T2, T1.
Qed.

Lemma resolver_calls_ext m m' nodes :
  (∀ t, tracked m' t = tracked m t) → resolver_calls m' nodes = resolver_calls m nodes.
Proof.
  intros Ht. unfold resolver_calls. induction nodes as [|x l IHl]; [done|].
  cbn [mbind list_bind]. rewrite IHl. f_equal. unfold resolver_calls_of. f_equal.
  apply list_filter_iff. intros t. by rewrite Ht.
Qed.

Lemma assign_pass_calls nodes m :
  foldl assign_node m nodes = foldl resolve m (resolver_calls m nodes)
  ∧ ∀ t', tracked (foldl assign_node m nodes) t' = tracked m t'.
Proof.
  revert m. induction nodes as [|node nodes IH]; intros m; [done|].
  cbn [foldl]. destruct (assign_node_calls m node) as [E1 T1].
  destruct (IH (assign_node m node)) as [E2 T2]. split.
  - rewrite E2, (resolver_calls_ext m _ nodes T1). unfold resolver_calls.
    cbn [mbind list_bind]. by rewrite foldl_app, <- E1.
  - intros t'. by rewrite T2, T1.
Qed.

Lemma resolve_pass_inv calls m :
  resolver_inv m → resolver_inv (foldl resolve m calls).
Proof.
  revert m. induction calls as [|c calls IH]; intros m Hinv; [done|].
  simpl. apply IH. by apply add_unique_tensor_inv.
Qed.

Lemma resolve_pass_mono calls m t s sh :
  resolver_inv m → (s, sh) ∈ shapes_of m t → (s, sh) ∈ shapes_of (foldl resolve m calls) t.
Proof.
  revert m. induction calls as [|c calls IH]; intros m Hinv Hin; [done|].
  simpl. apply IH; [by apply add_unique_tensor_inv|by apply add_unique_tensor_mono].
Qed.

Lemma assigned_slots_length m calls : length (assigned_slots m calls) = length calls.
Proof. revert m. induction calls; intros m; simpl; auto. Qed.

(** The slot read after call [j] is the one that call binds in the state the
    earlier calls leave. *)
Lemma assigned_slots_lookup calls m j n t sh :
  calls !! j = Some (n, t, sh) →
  assigned_slots m calls !! j
  = Some (tensors_mapping (add_unique_tensor n t sh (foldl resolve m (take j calls))) !! (n, t)).
Proof.
  revert m j. induction calls as [|c calls IH]; intros m [|j] Hj; try done.
  - simpl in Hj. injection Hj as ->. done.
  - simpl in *. by apply IH.
Qed.

(** Every call binds a slot, recorded in the final table for its identifier
    and shape. *)
Lemma assigned_slots_sound calls m i n t sh :
  resolver_inv m → calls !! i = Some (n, t, sh) →
  ∃ s, assigned_slots m calls !! i = Some (Some s)
       ∧ (s, sh) ∈ shapes_of (foldl resolve m calls) t.
Proof.
  revert m i. induction calls as [|c calls IH]; intros m [|i] Hinv Hi; try done.
  - simpl in Hi. injection Hi as ->. simpl.
    destruct (add_unique_tensor_binds n t sh m Hinv) as (s & Hs & Hin).
    exists s. split; [by f_equal|].
    apply resolve_pass_mono; [by apply add_unique_tensor_inv|done].
  - simpl in *. apply IH; [by apply add_unique_tensor_inv|done].
Qed.

(** Every pair of the final table was there at the start or was bound by a
    call. *)
Lemma assigned_slots_complete calls m t s sh :
  resolver_inv m → (s, sh) ∈ shapes_of (foldl resolve m calls) t →
  (s, sh) ∈ shapes_of m t
  ∨ ∃ i n, calls !! i = Some (n, t, sh) ∧ assigned_slots m calls !! i = Some (Some s).
Proof.
  revert m. induction calls as [|c calls IH]; intros m Hinv Hin; [by left|].
  simpl in Hin. destruct (IH _ (add_unique_tensor_inv c.1.1 c.1.2 c.2 m Hinv) Hin)
    as [Hnow|(i & n & Hi & Hs)].
  - destruct c as [[n t0] sh0]. unfold resolve in Hnow. simpl in Hnow.
    destruct (add_unique_tensor_cases n t0 sh0 m Hinv)
      as [(s0 & Hs & Em & Es & _)|(Hnew & Em & Es & _)]; rewrite Es in Hnow; [by left|].
    case_decide; [|by left]. subst t0.
    apply elem_of_union in Hnow as [[= -> ->]%elem_of_singleton|?]; [|by left].
    right. exists 0%nat, n. split; [done|]. simpl. unfold resolve. simpl.
    by rewrite Em, lookup_insert_eq.
  - right. exists (S i), n. done.
Qed.

Lemma assigned_slots_take m calls j :
  assigned_slots m (take j calls) = take j (assigned_slots m calls).
Proof.
  revert m j. induction calls as [|c calls IH]; intros m [|j]; simpl; try done.
  by rewrite IH.
Qed.

(** C1. The first pass of [analyze_tensors] runs [add_unique_tensor] on the
    tracked tensors of the nodes, in order.  Started on a fresh resolver,
    every call binds a slot; two calls bind the same slot exactly when they
    carry the same identifier and equal shapes; a call whose identifier and
    shape no earlier call carried binds the next value of the counter, which
    is above every slot bound before; and the table [tensor_shapes] holds
    exactly the (slot, shape) pairs the calls bound, per identifier. *)
Theorem resolver_one_slot_per_identifier_and_shape (m : Manager) (nodes : list Node) :
  resolver_fresh m →
  let calls := resolver_calls m nodes in
  let slots := assigned_slots m calls in
  foldl assign_node m nodes = foldl resolve m calls
  ∧ (∀ c, c ∈ calls → tracked m c.1.2 = true)
  ∧ (∀ i j n1 t1 sh1 n2 t2 sh2,
       calls !! i = Some (n1, t1, sh1) → calls !! j = Some (n2, t2, sh2) →
       ∃ s1 s2, slots !! i = Some (Some s1) ∧ slots !! j = Some (Some s2)
                ∧ (s1 = s2 ↔ t1 = t2 ∧ sh1 = sh2))
  ∧ (∀ j n t sh,
       calls !! j = Some (n, t, sh) →
       (∀ i n', (i < j)%nat → calls !! i ≠ Some (n', t, sh)) →
       slots !! j = Some (Some (replay_unique_tensor_num (foldl resolve m (take j calls)) + 1))
       ∧ ∀ i s', (i < j)%nat → slots !! i = Some (Some s') →
                 s' < replay_unique_tensor_num (foldl resolve m (take j calls)) + 1)
  ∧ (∀ t s sh,
       (s, sh) ∈ shapes_of (foldl assign_node m nodes) t
       ↔ ∃ i n, calls !! i = Some (n, t, sh) ∧ slots !! i = Some (Some s)).
Proof.
  intros Hfresh calls slots.
  pose proof (resolver_fresh_inv m Hfresh) as Hinv.
  pose proof (resolve_pass_inv calls m Hinv) as Hfin.
  destruct (assign_pass_calls nodes m) as [Ecalls _]. fold calls in Ecalls.
  split; [done|]. split.
  { intros c. unfold calls, resolver_calls. rewrite list_elem_of_bind.
    intros (node & Hc & _). unfold resolver_calls_of in Hc.
    apply list_elem_of_fmap in Hc as (t & -> & Ht). by apply list_elem_of_filter in Ht as [? _]. }
  split.
  { intros i j n1 t1 sh1 n2 t2 sh2 Hi Hj.
    destruct (assigned_slots_sound calls m i n1 t1 sh1 Hinv Hi) as (s1 & Hs1 & Hin1).
    destruct (assigned_slots_sound calls m j n2 t2 sh2 Hinv Hj) as (s2 & Hs2 & Hin2).
    exists s1, s2. split; [done|]. split; [done|]. split.
    - intros ->. eapply (inv_slot _ Hfin); eauto.
    - intros [-> ->]. eapply (inv_shape _ Hfin); eauto. }
  split.
  { intros j n t sh Hj Hfirst.
    set (mj := foldl resolve m (take j calls)).
    pose proof (resolve_pass_inv (take j calls) m Hinv) as Hinvj. fold mj in Hinvj.
    assert (Hnone : ∀ s, (s, sh) ∉ shapes_of mj t).
    { intros s Hin.
      apply (assigned_slots_complete _ _ _ _ _ Hinv) in Hin as [Hin|(i & n' & Hi & _)].
      - rewrite shapes_of_fresh in Hin by done. set_solver.
      - apply lookup_take_Some in Hi as [Hi Hlt]. by apply (Hfirst i n'). }
    split.
    - unfold slots. rewrite (assigned_slots_lookup calls m j n t sh Hj). fold mj. f_equal.
      destruct (add_unique_tensor_cases n t sh mj Hinvj)
        as [(s0 & Hs0 & _)|(_ & Em & _)]; [by apply Hnone in Hs0|].
      by rewrite Em, lookup_insert_eq.
    - intros i s' Hlt Hs'.
      assert (Hlen : (i < length calls)%nat).
      { apply lookup_lt_Some in Hj. lia. }
      destruct (lookup_lt_is_Some_2 calls i Hlen) as [[[n' t'] sh'] Hi].
      assert (Hti : take j calls !! i = Some (n', t', sh')).
      { rewrite lookup_take_lt; done. }
      destruct (assigned_slots_sound (take j calls) m i n' t' sh' Hinv Hti)
        as (s'' & Hs'' & Hin).
      rewrite assigned_slots_take, lookup_take_lt in Hs'' by done.
      unfold slots in Hs'. rewrite Hs' in Hs''. injection Hs'' as <-.
      apply (inv_range _ Hinvj) in Hin. fold mj. lia. }
  intros t s sh. rewrite Ecalls. split.
  - intros Hin. apply (assigned_slots_complete _ _ _ _ _ Hinv) in Hin as [Hin|?]; [|done].
    rewrite shapes_of_fresh in Hin by done. set_solver.
  - intros (i & n & Hi & Hs).
    destruct (assigned_slots_sound calls m i n t sh Hinv Hi) as (s' & Hs' & Hin).
    unfold slots in Hs. rewrite Hs in Hs'. by injection Hs' as <-.
Qed.

(** Where no node carries an identifier with two different shapes (the
    assumption the source states for [tensors_mapping]), the binding a call
    makes is still the one in the final mapping. *)
Lemma resolver_final_binding (m : Manager) (calls : list (Z * list Z * list Z)) i n t sh :
  resolver_inv m →
  (∀ j sh', calls !! j = Some (n, t, sh') → sh' = sh) →
  calls !! i = Some (n, t, sh) →
  assigned_slots m calls !! i = Some (tensors_mapping (foldl resolve m calls) !! (n, t)).
Proof.
  revert m i. induction calls as [|c calls IH]; intros m i Hinv Hone Hi; [done|].
  assert (Hkeep : ∀ l m0 s, resolver_inv m0 →
            (∀ j sh', l !! j = Some (n, t, sh') → sh' = sh) →
            tensors_mapping m0 !! (n, t) = Some s → (s, sh) ∈ shapes_of m0 t →
            tensors_mapping (foldl resolve m0 l) !! (n, t) = Some s).
  { clear. induction l as [|[[n0 t0] sh0] l IHl]; intros m0 s Hinv Hone Hs Hin; [done|].
    cbn [foldl]. unfold resolve at 2. cbn [fst snd].
    pose proof (add_unique_tensor_inv n0 t0 sh0 m0 Hinv) as Hinv'.
    pose proof (add_unique_tensor_mono n0 t0 sh0 m0 t s sh Hinv Hin) as Hin'.
    apply IHl; try done.
    - intros j sh' Hj. apply (Hone (S j)). done.
    - destruct (decide ((n0, t0) = (n, t))) as [[= -> ->]|Hne].
      + assert (sh0 = sh) as -> by (by apply (Hone 0%nat)).
        destruct (add_unique_tensor_binds n t sh m0 Hinv) as (s' & Hs' & Hin2).
        rewrite Hs'. f_equal. eapply (inv_shape _ Hinv'); eauto.
      + destruct (add_unique_tensor_cases n0 t0 sh0 m0 Hinv)
          as [(s0 & _ & Em & _)|(_ & Em & _)]; by rewrite Em, lookup_insert_ne. }
  destruct i as [|i].
  - simpl in Hi. injection Hi as ->. cbn [assigned_slots foldl lookup list_lookup].
    unfold resolve at 1 3. cbn [fst snd]. f_equal.
    destruct (add_unique_tensor_binds n t sh m Hinv) as (s & Hs & Hin).
    rewrite Hs. symmetry. apply Hkeep; try done.
    + by apply add_unique_tensor_inv.
    + intros j sh' Hj. by apply (Hone (S j)).
  - cbn [assigned_slots foldl]. apply IH; try done.
    + by apply add_unique_tensor_inv.
    + intros j sh' Hj. by apply (Hone (S j)).
Qed.

(** ** Classification: the instantiate set *)

Lemma input_first_iff {K : Type} `{EqDecision K} (s : K) (evs : list (Use * K)) :
  input_first s evs
  ↔ ∃ i, evs !! i = Some (AsInput, s) ∧ ∀ j, (j < i)%nat → evs !! j ≠ Some (AsOutput, s).
Proof.
  unfold input_first, first_use. split.
  - destruct (list_find (λ e, e = (AsInput, s)) evs) as [[i e]|] eqn:Ei; [|done].
    apply list_find_Some in Ei as (Hi & -> & _). simpl.
    destruct (list_find (λ e, e = (AsOutput, s)) evs) as [[j e]|] eqn:Ej; simpl.
    + apply list_find_Some in Ej as (Hj & -> & Hfirst). intros Hlt.
      exists i. split; [done|]. intros j' Hj' Hout. eapply (Hfirst j'); [done|lia|done].
    + intros _. exists i. split; [done|]. intros j' _ Hout.
      apply list_find_None in Ej. rewrite Forall_forall in Ej.
      eapply Ej; [|done]. by eapply list_elem_of_lookup_2.
  - intros (i & Hi & Hno).
    destruct (list_find_elem_of (λ e, e = (AsInput, s)) evs (AsInput, s)) as [[i0 e] Ei];
      [by eapply list_elem_of_lookup_2|done|].
    rewrite Ei. simpl. apply list_find_Some in Ei as (Hi0 & -> & Hfirst).
    assert (i0 ≤ i)%nat.
    { destruct (decide (i < i0)%nat); [|lia]. by destruct (Hfirst i _ Hi). }
    destruct (list_find (λ e, e = (AsOutput, s)) evs) as [[j e]|] eqn:Ej; simpl; [|done].
    apply list_find_Some in Ej as (Hj & -> & _).
    destruct (decide (j < i)%nat) as [Hlt|]; [by destruct (Hno j Hlt)|].
    destruct (decide (j = i)) as [->|]; [congruence|lia].
Qed.

Lemma classify_uses_spec evs inst out s :
  s ∈ (foldl classify_use (inst, out) evs).1
  ↔ s ∈ inst
    ∨ (s ∉ out ∧ ∃ i, evs !! i = Some (AsInput, s)
                      ∧ ∀ j, (j < i)%nat → evs !! j ≠ Some (AsOutput, s)).
Proof.
  revert inst out. induction evs as [|[u s0] evs IH]; intros inst out.
  - simpl. split; [auto|]. intros [?|(_ & i & Hi & _)]; done.
  - cbn [foldl]. unfold classify_use at 2. cbn [fst snd]. destruct u.
    + case_bool_decide as Hout.
      * rewrite IH. split.
        -- intros [[->%elem_of_singleton|?]%elem_of_union|(Hs & i & Hi & Hno)]; auto.
           ++ right. split; [done|]. exists 0%nat. split; [done|]. intros; lia.
           ++ right. split; [done|]. exists (S i). split; [done|].
              intros [|j] Hj; [done|]. apply Hno. lia.
        -- intros [?|(Hs & [|i] & Hi & Hno)]; [set_solver| |].
           ++ simpl in Hi. injection Hi as ->. set_solver.
           ++ right. split; [done|]. exists i. split; [done|].
              intros j Hj. apply (Hno (S j)). lia.
      * rewrite IH. split.
        -- intros [?|(Hs & i & Hi & Hno)]; auto.
           right. split; [done|]. exists (S i). split; [done|].
           intros [|j] Hj; [done|]. apply Hno. lia.
        -- intros [?|(Hs & [|i] & Hi & Hno)]; auto.
           ++ simpl in Hi. injection Hi as ->. done.
           ++ right. split; [done|]. exists i. split; [done|].
              intros j Hj. apply (Hno (S j)). lia.
    + rewrite IH. split.
      * intros [?|(Hs & i & Hi & Hno)]; auto.
        right. split; [set_solver|]. exists (S i). split; [done|].
        intros [|j] Hj; [|apply Hno; lia]. simpl. intros [= ->]. set_solver.
      * intros [?|(Hs & [|i] & Hi & Hno)]; auto; [done|].
        right. split.
        -- intros [->%elem_of_singleton|?]%elem_of_union; [|done].
           by apply (Hno 0%nat); [lia|].
        -- exists i. split; [done|]. intros j Hj. apply (Hno (S j)). lia.
Qed.

Lemma for_each_cons {A S : Type} (body : S → A → Result S) x l s :
  for_each body (x :: l) s = body s x ≫= for_each body l.
Proof. done. Qed.

Lemma for_each_app {A S : Type} (body : S → A → Result S) l1 l2 s :
  for_each body (l1 ++ l2) s = for_each body l1 s ≫= for_each body l2.
Proof.
  revert s. induction l1 as [|x l1 IH]; intros s; [done|].
  rewrite <- app_comm_cons, !for_each_cons. destruct (body s x); [apply IH|done].
Qed.

Lemma same_bindings_refl m : same_bindings m m.
Proof. done. Qed.

Lemma same_bindings_trans m1 m2 m3 :
  same_bindings m1 m2 → same_bindings m2 m3 → same_bindings m1 m3.
Proof. intros (? & ? & ?) (? & ? & ?). repeat split; congruence. Qed.

Lemma uses_of_ext m m' node u ts :
  same_bindings m m' → uses_of m' node u ts = uses_of m node u ts.
Proof.
  intros (Em & Ed & _). unfold uses_of, tracked, slot_of. by rewrite Em, Ed.
Qed.

Lemma scan_node_ext m m' node : same_bindings m m' → scan_node m' node = scan_node m node.
Proof. intros Hs. unfold scan_node. by rewrite !(uses_of_ext m m'). Qed.

Lemma scan_ext m m' : same_bindings m m' → scan m' = scan m.
Proof.
  intros Hs. unfold scan. rewrite (proj2 (proj2 Hs)).
  induction (sorted_nodes m) as [|x l IH]; [done|].
  cbn [mbind list_bind]. by rewrite IH, (scan_node_ext m m').
Qed.

Lemma classify_input_unfold node m out t :
  classify_input node (m, out) t
  = if tracked m t.1.2 then
      match slot_of m node t.1.2 with
      | None => Abort (Traceback KeyError) m
      | Some slot =>
          if bool_decide (slot ∉ out)
          then Ret (set_instantiate ({[slot]} ∪ instantiate m) m, out)
          else Ret (m, out)
      end
    else Ret (m, out).
Proof. done. Qed.

Lemma classify_output_unfold node m out t :
  classify_output node (m, out) t
  = if tracked m t.1.2 then
      match slot_of m node t.1.2 with
      | None => Abort (Traceback KeyError) m
      | Some slot => Ret (m, {[slot]} ∪ out)
      end
    else Ret (m, out).
Proof. done. Qed.

Lemma classify_inputs_spec node ts m out :
  all_bound m node ts →
  ∃ m', for_each (classify_input node) ts (m, out) = Ret (m', out)
        ∧ (instantiate m', out)
          = foldl classify_use (instantiate m, out) (uses_of m node AsInput ts)
        ∧ same_bindings m m'.
Proof.
  revert m. induction ts as [|t ts IH]; intros m Hb.
  - exists m. done.
  - rewrite for_each_cons, classify_input_unfold. unfold uses_of.
    cbn [omap list_omap]. fold (uses_of m node AsInput ts).
    assert (Hb' : all_bound m node ts) by (intros t' ?; apply Hb; by right).
    destruct (tracked m t.1.2) eqn:Et.
    + destruct (Hb t) as [s Hs]; [by left|done|]. rewrite Hs. cbn [fmap option_fmap option_map].
      cbn [foldl]. unfold classify_use at 2. cbn [fst snd]. case_bool_decide as Ho.
      * cbn [mbind Result_bind].
        set (m1 := set_instantiate ({[s]} ∪ instantiate m) m).
        destruct (IH m1) as (m' & E & Ei & Hs').
        { intros t' Ht' Htr. by apply Hb'. }
        exists m'. split; [done|]. split; [|by eapply same_bindings_trans; [|done]].
        by rewrite Ei, (uses_of_ext m m1).
      * cbn [mbind Result_bind]. destruct (IH m Hb') as (m' & E & Ei & Hs').
        exists m'. done.
    + cbn [mbind Result_bind]. destruct (IH m Hb') as (m' & E & Ei & Hs'). exists m'. done.
Qed.

Lemma classify_outputs_spec node ts m out :
  all_bound m node ts →
  for_each (classify_output node) ts (m, out)
  = Ret (m, (foldl classify_use (instantiate m, out) (uses_of m node AsOutput ts)).2)
  ∧ (foldl classify_use (instantiate m, out) (uses_of m node AsOutput ts)).1 = instantiate m.
Proof.
  revert out. induction ts as [|t ts IH]; intros out Hb; [done|].
  rewrite for_each_cons, classify_output_unfold. unfold uses_of.
  cbn [omap list_omap]. fold (uses_of m node AsOutput ts).
  assert (Hb' : all_bound m node ts) by (intros t' ?; apply Hb; by right).
  destruct (tracked m t.1.2) eqn:Et.
  - destruct (Hb t) as [s Hs]; [by left|done|]. rewrite Hs. cbn [fmap option_fmap option_map].
    cbn [foldl mbind Result_bind]. unfold classify_use at 2 4. cbn [fst snd]. by apply IH.
  - cbn [mbind Result_bind]. by apply IH.
Qed.

Lemma classify_node_spec node m out :
  all_bound m node (get_input_tensors node ++ get_output_tensors node) →
  ∃ m' out', classify_node (m, out) node = Ret (m', out')
             ∧ (instantiate m', out') = foldl classify_use (instantiate m, out) (scan_node m node)
             ∧ same_bindings m m'.
Proof.
  intros Hb. unfold classify_node, scan_node.
  destruct (classify_inputs_spec node (get_input_tensors node) m out) as (m1 & E1 & Ei & Hs).
  { intros t Ht. apply Hb. apply elem_of_app. by left. }
  rewrite E1. cbn [mbind Result_bind].
  destruct (classify_outputs_spec node (get_output_tensors node) m1 out) as [E2 Eo].
  { intros t Ht Htr. destruct Hs as (Em & Ed & _). unfold slot_of. rewrite Em.
    apply Hb; [apply elem_of_app; by right|]. unfold tracked in *. by rewrite <- Ed. }
  rewrite E2. eexists _, _. split; [done|]. split; [|done].
  rewrite foldl_app, <- Ei, <- (uses_of_ext m m1) by done.
  revert Eo.
  generalize (foldl classify_use (instantiate m1, out)
                (uses_of m1 node AsOutput (get_output_tensors node))).
  intros [a b] Eo. simpl in *. by subst.
Qed.

Lemma classify_nodes_spec nodes m out :
  (∀ node, node ∈ nodes →
     all_bound m node (get_input_tensors node ++ get_output_tensors node)) →
  ∃ m' out', for_each classify_node nodes (m, out) = Ret (m', out')
             ∧ (instantiate m', out')
               = foldl classify_use (instantiate m, out) (nodes ≫= scan_node m)
             ∧ same_bindings m m'.
Proof.
  revert m out. induction nodes as [|node nodes IH]; intros m out Hb.
  - exists m, out. done.
  - rewrite for_each_cons.
    destruct (classify_node_spec node m out) as (m1 & out1 & E1 & Ei & Hs);
      [apply Hb; by left|].
    rewrite E1. cbn [mbind Result_bind list_bind].
    destruct (IH m1 out1) as (m' & out' & E & Ei' & Hs').
    { intros node' Hn t Ht Htr. destruct Hs as (Em & Ed & _). unfold slot_of. rewrite Em.
      apply Hb; [by right|done|]. unfold tracked in *. by rewrite <- Ed. }
    exists m', out'. split; [done|]. split; [|by eapply same_bindings_trans].
    rewrite foldl_app, <- Ei, Ei'. f_equal.
    clear -Hs. induction nodes as [|x l IHl]; [done|].
    cbn [mbind list_bind]. by rewrite IHl, (scan_node_ext m m1).
Qed.

(** The first pass binds the key of every call, and never removes a key. *)
Lemma add_unique_tensor_mapping n t sh m :
  ∃ s, tensors_mapping (add_unique_tensor n t sh m) = <[(n, t) := s]> (tensors_mapping m).
Proof.
  unfold add_unique_tensor, new_replay_tensor. case_bool_decide; [by eexists|].
  case_match; by eexists.
Qed.

Lemma resolve_pass_keeps calls m k :
  is_Some (tensors_mapping m !! k) → is_Some (tensors_mapping (foldl resolve m calls) !! k).
Proof.
  revert m. induction calls as [|[[n t] sh] calls IH]; intros m Hk; [done|].
  cbn [foldl]. apply IH. unfold resolve. cbn [fst snd].
  destruct (add_unique_tensor_mapping n t sh m) as [s ->].
  rewrite lookup_insert. case_decide; eauto.
Qed.

Lemma resolve_pass_binds calls m c :
  c ∈ calls → is_Some (tensors_mapping (foldl resolve m calls) !! (c.1.1, c.1.2)).
Proof.
  revert m. induction calls as [|[[n t] sh] calls IH]; intros m Hc; [by apply elem_of_nil in Hc|].
  cbn [foldl]. apply elem_of_cons in Hc as [->|Hc]; [|by apply IH].
  apply resolve_pass_keeps. unfold resolve. cbn [fst snd].
  destruct (add_unique_tensor_mapping n t sh m) as [s ->]. rewrite lookup_insert_eq. eauto.
Qed.

Lemma resolve_pass_frame calls m :
  let m' := foldl resolve m calls in
  dependency_permanent m' = dependency_permanent m
  ∧ sorted_nodes m' = sorted_nodes m
  ∧ instantiate m' = instantiate m
  ∧ unchangeable_intermediate_tensors m' = unchangeable_intermediate_tensors m
  ∧ tensor_registry_permanent m' = tensor_registry_permanent m
  ∧ tensor_registry m' = tensor_registry m
  ∧ funcs m' = funcs m
  ∧ stdout m' = stdout m.
Proof.
  revert m. induction calls as [|[[n t] sh] calls IH]; intros m; [done|].
  cbn [foldl]. unfold resolve at 2 4 6 8 10 12 14 16. cbn [fst snd].
  destruct (IH (add_unique_tensor n t sh m)) as (E1 & E2 & E3 & E4 & E5 & E6 & E7 & E8).
  destruct (add_unique_tensor_frame n t sh m) as (F1 & F2 & F3 & F4 & F5 & F6 & F7 & F8).
  cbv zeta. rewrite E1, E2, E3, E4, E5, E6, E7, E8. done.
Qed.

(** After the first pass every tracked tensor of every node is bound. *)
Lemma assign_pass_bound m nodes node :
  node ∈ nodes →
  all_bound (foldl assign_node m nodes) node (get_input_tensors node ++ get_output_tensors node).
Proof.
  intros Hn t Ht Htr. destruct (assign_pass_calls nodes m) as [E T]. rewrite T in Htr.
  unfold slot_of. rewrite E.
  apply (resolve_pass_binds _ m (node_id node, t.1.2, t.2)).
  unfold resolver_calls. apply list_elem_of_bind. exists node. split; [|done].
  unfold resolver_calls_of. apply list_elem_of_fmap. exists t. split; [done|].
  by apply list_elem_of_filter.
Qed.

(** [analyze_tensors] returns, and a slot is in the instantiate set it
    computes exactly when, among the bindings the second pass reads, the
    first one that gives the slot to an input comes before the first one
    that gives it to an output, if there is one. *)
Lemma classification_follows_bindings (m : Manager) :
  instantiate m = ∅ →
  ∃ m', analyze_tensors m = Ret m'
        ∧ same_bindings (foldl assign_node m (sorted_nodes m)) m'
        ∧ sorted_nodes m' = sorted_nodes m
        ∧ ∀ s, s ∈ instantiate m' ↔ input_first s (scan m').
Proof.
  intros Hempty. unfold analyze_tensors.
  set (m1 := foldl assign_node m (sorted_nodes m)).
  destruct (assign_pass_calls (sorted_nodes m) m) as [Ecalls _].
  destruct (resolve_pass_frame (resolver_calls m (sorted_nodes m)) m)
    as (_ & Esorted & Einst & _).
  cbv zeta in Esorted, Einst. rewrite <- Ecalls in Esorted, Einst. fold m1 in Esorted, Einst.
  destruct (classify_nodes_spec (sorted_nodes m1) m1 ∅) as (m' & out' & E & Ei & Hs).
  { rewrite Esorted. intros node Hn. by apply assign_pass_bound. }
  rewrite E. cbn [mbind Result_bind fst]. exists m'. split; [done|]. split; [done|].
  split; [by rewrite (proj2 (proj2 Hs))|].
  intros s. rewrite (scan_ext m1 m' Hs), input_first_iff.
  change (instantiate m') with (instantiate m', out').1. rewrite Ei.
  fold (scan m1). rewrite classify_uses_spec, Einst, Hempty. set_solver.
Qed.

(** ** The replay engine *)

Lemma replay_frame_refl m : replay_frame m m.
Proof. by repeat split. Qed.

Lemma replay_frame_trans m1 m2 m3 :
  replay_frame m1 m2 → replay_frame m2 m3 → replay_frame m1 m3.
Proof.
  intros (?&?&?&?&?&?&?) (?&?&?&?&?&?&?). repeat split; congruence.
Qed.

Lemma replay_frame_tracked m m' t : replay_frame m m' → tracked m' t = tracked m t.
Proof. intros (_ & Ed & _). unfold tracked. by rewrite Ed. Qed.

Lemma replay_frame_slot_of m m' node t : replay_frame m m' → slot_of m' node t = slot_of m node t.
Proof. intros (Em & _). unfold slot_of. by rewrite Em. Qed.

(** The two outcomes of the loop body of the write-back. *)
Lemma write_output_cases node m dt t_id sh output :
  (∃ slot, tracked m t_id = true ∧ slot_of m node t_id = Some slot
           ∧ slot ∉ unchangeable_intermediate_tensors m ∧ slot ∉ instantiate m
           ∧ write_output node m ((dt, t_id, sh), output)
             = Ret (set_tensor_registry (<[slot := output]> (tensor_registry m)) m))
  ∨ ((tracked m t_id = false
      ∨ slot_of m node t_id = None
      ∨ ∃ slot, slot_of m node t_id = Some slot
                ∧ (slot ∈ unchangeable_intermediate_tensors m ∨ slot ∈ instantiate m))
     ∧ final_state (write_output node m ((dt, t_id, sh), output)) = m).
Proof.
  unfold write_output. destruct (tracked m t_id) eqn:Et; [|right; auto].
  destruct (slot_of m node t_id) as [slot|] eqn:Es; [|right; auto].
  case_bool_decide as Hu; [|right; split; [|done]; right; right; eauto ].
  case_bool_decide as Hi; [|right; split; [|done]; right; right; eauto ].
  left. exists slot. done.
Qed.

Lemma write_outputs_spec node ps m :
  let m' := final_state (for_each (write_output node) ps m) in
  replay_frame m m' ∧ stdout m' = stdout m
  ∧ ∀ slot, tensor_registry m' !! slot = tensor_registry m !! slot
      ∨ (slot ∉ unchangeable_intermediate_tensors m ∧ slot ∉ instantiate m
         ∧ ∃ p, p ∈ ps ∧ tracked m p.1.1.2 = true ∧ slot_of m node p.1.1.2 = Some slot).
Proof.
  revert m. induction ps as [|[[[dt t_id] sh] output] ps IH]; intros m.
  - simpl. split; [apply replay_frame_refl|]. split; [done|]. intros slot. by left.
  - rewrite for_each_cons.
    destruct (write_output_cases node m dt t_id sh output)
      as [(slot & Et & Es & Hu & Hi & ->)|[Hskip Hm]].
    + cbn [mbind Result_bind].
      set (m1 := set_tensor_registry (<[slot:=output]> (tensor_registry m)) m).
      destruct (IH m1) as (Hf & Hout & Hw). cbv zeta.
      assert (Hf1 : replay_frame m m1) by (by repeat split).
      split; [by eapply replay_frame_trans|]. split; [by rewrite Hout|].
      intros slot'. destruct (decide (slot' = slot)) as [->|Hother].
      * right. split; [done|]. split; [done|]. eexists. split; [by left|]. done.
      * destruct (Hw slot') as [E|(Hu' & Hi' & p & Hp & Htp & Hsp)].
        { left. rewrite E. unfold m1. simpl. by rewrite lookup_insert_ne. }
        right. split; [done|]. split; [done|]. exists p. split; [by right|].
        by rewrite (replay_frame_tracked m m1), (replay_frame_slot_of m m1) in *.
    + destruct (write_output node m (dt, t_id, sh, output)) as [m1|why m1];
        simpl in Hm; subst m1; cbn [mbind Result_bind].
      * destruct (IH m) as (Hf & Hout & Hw). split; [done|]. split; [done|].
        intros slot. destruct (Hw slot) as [?|(? & ? & p & ? & ?)]; [by left|].
        right. split; [done|]. split; [done|]. exists p. split; [by right|done].
      * simpl. split; [apply replay_frame_refl|]. split; [done|]. intros slot. by left.
Qed.

Lemma print_frame line m : replay_frame m (print line m) ∧ tensor_registry (print line m) = tensor_registry m.
Proof. by repeat split. Qed.

(** [run_op] leaves the registry as it was but for the guarded write-back. *)
Lemma run_op_spec node m :
  let m' := final_state (run_op node m) in
  replay_frame m m'
  ∧ ∀ slot, tensor_registry m' !! slot = tensor_registry m !! slot
      ∨ (slot ∉ unchangeable_intermediate_tensors m ∧ slot ∉ instantiate m
         ∧ ∃ t, t ∈ get_output_tensors node ∧ tracked m t.1.2 = true
                ∧ slot_of m node t.1.2 = Some slot).
Proof.
  unfold run_op.
  destruct (funcs m !! node_id node) as [[[func|] output_count]|];
    try (simpl; split; [apply replay_frame_refl|by left]).
  unfold get_inputs.
  set (m1 := match resolve_inputs m node with Some _ => m | None => print (InputsError (node_id node)) m end).
  set (inputs := match resolve_inputs m node with Some i => Some i | None => None end).
  assert (Hm1 : replay_frame m m1 ∧ tensor_registry m1 = tensor_registry m).
  { unfold m1. destruct (resolve_inputs m node); [|apply print_frame].
    split; [apply replay_frame_refl|done]. }
  replace (match resolve_inputs m node with
           | Some inputs0 => (Some inputs0, m)
           | None => (None, print (InputsError (node_id node)) m)
           end) with (inputs, m1) by (unfold inputs, m1; by destruct (resolve_inputs m node)).
  destruct Hm1 as [Hf1 Hr1].
  assert (Hstop : ∀ why, let m' := final_state (Abort (A := Manager) why m1) in
            replay_frame m m'
            ∧ ∀ slot, tensor_registry m' !! slot = tensor_registry m !! slot
                ∨ (slot ∉ unchangeable_intermediate_tensors m ∧ slot ∉ instantiate m
                   ∧ ∃ t, t ∈ get_output_tensors node ∧ tracked m t.1.2 = true
                          ∧ slot_of m node t.1.2 = Some slot)).
  { intros why. simpl. split; [done|]. intros slot. left. by rewrite Hr1. }
  destruct (workaround_convolution node inputs m1) as [inputs1|why m2] eqn:Ec.
  2:{ assert (m2 = m1) as ->; [|apply Hstop].
      unfold workaround_convolution in Ec. repeat case_match; congruence. }
  cbn [mbind Result_bind].
  destruct (workaround_mul node inputs1 m1) as [inputs2|why m2] eqn:Em.
  2:{ assert (m2 = m1) as ->; [|apply Hstop].
      unfold workaround_mul in Em. repeat case_match; congruence. }
  cbn [mbind Result_bind].
  destruct (invoke func output_count inputs2) as [outputs|].
  2:{ simpl. split; [by eapply replay_frame_trans; [|apply print_frame]|].
      intros slot. left. by rewrite Hr1. }
  destruct (write_outputs_spec node (zip (get_output_tensors node) outputs) m1)
    as (Hf & _ & Hw).
  cbv zeta. split; [by eapply replay_frame_trans|].
  intros slot. destruct (Hw slot) as [E|(Hu & Hi & p & Hp & Ht & Hs)]; [left; congruence|].
  destruct Hf1 as (Emap & Edep & _ & Einst & Eunch & _).
  rewrite Eunch in Hu. rewrite Einst in Hi. right. split; [done|]. split; [done|].
  exists p.1. split.
  - destruct p as [t o]. by apply elem_of_zip_l in Hp.
  - unfold tracked, slot_of in *. by rewrite <- Edep, <- Emap.
Qed.

Lemma unchangeable_kept_trans m1 m2 m3 :
  unchangeable_kept m1 m2 → unchangeable_kept m2 m3 → unchangeable_kept m1 m3.
Proof.
  intros [F1 K1] [F2 K2]. split; [by eapply replay_frame_trans|].
  intros slot Hs. rewrite K2, K1; [done..|].
  destruct F1 as (_ & _ & _ & _ & -> & _). done.
Qed.

Lemma run_op_unchangeable_kept node m : unchangeable_kept m (final_state (run_op node m)).
Proof.
  destruct (run_op_spec node m) as [Hf Hw]. split; [done|].
  intros slot Hs. by destruct (Hw slot) as [|[Hu _]].
Qed.

Lemma run_nodes_unchangeable_kept nodes m :
  unchangeable_kept m (final_state (run_nodes nodes m)).
Proof.
  unfold run_nodes. revert m. induction nodes as [|node nodes IH]; intros m.
  - split; [apply replay_frame_refl|done].
  - rewrite for_each_cons. pose proof (run_op_unchangeable_kept node m) as Hk.
    destruct (run_op node m) as [m1|why m1]; cbn [mbind Result_bind]; [|done].
    eapply unchangeable_kept_trans; [exact Hk|apply IH].
Qed.

Lemma run_passes_unchangeable_kept iters m :
  unchangeable_kept m (final_state (run_passes iters m)).
Proof.
  revert m. induction iters as [|n IH]; intros m.
  - split; [apply replay_frame_refl|done].
  - cbn [run_passes]. pose proof (run_nodes_unchangeable_kept (sorted_nodes m) m) as Hk.
    destruct (run_nodes (sorted_nodes m) m) as [m1|why m1]; cbn [mbind Result_bind]; [|done].
    eapply unchangeable_kept_trans; [exact Hk|apply IH].
Qed.

(** C3. The write-back of [run_op] assigns an output to the working
    registry only when the identifier it is paired with is tracked and its
    slot is neither unchangeable nor in the instantiate set; in every other
    case the manager is left as it was.  So an entry of the registry is the
    same after [run_op], or its slot is that of such an output of the node; and the entry of an
    unchangeable slot is the same after any number of passes, whether they
    complete or the process stops in one of them. *)
Theorem registry_overwrite_guarded :
  (∀ node m dt t_id sh output,
     (∃ slot, tracked m t_id = true ∧ slot_of m node t_id = Some slot
              ∧ slot ∉ unchangeable_intermediate_tensors m ∧ slot ∉ instantiate m
              ∧ write_output node m ((dt, t_id, sh), output)
                = Ret (set_tensor_registry (<[slot := output]> (tensor_registry m)) m))
     ∨ ((tracked m t_id = false
         ∨ slot_of m node t_id = None
         ∨ ∃ slot, slot_of m node t_id = Some slot
                   ∧ (slot ∈ unchangeable_intermediate_tensors m ∨ slot ∈ instantiate m))
        ∧ final_state (write_output node m ((dt, t_id, sh), output)) = m))
  ∧ (∀ node m slot,
       tensor_registry (final_state (run_op node m)) !! slot = tensor_registry m !! slot
       ∨ (slot ∉ unchangeable_intermediate_tensors m ∧ slot ∉ instantiate m
          ∧ ∃ t, t ∈ get_output_tensors node ∧ tracked m t.1.2 = true
                 ∧ slot_of m node t.1.2 = Some slot))
  ∧ (∀ iters m slot,
       slot ∈ unchangeable_intermediate_tensors m →
       tensor_registry (final_state (run_passes iters m)) !! slot = tensor_registry m !! slot
       ∧ slot ∈ unchangeable_intermediate_tensors (final_state (run_passes iters m))).
Proof.
  split; [apply write_output_cases|]. split.
  - intros node m. apply run_op_spec.
  - intros iters m slot Hs. destruct (run_passes_unchangeable_kept iters m) as [Hf Hk].
    split; [by apply Hk|]. destruct Hf as (_ & _ & _ & _ & -> & _). done.
Qed.

(** ** Subgraph extraction *)

(** Induction on a node, given the property for its children. *)
Lemma Node_children_ind (P : Node → Prop) :
  (∀ n, Forall P (node_children n) → P n) → ∀ n, P n.
Proof.
  intros step. fix self 1. intros [i nm ty ins ity ish outs oty osh cs].
  apply step. simpl. induction cs as [|c cs IHcs]; constructor; [apply self|apply IHcs].
Qed.

Lemma dfs_visit_eq m child :
  dfs_visit m child
  = if name_skipped child then Ret m
    else if is_qualified child then visit_qualified child m
    else _dfs_traverse child m.
Proof. done. Qed.

Lemma _dfs_traverse_unfold root m :
  _dfs_traverse root m = for_each dfs_visit (node_children root) m.
Proof.
  destruct root as [i nm ty ins ity ish outs oty osh cs]. simpl.
  revert m. induction cs as [|c cs IH]; intros m; [done|].
  rewrite for_each_cons, dfs_visit_eq.
  destruct (name_skipped c); [apply IH|].
  destruct (is_qualified c).
  - destruct (visit_qualified c m); [apply IH|done].
  - destruct (_dfs_traverse c m); [apply IH|done].
Qed.

Lemma replay_nodes_of_eq child :
  replay_nodes_of child
  = if name_skipped child then []
    else if is_qualified child then [child]
    else replay_nodes child.
Proof. done. Qed.

Lemma replay_nodes_unfold root : replay_nodes root = node_children root ≫= replay_nodes_of.
Proof.
  destruct root as [i nm ty ins ity ish outs oty osh cs]. simpl.
  induction cs as [|c cs IH]; [done|]. cbn [mbind list_bind]. by rewrite IH.
Qed.

Lemma build_func_frame node m fc m' :
  build_func node m = Some (fc, m') →
  sorted_nodes m' = sorted_nodes m ∧ dependency_permanent m' = dependency_permanent m
  ∧ top_tensors m' = top_tensors m ∧ funcs m' = funcs m
  ∧ original_unique_tensors m' = original_unique_tensors m
  ∧ tensor_shapes m' = tensor_shapes m ∧ tensors_mapping m' = tensors_mapping m
  ∧ replay_unique_tensor_num m' = replay_unique_tensor_num m
  ∧ instantiate m' = instantiate m.
Proof.
  unfold build_func. intros Hb.
  repeat (case_match; simplify_option_eq); done.
Qed.

Lemma visit_qualified_sorted child m m' :
  visit_qualified child m = Ret m' → sorted_nodes m' = sorted_nodes m ++ [child].
Proof.
  unfold visit_qualified. destruct (build_func child (record_node child m)) as [[fc m2]|] eqn:E;
    [|done].
  intros [= <-]. apply build_func_frame in E as (Es & _). simpl. by rewrite Es.
Qed.

Lemma dfs_sorted_nodes root :
  ∀ m m', _dfs_traverse root m = Ret m' → sorted_nodes m' = sorted_nodes m ++ replay_nodes root.
Proof.
  induction root as [root IH] using Node_children_ind. intros m m'.
  rewrite _dfs_traverse_unfold, replay_nodes_unfold.
  revert m. induction IH as [|c cs Hc _ IHcs]; intros m.
  - intros [= ->]. by rewrite app_nil_r.
  - rewrite for_each_cons, dfs_visit_eq. cbn [mbind list_bind]. rewrite replay_nodes_of_eq.
    destruct (name_skipped c).
    + cbn [mbind Result_bind]. intros E. by rewrite (IHcs _ E).
    + destruct (is_qualified c).
      * destruct (visit_qualified c m) as [m1|] eqn:Ev; [|done].
        cbn [mbind Result_bind]. intros E.
        by rewrite (IHcs _ E), (visit_qualified_sorted _ _ _ Ev), <- !app_assoc.
      * destruct (_dfs_traverse c m) as [m1|] eqn:Ed; [|done].
        cbn [mbind Result_bind]. intros E.
        by rewrite (IHcs _ E), (Hc _ _ Ed), <- !app_assoc.
Qed.

Lemma replay_nodes_encountered root n :
  n ∈ replay_nodes root
  ↔ Encountered root n ∧ name_skipped n = false ∧ is_qualified n = true.
Proof.
  split.
  - revert n. induction root as [root IH] using Node_children_ind. intros n.
    rewrite replay_nodes_unfold, list_elem_of_bind. intros (c & Hn & Hc).
    rewrite Forall_forall in IH. unfold replay_nodes_of in Hn.
    destruct (name_skipped c) eqn:Es; [by apply elem_of_nil in Hn|].
    destruct (is_qualified c) eqn:Eq.
    + apply list_elem_of_singleton in Hn as ->. split; [by constructor|done].
    + destruct (IH c Hc n Hn) as (He & ? & ?). split; [|done].
      clear -He Hc Es Eq. induction He as [x Hx|x y Hx IHx Hs Hq Hy].
      * eapply encountered_below; [by apply encountered_child|done..].
      * by eapply encountered_below.
  - intros (He & Hs & Hq).
    assert (Hsub : ∀ x, Encountered root x → name_skipped x = false → is_qualified x = false →
                        ∀ y, y ∈ replay_nodes x → y ∈ replay_nodes root).
    { clear. intros x He. induction He as [x Hx|x z Hx IHx Hs Hq Hz]; intros Hs' Hq' y Hy.
      - rewrite replay_nodes_unfold, list_elem_of_bind. exists x. split; [|done].
        unfold replay_nodes_of. by rewrite Hs', Hq'.
      - apply IHx; [done..|]. rewrite replay_nodes_unfold, list_elem_of_bind.
        exists z. split; [|done]. unfold replay_nodes_of. by rewrite Hs', Hq'. }
    destruct He as [c Hc|x c Hx Hsx Hqx Hc].
    + rewrite replay_nodes_unfold, list_elem_of_bind. exists c. split; [|done].
      unfold replay_nodes_of. rewrite Hs, Hq. by apply list_elem_of_singleton.
    + apply (Hsub x); [done..|]. rewrite replay_nodes_unfold, list_elem_of_bind.
      exists c. split; [|done]. unfold replay_nodes_of. rewrite Hs, Hq.
      by apply list_elem_of_singleton.
Qed.

(** [sorted] returns its argument reordered, ascending in node id. *)
Lemma insert_by_id_perm x l : insert_by_id x l ≡ₚ x :: l.
Proof.
  induction l as [|y l IH]; [done|]. simpl. case_match; [done|].
  by rewrite IH, Permutation_swap.
Qed.

Lemma sorted_by_id_perm l : sorted_by_id l ≡ₚ l.
Proof.
  induction l as [|x l IH]; [done|]. simpl. by rewrite insert_by_id_perm, IH.
Qed.

Lemma ascending_cons x l :
  ascending (x :: l) ↔ (∀ y, y ∈ l → node_id x ≤ node_id y) ∧ ascending l.
Proof.
  split.
  - intros Ha. split.
    + intros y [j Hj]%list_elem_of_lookup_1. apply (Ha 0%nat (S j)); [lia|done..].
    + intros i j a b Hij Hi Hj. apply (Ha (S i) (S j)); [lia|done..].
  - intros [Hx Ha] [|i] [|j] a b Hij Hi Hj; try lia.
    + injection Hi as <-. apply Hx. by eapply list_elem_of_lookup_2.
    + by apply (Ha i j); [lia|..].
Qed.

Lemma insert_by_id_ascending x l : ascending l → ascending (insert_by_id x l).
Proof.
  induction l as [|y l IH]; intros Ha.
  - apply ascending_cons. split; [|done]. intros y Hy. by apply elem_of_nil in Hy.
  - simpl. apply ascending_cons in Ha as Ha'. destruct Ha' as [Hy Hl].
    destruct (node_id x <=? node_id y) eqn:E.
    + apply Z.leb_le in E. apply ascending_cons. split; [|done].
      intros z [->|Hz]%elem_of_cons; [done|]. etrans; [done|by apply Hy].
    + apply Z.leb_gt in E. apply ascending_cons. split; [|by apply IH].
      intros z Hz. rewrite insert_by_id_perm in Hz.
      apply elem_of_cons in Hz as [->|Hz]; [lia|by apply Hy].
Qed.

Lemma sorted_by_id_ascending l : ascending (sorted_by_id l).
Proof.
  induction l as [|x l IH]; [by intros [|?] ? ? ? ? ?|].
  simpl. by apply insert_by_id_ascending.
Qed.

(** After [extract_subgraph] the replay list is ascending in node id. *)
Lemma extract_subgraph_ascending root m m' :
  extract_subgraph root m = Ret m' → ascending (sorted_nodes m').
Proof.
  unfold extract_subgraph. destruct (_dfs_traverse root m) as [m1|]; [|done].
  cbn [mbind Result_bind]. intros [= <-]. simpl. apply sorted_by_id_ascending.
Qed.

(** C4, as the code has it.  When [extract_subgraph] returns, the replay
    list holds, besides what it held before, exactly the nodes met by the
    traversal that are qualified and whose name matches no skip string,
    where the traversal meets the children of the root and the children of
    every node it met that is neither qualified nor skipped.  So a qualified
    node is recorded and its children are not met through it, a node that is
    not qualified is descended into, and a node whose name matches a skip
    string is neither recorded nor descended into.  The list is a reordering
    of the nodes in the order met, ascending in node id. *)
Theorem extract_subgraph_records (root : Node) (m m' : Manager) :
  extract_subgraph root m = Ret m' →
  (∀ n, n ∈ sorted_nodes m'
        ↔ n ∈ sorted_nodes m
          ∨ (Encountered root n ∧ name_skipped n = false ∧ is_qualified n = true))
  ∧ sorted_nodes m' ≡ₚ sorted_nodes m ++ replay_nodes root
  ∧ ascending (sorted_nodes m').
Proof.
  intros E. pose proof (extract_subgraph_ascending _ _ _ E) as Hasc.
  unfold extract_subgraph in E. destruct (_dfs_traverse root m) as [m1|] eqn:Ed; [|done].
  cbn [mbind Result_bind] in E. injection E as <-.
  apply dfs_sorted_nodes in Ed.
  assert (Hp : sorted_by_id (sorted_nodes m1) ≡ₚ sorted_nodes m ++ replay_nodes root)
    by (by rewrite sorted_by_id_perm, Ed).
  split; [|done]. intros n. simpl. rewrite Hp, elem_of_app, replay_nodes_encountered. done.
Qed.

(** ** The operator builder *)

Lemma pop_last_snoc {A : Type} (l : list A) (x : A) : pop_last (l ++ [x]) = Some (l, x).
Proof. unfold pop_last. by rewrite last_snoc, removelast_last. Qed.

Lemma build_func_forward node m func output_count :
  is_fbgemm_forward node = true → build_fbgemm_func node = Some (func, output_count) →
  build_func node m
  = Some ((Some (forward func), output_count),
          set_fbgemm_backward_ops (fbgemm_backward_ops m ++ [backward func]) m).
Proof. intros Hf Hb. unfold build_func. by rewrite Hf, Hb. Qed.

Lemma build_func_backward node m ops entry :
  is_fbgemm_forward node = false → is_fbgemm_backward node = true →
  fbgemm_backward_ops m = ops ++ [entry] →
  build_func node m
  = Some ((Some entry, length (node_output_types node)), set_fbgemm_backward_ops ops m).
Proof. intros Hf Hb Hops. unfold build_func. by rewrite Hf, Hb, Hops, pop_last_snoc. Qed.

Lemma build_funcs_app l1 l2 m :
  build_funcs (l1 ++ l2) m
  = '(fcs1, m1) ← build_funcs l1 m;
    '(fcs2, m2) ← build_funcs l2 m1;
    Some (fcs1 ++ fcs2, m2).
Proof.
  revert m. induction l1 as [|n l1 IH]; intros m.
  - simpl. destruct (build_funcs l2 m) as [[fcs2 m2]|]; done.
  - simpl. destruct (build_func n m) as [[fc m1]|]; [|done]. simpl. rewrite IH.
    destruct (build_funcs l1 m1) as [[fcs1 m1']|]; [|done]. simpl.
    destruct (build_funcs l2 m1') as [[fcs2 m2']|]; done.
Qed.

Lemma build_funcs_nested w ps :
  Nested w ps → Forall buildable w →
  ∀ m, ∃ fcs m',
    build_funcs w m = Some (fcs, m')
    ∧ fbgemm_backward_ops m' = fbgemm_backward_ops m
    ∧ fcs.*1 = w
    ∧ ∀ f b, (f, b) ∈ ps →
        ∃ func output_count,
          build_fbgemm_func f = Some (func, output_count)
          ∧ (f, (Some (forward func), output_count)) ∈ fcs
          ∧ (b, (Some (backward func), length (node_output_types b))) ∈ fcs.
Proof.
  induction 1 as [|n w ps Hf Hb Hn IH|f b w1 w2 ps1 ps2 Hf Hbf Hbb Hn1 IH1 Hn2 IH2];
    intros Hall m.
  - exists [], m. repeat split; try done. intros f b Hin. by apply elem_of_nil in Hin.
  - apply Forall_cons in Hall as [Hbn Hall]. unfold buildable in Hbn. rewrite Hf, Hb in Hbn.
    destruct Hbn as [r Hr]. destruct (IH Hall m) as (fcs & m' & E & Eops & Efst & Hps).
    exists ((n, r) :: fcs), m'. split.
    { cbn [build_funcs]. unfold build_func. rewrite Hf, Hb, Hr. cbn [mbind option_bind].
      by rewrite E. }
    split; [done|]. split; [by rewrite fmap_cons, Efst|].
    intros f b Hin. destruct (Hps f b Hin) as (func & c & ? & ? & ?).
    exists func, c. repeat split; try done; by right.
  - apply Forall_cons in Hall as [Hbn Hall]. apply Forall_app in Hall as [Hall1 Hall2].
    apply Forall_cons in Hall2 as [_ Hall2].
    unfold buildable in Hbn. rewrite Hf in Hbn. destruct Hbn as [[func c] Hfunc].
    set (m1 := set_fbgemm_backward_ops (fbgemm_backward_ops m ++ [backward func]) m).
    destruct (IH1 Hall1 m1) as (fcs1 & m2 & E1 & Eops1 & Efst1 & Hps1).
    set (m3 := set_fbgemm_backward_ops (fbgemm_backward_ops m) m2).
    destruct (IH2 Hall2 m3) as (fcs2 & m4 & E2 & Eops2 & Efst2 & Hps2).
    exists ((f, (Some (forward func), c))
              :: fcs1 ++ (b, (Some (backward func), length (node_output_types b))) :: fcs2), m4.
    split.
    { cbn [build_funcs]. rewrite (build_func_forward f m func c Hf Hfunc).
      cbn [mbind option_bind]. fold m1. rewrite build_funcs_app, E1.
      cbn [mbind option_bind build_funcs].
      rewrite (build_func_backward b m2 (fbgemm_backward_ops m) (backward func) Hbf Hbb)
        by (by rewrite Eops1).
      cbn [mbind option_bind]. fold m3. rewrite E2. done. }
    split; [by rewrite Eops2|]. split.
    { rewrite fmap_cons, fmap_app, fmap_cons, Efst1, Efst2. done. }
    intros f' b' Hin. apply elem_of_cons in Hin as [[= -> ->]|Hin].
    + exists func, c. split; [done|]. split; [by left|].
      right. apply elem_of_app. right. by left.
    + apply elem_of_app in Hin as [Hin|Hin].
      * destruct (Hps1 f' b' Hin) as (func' & c' & ? & ? & ?).
        exists func', c'. repeat split; try done; right; apply elem_of_app; by left.
      * destruct (Hps2 f' b' Hin) as (func' & c' & ? & ? & ?).
        exists func', c'. repeat split; try done; right; apply elem_of_app; right; by right.
Qed.

(** C6. Building the callable of an embedding forward node appends the
    backward entry built for that node to [fbgemm_backward_ops] and returns
    the forward entry; building the callable of an embedding backward node
    removes the last entry of the list and returns it.  So along a sequence
    of nodes in which the forward and backward nodes are nested, every
    backward node gets the backward entry that was built for its matching
    forward node, and the list ends as it started. *)
Theorem fbgemm_backward_lifo :
  (∀ node m func output_count,
     is_fbgemm_forward node = true → build_fbgemm_func node = Some (func, output_count) →
     build_func node m
     = Some ((Some (forward func), output_count),
             set_fbgemm_backward_ops (fbgemm_backward_ops m ++ [backward func]) m))
  ∧ (∀ node m ops entry,
       is_fbgemm_forward node = false → is_fbgemm_backward node = true →
       fbgemm_backward_ops m = ops ++ [entry] →
       build_func node m
       = Some ((Some entry, length (node_output_types node)),
               set_fbgemm_backward_ops ops m))
  ∧ (∀ w ps m,
       Nested w ps → Forall buildable w →
       ∃ fcs m',
         build_funcs w m = Some (fcs, m')
         ∧ fbgemm_backward_ops m' = fbgemm_backward_ops m
         ∧ fcs.*1 = w
         ∧ ∀ f b, (f, b) ∈ ps →
             ∃ func output_count,
               build_fbgemm_func f = Some (func, output_count)
               ∧ (f, (Some (forward func), output_count)) ∈ fcs
               ∧ (b, (Some (backward func), length (node_output_types b))) ∈ fcs).
Proof.
  split; [exact build_func_forward|]. split; [exact build_func_backward|].
  intros w ps m Hn Hall. by apply build_funcs_nested.
Qed.

(** ** The dependency analyzer *)

Lemma bfs_visit_eq node chain m child :
  bfs_visit node chain m child
  = if name_skipped child then Ret m
    else if is_backward_aten child || has_backward_parent child then Ret m
    else m1 ← analyze_child child (node :: chain) m; _bfs_traverse child (node :: chain) m1.
Proof. done. Qed.

Lemma _bfs_traverse_unfold node chain m :
  _bfs_traverse node chain m = for_each (bfs_visit node chain) (node_children node) m.
Proof.
  destruct node as [i nm ty ins ity ish outs oty osh cs]. simpl.
  set (node := {| node_id := i; node_children := cs |}). clearbody node.
  revert m. induction cs as [|c cs IH]; intros m; [done|].
  rewrite for_each_cons, bfs_visit_eq.
  destruct (name_skipped c); [apply IH|].
  destruct (is_backward_aten c || has_backward_parent c); [apply IH|].
  cbn [mbind Result_bind].
  destruct (analyze_child c (node :: chain) m) as [m1|]; [|done].
  cbn [mbind Result_bind].
  destruct (_bfs_traverse c (node :: chain) m1); [apply IH|done].
Qed.

Lemma qualified_ancestor_Some m chain :
  is_Some (qualified_ancestor m chain) ↔ ∃ a, a ∈ chain ∧ in_sorted_nodes m a = true.
Proof.
  induction chain as [|x chain IH]; simpl.
  - split; [by intros [? ?]|]. intros (a & Ha & _). by apply elem_of_nil in Ha.
  - destruct (in_sorted_nodes m x) eqn:E.
    + split; [|eauto]. intros _. exists x. split; [by left|done].
    + rewrite IH. split.
      * intros (a & Ha & Hq). exists a. split; [by right|done].
      * intros (a & [->|Ha]%elem_of_cons & Hq); [congruence|eauto].
Qed.

Lemma qualified_ancestor_first m chain node :
  qualified_ancestor m chain = Some node →
  ∃ i, chain !! i = Some node ∧ in_sorted_nodes m node = true
       ∧ ∀ j a, (j < i)%nat → chain !! j = Some a → in_sorted_nodes m a = false.
Proof.
  induction chain as [|x chain IH]; simpl; [done|].
  destruct (in_sorted_nodes m x) eqn:E.
  - intros [= ->]. exists 0%nat. repeat split; try done. lia.
  - intros Hq. destruct (IH Hq) as (i & Hi & Hs & Hfirst). exists (S i).
    repeat split; try done. intros [|j] a Hj Ha; [by injection Ha as <-|].
    apply (Hfirst j); [lia|done].
Qed.

Lemma analyze_child_no_ancestor m child chain :
  in_sorted_nodes m child = false → node_type child = OPERATOR →
  (∀ a, a ∈ chain → in_sorted_nodes m a = false) →
  analyze_child child chain m = Abort (Traceback AttributeError) m.
Proof.
  intros Hc Ht Hno. unfold analyze_child. rewrite Hc, bool_decide_true by done. simpl.
  destruct (qualified_ancestor m chain) as [node|] eqn:E; [|done].
  destruct (proj1 (qualified_ancestor_Some m chain)) as (a & Ha & Hq); [by rewrite E|].
  rewrite Hno in Hq; done.
Qed.

(** The analysis never assigns to [sorted_nodes]. *)
Lemma note_additional_sorted node m t :
  sorted_nodes (final_state (note_additional node m t)) = sorted_nodes m.
Proof.
  unfold note_additional. destruct t as [[dt t_id] sh].
  repeat case_match; done.
Qed.

Lemma for_each_sorted {A : Type} (body : Manager → A → Result Manager) l :
  (∀ m x, sorted_nodes (final_state (body m x)) = sorted_nodes m) →
  ∀ m, sorted_nodes (final_state (for_each body l m)) = sorted_nodes m.
Proof.
  intros Hb. induction l as [|x l IH]; intros m; [done|].
  rewrite for_each_cons. specialize (Hb m x).
  destruct (body m x) as [m1|why m1]; cbn [mbind Result_bind]; [|done].
  by rewrite IH.
Qed.

Lemma analyze_child_sorted child chain m :
  sorted_nodes (final_state (analyze_child child chain m)) = sorted_nodes m.
Proof.
  unfold analyze_child. repeat case_match; try done.
  apply for_each_sorted. intros. apply note_additional_sorted.
Qed.

Lemma _bfs_traverse_sorted node :
  ∀ chain m, sorted_nodes (final_state (_bfs_traverse node chain m)) = sorted_nodes m.
Proof.
  induction node as [node IH] using Node_children_ind. intros chain m.
  rewrite _bfs_traverse_unfold. revert m.
  induction IH as [|c cs Hc _ IHcs]; intros m; [done|].
  rewrite for_each_cons, bfs_visit_eq.
  destruct (name_skipped c); [apply IHcs|].
  destruct (is_backward_aten c || has_backward_parent c); [apply IHcs|].
  pose proof (analyze_child_sorted c (node :: chain) m) as Ha.
  destruct (analyze_child c (node :: chain) m) as [m1|]; cbn [mbind Result_bind]; [|done].
  pose proof (Hc (node :: chain) m1) as Ht.
  destruct (_bfs_traverse c (node :: chain) m1) as [m2|]; cbn [mbind Result_bind].
  - rewrite IHcs. simpl in *. congruence.
  - simpl in *. congruence.
Qed.

(** A failure below a node that the traversal gets to is a failure of the
    traversal of that node. *)
Lemma bfs_abort_below node chain c nodes :
  c ∈ node_children node → name_skipped c = false →
  is_backward_aten c || has_backward_parent c = false →
  (∀ m, sorted_nodes m = nodes →
        aborts (m1 ← analyze_child c (node :: chain) m; _bfs_traverse c (node :: chain) m1)) →
  ∀ m, sorted_nodes m = nodes → aborts (_bfs_traverse node chain m).
Proof.
  intros Hc Hs Hb Hfail m Hm. rewrite _bfs_traverse_unfold.
  revert m Hm. induction (node_children node) as [|x cs IH]; intros m Hm;
    [by apply elem_of_nil in Hc|].
  rewrite for_each_cons.
  pose proof (for_each_sorted (bfs_visit node chain) [x]) as Hx.
  assert (Hsorted : sorted_nodes (final_state (bfs_visit node chain m x)) = sorted_nodes m).
  { rewrite bfs_visit_eq. repeat case_match; try done.
    pose proof (analyze_child_sorted x (node :: chain) m) as Ha.
    destruct (analyze_child x (node :: chain) m) as [m1|]; cbn [mbind Result_bind]; [|done].
    rewrite _bfs_traverse_sorted. done. }
  apply elem_of_cons in Hc as [->|Hc].
  - rewrite bfs_visit_eq, Hs, Hb. destruct (Hfail m Hm) as (why & m' & ->).
    by exists why, m'.
  - destruct (bfs_visit node chain m x) as [m1|why m1]; cbn [mbind Result_bind].
    + apply IH; [done|]. simpl in Hsorted. congruence.
    + by exists why, m1.
Qed.

Lemma bfs_abort_reached root n chain nodes :
  Reached root n chain →
  (∀ m, sorted_nodes m = nodes →
        aborts (m1 ← analyze_child n chain m; _bfs_traverse n chain m1)) →
  ∀ m, sorted_nodes m = nodes → aborts (_bfs_traverse root [] m).
Proof.
  induction 1 as [c Hc Hs Hb|p chain c Hp IH Hc Hs Hb]; intros Hfail.
  - by apply (bfs_abort_below root [] c).
  - apply IH. intros m Hm.
    pose proof (analyze_child_sorted p chain m) as Ha.
    destruct (analyze_child p chain m) as [m1|why m1]; cbn [mbind Result_bind];
      [|by exists why, m1].
    apply (bfs_abort_below p chain c nodes); try done. simpl in Ha. congruence.
Qed.

(** C10. The walk up the parent links of [_bfs_traverse] finds a node
    exactly when some ancestor is in the replay list, and then it is the
    nearest such ancestor; when none is, the step that handles an operator
    node outside the replay list raises (past the root there is no node left
    to ask for its parent).  So if the traversal gets to such a node, one
    that is neither skipped by name nor part of the backward pass and has
    no ancestor in the replay list, [analyze_subgraph] does not return. *)
Theorem analyze_subgraph_walk_partial :
  (∀ m chain,
     is_Some (qualified_ancestor m chain) ↔ ∃ a, a ∈ chain ∧ in_sorted_nodes m a = true)
  ∧ (∀ m chain node,
       qualified_ancestor m chain = Some node →
       ∃ i, chain !! i = Some node ∧ in_sorted_nodes m node = true
            ∧ ∀ j a, (j < i)%nat → chain !! j = Some a → in_sorted_nodes m a = false)
  ∧ (∀ m child chain,
       in_sorted_nodes m child = false → node_type child = OPERATOR →
       (∀ a, a ∈ chain → in_sorted_nodes m a = false) →
       analyze_child child chain m = Abort (Traceback AttributeError) m)
  ∧ (∀ root m child chain,
       Reached root child chain →
       in_sorted_nodes m child = false → node_type child = OPERATOR →
       (∀ a, a ∈ chain → in_sorted_nodes m a = false) →
       ∃ why m', analyze_subgraph root m = Abort why m').
Proof.
  split; [exact qualified_ancestor_Some|]. split; [exact qualified_ancestor_first|].
  split; [exact analyze_child_no_ancestor|].
  intros root m child chain Hr Hc Ht Hno.
  destruct (bfs_abort_reached root child chain (sorted_nodes m) Hr) with (m := m)
    as (why & m' & E); [|done|].
  - intros m0 Hm0. exists (Traceback AttributeError), m0.
    rewrite analyze_child_no_ancestor; try done.
    + unfold in_sorted_nodes in *. by rewrite Hm0.
    + intros a Ha. specialize (Hno a Ha). unfold in_sorted_nodes in *. by rewrite Hm0.
  - exists why, m'. unfold analyze_subgraph. by rewrite E.
Qed.

(** ** Failures during replay *)

Lemma run_nodes_cons node rest m :
  run_nodes (node :: rest) m = run_op node m ≫= run_nodes rest.
Proof. done. Qed.

Lemma run_nodes_app before rest m :
  run_nodes (before ++ rest) m = run_nodes before m ≫= run_nodes rest.
Proof. apply for_each_app. Qed.

Lemma run_passes_add k iters m :
  run_passes (k + iters) m = run_passes k m ≫= run_passes iters.
Proof.
  revert m. induction k as [|k IH]; intros m; [done|].
  cbn [Nat.add run_passes]. destruct (run_nodes (sorted_nodes m) m) as [m1|]; [|done].
  cbn [mbind Result_bind]. apply IH.
Qed.

(** A failure of [run_op] on a node of the replay list ends the pass it
    occurs in and every pass after it. *)
Lemma run_passes_abort k iters m_start m0 before node rest m why m' :
  run_passes k m_start = Ret m0 →
  sorted_nodes m0 = before ++ node :: rest →
  run_nodes before m0 = Ret m →
  run_op node m = Abort why m' →
  run_passes (k + S iters) m_start = Abort why m'.
Proof.
  intros Hk Hs Hb Hop. rewrite run_passes_add, Hk. cbn [mbind Result_bind run_passes].
  rewrite Hs, run_nodes_app, Hb. cbn [mbind Result_bind]. by rewrite run_nodes_cons, Hop.
Qed.

(** An exception in the resolution of the arguments. *)
Lemma run_op_inputs_error node m func output_count :
  funcs m !! node_id node = Some (Some func, output_count) →
  resolve_inputs m node = None →
  ∃ why m', run_op node m = Abort why m'
            ∧ InputsError (node_id node) ∈ stdout m'
            ∧ tensor_registry m' = tensor_registry m.
Proof.
  intros Hf Hr. unfold run_op, get_inputs. rewrite Hf, Hr.
  unfold workaround_convolution.
  destruct (name_is node "aten::convolution_backward").
  { eexists _, _. split; [done|]. split; [|done]. simpl. set_solver. }
  cbn [mbind Result_bind]. unfold workaround_mul. destruct (name_is node "aten::mul").
  { eexists _, _. split; [done|]. split; [|done]. simpl. set_solver. }
  cbn [mbind Result_bind invoke option_bind].
  eexists _, _. split; [done|]. split; [|done]. simpl. set_solver.
Qed.

(** An exception in the invocation of the operator. *)
Lemma run_op_invoke_error node m func output_count inputs inputs1 inputs2 :
  funcs m !! node_id node = Some (Some func, output_count) →
  resolve_inputs m node = Some inputs →
  workaround_convolution node (Some inputs) m = Ret inputs1 →
  workaround_mul node inputs1 m = Ret inputs2 →
  invoke func output_count inputs2 = None →
  run_op node m = Abort (SystemExit 1) (print (RunOpError (node_id node)) m).
Proof.
  intros Hf Hr Hc Hm Hi. unfold run_op, get_inputs. rewrite Hf, Hr, Hc.
  cbn [mbind Result_bind]. rewrite Hm. cbn [mbind Result_bind]. by rewrite Hi.
Qed.

(** C8. When the resolution of the arguments of a node raises, or the
    invocation of its operator does, [run_op] does not return: the process
    stops, a line with the node's id has been printed, and the registry is
    what it was before the node.  The nodes after it in the pass are not
    run, and neither is any later pass: the replay loop ends with that very
    stop, whatever follows the node and however many passes remain. *)
Theorem replay_failure_is_fatal (node : Node) (m : Manager) (func : Callable)
    (output_count : nat) :
  funcs m !! node_id node = Some (Some func, output_count) →
  (resolve_inputs m node = None
   ∨ ∃ inputs inputs1 inputs2,
       resolve_inputs m node = Some inputs
       ∧ workaround_convolution node (Some inputs) m = Ret inputs1
       ∧ workaround_mul node inputs1 m = Ret inputs2
       ∧ invoke func output_count inputs2 = None) →
  ∃ why m',
    run_op node m = Abort why m'
    ∧ (InputsError (node_id node) ∈ stdout m' ∨ RunOpError (node_id node) ∈ stdout m')
    ∧ tensor_registry m' = tensor_registry m
    ∧ (∀ rest, run_nodes (node :: rest) m = Abort why m')
    ∧ (∀ k iters m_start m0 before rest,
         run_passes k m_start = Ret m0 →
         sorted_nodes m0 = before ++ node :: rest →
         run_nodes before m0 = Ret m →
         run_passes (k + S iters) m_start = Abort why m').
Proof.
  intros Hf Hfail.
  assert (Hop : ∃ why m', run_op node m = Abort why m'
            ∧ (InputsError (node_id node) ∈ stdout m' ∨ RunOpError (node_id node) ∈ stdout m')
            ∧ tensor_registry m' = tensor_registry m).
  { destruct Hfail as [Hr|(inputs & inputs1 & inputs2 & Hr & Hc & Hm & Hi)].
    - destruct (run_op_inputs_error node m func output_count Hf Hr) as (why & m' & ? & ? & ?).
      exists why, m'. auto.
    - eexists _, _. split; [by eapply run_op_invoke_error|]. split; [|done].
      right. simpl. set_solver. }
  destruct Hop as (why & m' & Hop & Hout & Hreg). exists why, m'.
  split; [done|]. split; [done|]. split; [done|]. split.
  - intros rest. by rewrite run_nodes_cons, Hop.
  - intros k iters m_start m0 before rest Hk Hs Hb. by eapply run_passes_abort.
Qed.

(** ** Allocation *)

Lemma registry_at_null m node t_id slot :
  slot_of m node t_id = Some slot → tensor_registry m !! slot = Some VNone →
  registry_at m node t_id = Some VNone.
Proof. intros Hs Hr. unfold registry_at. rewrite Hs. done. Qed.

Lemma reset_registry_null m m' slot :
  reset_registry m = Ret m' → tensor_registry_permanent m !! slot = Some VNone →
  tensor_registry m' !! slot = Some VNone.
Proof.
  unfold reset_registry. case_bool_decide; [|done]. intros [= <-] Hn. simpl.
  rewrite map_lookup_imap, Hn. done.
Qed.

(** C7, as the code has it.  For a node that is not an embedding forward
    node, when the key stripped from the declared type of an input that is
    being materialized has no entry in [TORCH_DTYPES_RNG], the slot is bound
    to [None] in the permanent registry and the loop goes on with the next
    input; a line is printed unless the declared type is
    ['Tensor(nullptr (uninitialized))'].  [reset_registry] carries the
    [None] into the working registry, and the resolution of arguments reads
    it from there without raising: it is the operator that is handed it. *)
Theorem allocation_missing_generator (node : Node) (m : Manager) (idx : nat)
    (data_type : string) (t_id shape : list Z) (slot : Z) :
  slot_of m node t_id = Some slot →
  tracked m t_id = true →
  slot ∉ dom (tensor_registry_permanent m) →
  materialized node m slot = true →
  is_fbgemm_forward node = false →
  TORCH_DTYPES_RNG !! strip_dtype data_type = None →
  ∃ m',
    allocate_input node m (idx, (data_type, t_id, shape)) = Ret m'
    ∧ tensor_registry_permanent m' = <[slot := VNone]> (tensor_registry_permanent m)
    ∧ stdout m' = (if String.eqb data_type "Tensor(nullptr (uninitialized))"
                   then stdout m
                   else stdout m ++ [KeyErrorLine (node_id node) t_id data_type])
    ∧ (∀ rest, for_each (allocate_input node) ((idx, (data_type, t_id, shape)) :: rest) m
               = for_each (allocate_input node) rest m')
    ∧ (∀ m1 m2, tensor_registry_permanent m1 !! slot = Some VNone →
                reset_registry m1 = Ret m2 → tensor_registry m2 !! slot = Some VNone)
    ∧ (∀ m2 node' t', slot_of m2 node' t' = Some slot →
                      tensor_registry m2 !! slot = Some VNone →
                      registry_at m2 node' t' = Some VNone).
Proof.
  intros Hs Ht Hd Hm Hf Hk. unfold materialized in Hm.
  assert (E : allocate_input node m (idx, (data_type, t_id, shape))
              = Ret (set_tensor_registry_permanent
                       (<[slot := VNone]>
                          (tensor_registry_permanent
                             (if String.eqb data_type "Tensor(nullptr (uninitialized))"
                              then m
                              else print (KeyErrorLine (node_id node) t_id data_type) m)))
                       (if String.eqb data_type "Tensor(nullptr (uninitialized))"
                        then m
                        else print (KeyErrorLine (node_id node) t_id data_type) m))).
  { unfold allocate_input. rewrite Hs, Ht, bool_decide_true by done.
    cbn [andb]. rewrite Hm, Hf, Hk. done. }
  eexists. split; [exact E|].
  split; [by destruct (String.eqb data_type _)|].
  split; [by destruct (String.eqb data_type _)|].
  split; [intros rest; by rewrite for_each_cons, E|].
  split.
  - intros m1 m2 Hn Hr. by eapply reset_registry_null.
  - intros m2 node' t'. apply registry_at_null.
Qed.

Lemma allocation_frame_refl m : allocation_frame m m.
Proof. by repeat split. Qed.

Lemma allocation_frame_trans m1 m2 m3 :
  allocation_frame m1 m2 → allocation_frame m2 m3 → allocation_frame m1 m3.
Proof.
  intros (?&?&?&?&?&?&?&?) (?&?&?&?&?&?&?&?). repeat split; try congruence. set_solver.
Qed.

(** An iteration of the loop that rewrites the offsets raises, and leaves
    the manager as it is. *)
Lemma patch_offset_aborts node nnz m i :
  ∃ e, patch_offset node nnz m i = Abort (Traceback e) m.
Proof.
  unfold patch_offset. destruct (int_times _ _); [by eexists|].
  destruct (node_inputs node !! 2%nat); by eexists.
Qed.

(** So the loop returns only when it has no iteration to make. *)
Lemma patch_offsets_Ret node nnz n m m' :
  for_each (patch_offset node nnz) (seq 0 n) m = Ret m' → n = 0%nat ∧ m' = m.
Proof.
  destruct n as [|n]; [by intros [= <-]|]. cbn [seq]. rewrite for_each_cons.
  by destruct (patch_offset_aborts node nnz m 0) as [e ->].
Qed.

(** The workaround returns only when it does nothing. *)
Lemma match_offsets_Ret node m m' : match_offsets node m = Ret m' → m' = m.
Proof.
  unfold match_offsets. destruct (name_is node "aten::embedding_bag"); [|by intros [= <-]].
  destruct (input_dim node 1) as [L|]; [|done].
  destruct (input_dim node 2) as [O|]; [|done].
  destruct (true_div L O) as [e|nnz]; [done|].
  by intros [_ ->]%patch_offsets_Ret.
Qed.

Lemma allocate_input_frame node m it m' :
  allocate_input node m it = Ret m' →
  allocation_frame m m'
  ∧ ∀ s, s ∈ dom (tensor_registry_permanent m) →
         tensor_registry_permanent m' !! s = tensor_registry_permanent m !! s.
Proof.
  unfold allocate_input. destruct it as [idx [[dt t_id] sh]].
  destruct (slot_of m node t_id) as [slot|]; [|done].
  destruct (tracked m t_id); cbn [andb]; [|intros [= <-]; split; [apply allocation_frame_refl|done]].
  case_bool_decide as Hd; cbn [andb];
    [|intros [= <-]; split; [apply allocation_frame_refl|done]].
  destruct (_ || _ || _); [|intros [= <-]; split; [apply allocation_frame_refl|done]].
  assert (Hins : ∀ v s, s ∈ dom (tensor_registry_permanent m) →
             <[slot := v]> (tensor_registry_permanent m) !! s = tensor_registry_permanent m !! s).
  { intros v s Hs. rewrite lookup_insert_ne; [done|]. intros ->. done. }
  assert (Hsub : ∀ v, dom (tensor_registry_permanent m)
                      ⊆ dom (<[slot := v]> (tensor_registry_permanent m))).
  { intros v. rewrite dom_insert_L. set_solver. }
  destruct (is_fbgemm_forward node).
  - destruct (generate_fbgemm_tensors node !! idx) as [v|]; [|done].
    intros [= <-]. destruct (name_is node _); simpl; (split; [repeat split; (done || apply Hsub)|by apply Hins]).
  - destruct (TORCH_DTYPES_RNG !! strip_dtype dt) as [[d rng]|].
    + intros [= <-].
      destruct (name_is node "aten::embedding_bag"),
               (name_is node "aten::pin_memory" && bool_decide (idx = 0%nat));
        simpl; (split; [repeat split; (done || apply Hsub)|by apply Hins]).
    + intros [= <-]. destruct (String.eqb dt _); simpl; (split; [repeat split; (done || apply Hsub)|by apply Hins]).
Qed.

Lemma allocate_inputs_frame node its m m' :
  for_each (allocate_input node) its m = Ret m' →
  allocation_frame m m'
  ∧ ∀ s, s ∈ dom (tensor_registry_permanent m) →
         tensor_registry_permanent m' !! s = tensor_registry_permanent m !! s.
Proof.
  revert m. induction its as [|it its IH]; intros m.
  - intros [= <-]. split; [apply allocation_frame_refl|done].
  - rewrite for_each_cons. destruct (allocate_input node m it) as [m1|] eqn:E1; [|done].
    cbn [mbind Result_bind]. intros E2.
    destruct (allocate_input_frame _ _ _ _ E1) as [F1 K1].
    destruct (IH _ E2) as [F2 K2].
    split; [by eapply allocation_frame_trans|].
    intros s Hs. rewrite K2, K1; [done..|].
    destruct F1 as (_&_&_&_&_&_&_&Hsub). by apply Hsub.
Qed.

(** A node processed later leaves an entry as it is. *)
Lemma allocate_node_keeps node m m' :
  allocate_node m node = Ret m' →
  allocation_frame m m'
  ∧ ∀ s, s ∈ dom (tensor_registry_permanent m) →
         tensor_registry_permanent m' !! s = tensor_registry_permanent m !! s.
Proof.
  unfold allocate_node.
  destruct (for_each (allocate_input node) _ m) as [m1|] eqn:E1; [|done].
  cbn [mbind Result_bind]. intros ->%match_offsets_Ret.
  by apply allocate_inputs_frame in E1.
Qed.

Lemma allocate_nodes_keep nodes m m' :
  for_each allocate_node nodes m = Ret m' →
  allocation_frame m m'
  ∧ ∀ s, s ∈ dom (tensor_registry_permanent m) →
         tensor_registry_permanent m' !! s = tensor_registry_permanent m !! s.
Proof.
  revert m. induction nodes as [|node nodes IH]; intros m.
  - intros [= <-]. split; [apply allocation_frame_refl|done].
  - rewrite for_each_cons. destruct (allocate_node m node) as [m1|] eqn:E1; [|done].
    cbn [mbind Result_bind]. intros E2.
    destruct (allocate_node_keeps _ _ _ E1) as [F1 K1].
    destruct (IH _ E2) as [F2 K2].
    split; [by eapply allocation_frame_trans|].
    intros s Hs. rewrite K2, K1; try done.
    destruct F1 as (_&_&_&_&_&_&_&Hsub). by apply Hsub.
Qed.

Lemma for_each_stops {A S : Type} (body : S → A → Result S) (l : list A) (x : A) (s : S) :
  x ∈ l → (∀ s0, ∃ why m, body s0 x = Abort why m) → ∃ why m, for_each body l s = Abort why m.
Proof.
  intros Hx Hstop. revert s. induction l as [|y l IH]; intros s; [by apply elem_of_nil in Hx|].
  rewrite for_each_cons. apply elem_of_cons in Hx as [<-|Hx].
  - destruct (Hstop s) as (why & m & ->). by eexists _, _.
  - destruct (body s y) as [s1|why m]; [|by eexists _, _]. by apply IH.
Qed.

(** C9, as the code has it.  For an [aten::embedding_bag] node with a
    positive number [O] of offsets whose third input is a list, as the trace
    gives a tensor identifier, the workaround that is to rewrite the offsets
    raises a [TypeError] in its first iteration, before anything is stored:
    the key of its lookup in [tensors_mapping] holds the list itself.  The
    step of allocation for the node stops in the state the loop over its
    inputs left, whose offsets buffer is as the generator filled it; tensor
    allocation never completes on a replay list with such a node, and
    neither does [preprocess_graph]. *)
Theorem embedding_bag_offsets_patch_raises (node : Node) (L O : Z) (nnz : float) (t : list Z) :
  name_is node "aten::embedding_bag" = true →
  input_dim node 1 = Some L → input_dim node 2 = Some O → 0 < O →
  true_div L O = inr nnz →
  node_inputs node !! 2%nat = Some (ItemInts t) →
  (∀ m, match_offsets node m = Abort (Traceback TypeError) m)
  ∧ (∀ m m1, for_each (allocate_input node) (enumerate (get_input_tensors node)) m = Ret m1 →
             allocate_node m node = Abort (Traceback TypeError) m1)
  ∧ (∀ m, ∃ why m', allocate_node m node = Abort why m')
  ∧ (∀ m, node ∈ sorted_nodes m → ∃ why m', allocate_tensors m = Abort why m')
  ∧ (∀ root m, preprocess_graph root init_manager = Ret m → node ∉ sorted_nodes m).
Proof.
  intros Hname HL HO Hpos Hdiv Hitem.
  assert (Hmatch : ∀ m, match_offsets node m = Abort (Traceback TypeError) m).
  { intros m. unfold match_offsets. rewrite Hname, HL, HO, Hdiv.
    destruct (Z.to_nat O) as [|n] eqn:En; [lia|]. cbn [seq]. rewrite for_each_cons.
    unfold patch_offset. rewrite Hitem. done. }
  assert (Hnode : ∀ m, ∃ why m', allocate_node m node = Abort why m').
  { intros m. unfold allocate_node.
    destruct (for_each (allocate_input node) _ m) as [m1|why m1]; [|by eexists _, _].
    cbn [mbind Result_bind]. rewrite Hmatch. by eexists _, _. }
  assert (Hall : ∀ m, node ∈ sorted_nodes m → ∃ why m', allocate_tensors m = Abort why m').
  { intros m Hin. unfold allocate_tensors. by eapply for_each_stops. }
  split; [done|]. split.
  { intros m m1 E. unfold allocate_node. rewrite E. cbn [mbind Result_bind]. apply Hmatch. }
  split; [done|]. split; [done|].
  intros root m. unfold preprocess_graph. intros E Hin.
  destruct (extract_subgraph root init_manager) as [m1|]; [|done]. cbn [mbind Result_bind] in E.
  destruct (analyze_subgraph root m1) as [m2|]; [|done]. cbn [mbind Result_bind] in E.
  destruct (analyze_tensors m2) as [m3|]; [|done]. cbn [mbind Result_bind] in E.
  destruct (allocate_tensors (print (tensor_count m3) m3)) as [m4|] eqn:E4; [|done].
  cbn [mbind Result_bind] in E.
  assert (Es : sorted_nodes m = sorted_nodes (print (tensor_count m3) m3)).
  { destruct (allocate_nodes_keep _ _ _ E4) as [(_ & _ & <- & _) _].
    unfold reset_registry in E. case_bool_decide; [|done]. by injection E as <-. }
  rewrite Es in Hin. destruct (Hall _ Hin) as (why & m' & E'). congruence.
Qed.

(** ** Identifiers with no consumer *)

Lemma for_each_keeps {A X : Type} (f : Manager → X) (body : Manager → A → Result Manager) l :
  (∀ m x m', body m x = Ret m' → f m' = f m) →
  ∀ m m', for_each body l m = Ret m' → f m' = f m.
Proof.
  intros Hb. induction l as [|x l IH]; intros m m'; [by intros [= <-]|].
  rewrite for_each_cons. destruct (body m x) as [m1|] eqn:E; [|done].
  cbn [mbind Result_bind]. intros E'. rewrite (IH _ _ E'). by eapply Hb.
Qed.

Lemma build_func_keeps {X : Type} (f : Manager → X) node m fc m' :
  untouched_by_extraction f → build_func node m = Some (fc, m') → f m' = f m.
Proof.
  intros (_ & _ & _ & Hops & _). unfold build_func. intros Hb.
  repeat (case_match; simplify_option_eq); try done; apply Hops.
Qed.

Lemma visit_qualified_keeps {X : Type} (f : Manager → X) child m m' :
  untouched_by_extraction f → visit_qualified child m = Ret m' → f m' = f m.
Proof.
  intros Hu. unfold visit_qualified.
  destruct (build_func child (record_node child m)) as [[fc m2]|] eqn:E; [|done].
  intros [= <-]. pose proof Hu as (Hs & Ht & Hd & _ & Hf & _).
  rewrite Hf, (build_func_keeps f _ _ _ _ Hu E). unfold record_node.
  by rewrite Hd, Ht, Hs.
Qed.

Lemma _dfs_traverse_keeps {X : Type} (f : Manager → X) root :
  untouched_by_extraction f → ∀ m m', _dfs_traverse root m = Ret m' → f m' = f m.
Proof.
  intros Hu. induction root as [root IH] using Node_children_ind. intros m m'.
  rewrite _dfs_traverse_unfold. revert m.
  induction IH as [|c cs Hc _ IHcs]; intros m; [by intros [= <-]|].
  rewrite for_each_cons, dfs_visit_eq.
  destruct (name_skipped c); [apply IHcs|].
  destruct (is_qualified c).
  - destruct (visit_qualified c m) as [m1|] eqn:E; [|done]. cbn [mbind Result_bind].
    intros E'. rewrite (IHcs _ E'). by eapply visit_qualified_keeps.
  - destruct (_dfs_traverse c m) as [m1|] eqn:E; [|done]. cbn [mbind Result_bind].
    intros E'. rewrite (IHcs _ E'). by apply Hc.
Qed.

Lemma extract_subgraph_keeps {X : Type} (f : Manager → X) root m m' :
  untouched_by_extraction f → extract_subgraph root m = Ret m' → f m' = f m.
Proof.
  intros Hu. unfold extract_subgraph.
  destruct (_dfs_traverse root m) as [m1|] eqn:E; [|done]. cbn [mbind Result_bind].
  intros [= <-]. pose proof Hu as (Hs & _ & _ & _ & _ & Ho). unfold print.
  rewrite Ho, Hs. by eapply _dfs_traverse_keeps.
Qed.

Lemma note_additional_keeps {X : Type} (f : Manager → X) node m t m' :
  untouched_by_analysis f → note_additional node m t = Ret m' → f m' = f m.
Proof.
  intros (Ha & Hs & _). unfold note_additional. destruct t as [[dt t_id] sh].
  repeat case_match; try done; intros [= <-]; by rewrite ?Hs, ?Ha.
Qed.

Lemma analyze_child_keeps {X : Type} (f : Manager → X) child chain m m' :
  untouched_by_analysis f → analyze_child child chain m = Ret m' → f m' = f m.
Proof.
  intros Hu. unfold analyze_child. repeat case_match; try done; [|by intros [= <-]].
  apply for_each_keeps. intros ? ? ?. by apply note_additional_keeps.
Qed.

Lemma _bfs_traverse_keeps {X : Type} (f : Manager → X) node :
  untouched_by_analysis f →
  ∀ chain m m', _bfs_traverse node chain m = Ret m' → f m' = f m.
Proof.
  intros Hu. induction node as [node IH] using Node_children_ind. intros chain m m'.
  rewrite _bfs_traverse_unfold. revert m.
  induction IH as [|c cs Hc _ IHcs]; intros m; [by intros [= <-]|].
  rewrite for_each_cons, bfs_visit_eq.
  destruct (name_skipped c); [apply IHcs|].
  destruct (is_backward_aten c || has_backward_parent c); [apply IHcs|].
  destruct (analyze_child c (node :: chain) m) as [m1|] eqn:E1; [|done].
  cbn [mbind Result_bind].
  destruct (_bfs_traverse c (node :: chain) m1) as [m2|] eqn:E2; [|done].
  cbn [mbind Result_bind]. intros E'.
  rewrite (IHcs _ E'), (Hc _ _ _ E2). by eapply analyze_child_keeps.
Qed.

Lemma analyze_subgraph_keeps {X : Type} (f : Manager → X) root m m' :
  untouched_by_analysis f → analyze_subgraph root m = Ret m' → f m' = f m.
Proof.
  intros Hu. unfold analyze_subgraph.
  destruct (_bfs_traverse root [] m) as [m1|] eqn:E; [|done]. cbn [mbind Result_bind].
  intros [= <-]. pose proof Hu as (_ & _ & Ho). unfold print. rewrite Ho.
  by eapply _bfs_traverse_keeps.
Qed.

(** The second pass of [analyze_tensors] assigns to [instantiate] only. *)
Lemma classify_nodes_keeps {X : Type} (f : Manager → X) nodes m out m' out' :
  preserved_by set_instantiate f →
  for_each classify_node nodes (m, out) = Ret (m', out') → f m' = f m.
Proof.
  intros Hi.
  assert (Hin : ∀ node ts m out m' out',
            for_each (classify_input node) ts (m, out) = Ret (m', out') → f m' = f m).
  { clear m out m' out'. intros node ts. induction ts as [|t ts IH]; intros m out m' out'.
    - by intros [= <- <-].
    - rewrite for_each_cons, classify_input_unfold.
      destruct (tracked m t.1.2); [|apply IH].
      destruct (slot_of m node t.1.2); [|done].
      case_bool_decide; cbn [mbind Result_bind]; [|apply IH].
      intros E. rewrite (IH _ _ _ _ E). apply Hi. }
  assert (Hout : ∀ node ts m out m' out',
            for_each (classify_output node) ts (m, out) = Ret (m', out') → f m' = f m).
  { clear m out m' out'. intros node ts. induction ts as [|t ts IH]; intros m out m' out'.
    - by intros [= <- <-].
    - rewrite for_each_cons, classify_output_unfold.
      destruct (tracked m t.1.2); [|apply IH].
      destruct (slot_of m node t.1.2); [|done]. apply IH. }
  revert m out. induction nodes as [|node nodes IH]; intros m out; [by intros [= <- <-]|].
  rewrite for_each_cons.
  change (classify_node (m, out) node)
    with (for_each (classify_input node) (get_input_tensors node) (m, out)
          ≫= for_each (classify_output node) (get_output_tensors node)).
  destruct (for_each (classify_input node) (get_input_tensors node) (m, out))
    as [[m1 out1]|] eqn:E1; [|done].
  cbn [mbind Result_bind].
  destruct (for_each (classify_output node) (get_output_tensors node) (m1, out1))
    as [[m2 out2]|] eqn:E2; [|done].
  cbn [mbind Result_bind]. intros E.
  by rewrite (IH _ _ E), (Hout _ _ _ _ _ _ E2), (Hin _ _ _ _ _ _ E1).
Qed.

Lemma add_unique_tensor_no_slot n t sh m t_id :
  t ≠ t_id → no_slot m t_id → no_slot (add_unique_tensor n t sh m) t_id.
Proof.
  intros Hne (Hm & Hs & Ho). unfold add_unique_tensor, new_replay_tensor.
  case_bool_decide.
  - repeat split; simpl.
    + intros n'. rewrite lookup_insert_ne by congruence. apply Hm.
    + by rewrite lookup_insert_ne.
    + set_solver.
  - case_match; repeat split; simpl; try done.
    + intros n'. rewrite lookup_insert_ne by congruence. apply Hm.
    + by rewrite lookup_insert_ne.
    + intros n'. rewrite lookup_insert_ne by congruence. apply Hm.
    + by rewrite !lookup_insert_ne.
Qed.

Lemma resolve_pass_no_slot calls m t_id :
  (∀ c, c ∈ calls → c.1.2 ≠ t_id) → no_slot m t_id → no_slot (foldl resolve m calls) t_id.
Proof.
  revert m. induction calls as [|[[n t] sh] calls IH]; intros m Hc Hn; [done|].
  cbn [foldl]. apply IH; [intros c ?; apply Hc; by right|].
  apply add_unique_tensor_no_slot; [|done]. apply (Hc (n, t, sh)). by left.
Qed.

Lemma resolver_calls_tracked nodes m c :
  c ∈ resolver_calls m nodes → tracked m c.1.2 = true.
Proof.
  unfold resolver_calls. rewrite list_elem_of_bind. intros (node & Hc & _).
  unfold resolver_calls_of in Hc. apply list_elem_of_fmap in Hc as (t & -> & Ht).
  by apply list_elem_of_filter in Ht as [? _].
Qed.

(** The bindings of the first pass are those of tracked identifiers. *)
Lemma analyze_tensors_no_slot m m' t_id :
  analyze_tensors m = Ret m' → tracked m t_id = false → no_slot m t_id → no_slot m' t_id.
Proof.
  unfold analyze_tensors. intros E Ht Hn.
  set (m1 := foldl assign_node m (sorted_nodes m)) in *.
  destruct (for_each classify_node (sorted_nodes m1) (m1, ∅)) as [[m2 out]|] eqn:E2; [|done].
  cbn [mbind Result_bind] in E. injection E as <-.
  assert (H1 : no_slot m1 t_id).
  { unfold m1. rewrite (proj1 (assign_pass_calls _ m)). apply resolve_pass_no_slot; [|done].
    intros c Hc Heq.
    pose proof (resolver_calls_tracked (sorted_nodes m) m c Hc) as Hc'.
    rewrite Heq in Hc'. congruence. }
  destruct H1 as (Hm & Hs & Ho). unfold no_slot.
  rewrite (classify_nodes_keeps tensors_mapping _ _ _ _ _ (λ _ _, eq_refl) E2).
  rewrite (classify_nodes_keeps tensor_shapes _ _ _ _ _ (λ _ _, eq_refl) E2).
  rewrite (classify_nodes_keeps original_unique_tensors _ _ _ _ _ (λ _ _, eq_refl) E2).
  done.
Qed.

Lemma add_unique_tensor_keeps {X : Type} (f : Manager → X) n t sh m :
  untouched_by_resolver f → f (add_unique_tensor n t sh m) = f m.
Proof.
  intros (Ho & Hn & Hm & Hr & Hs & _). unfold add_unique_tensor, new_replay_tensor.
  case_bool_decide; [by rewrite Hs, Hr, Hm, Hn, Ho|].
  case_match; by rewrite ?Hs, ?Hr, ?Hm, ?Hn, ?Hs.
Qed.

Lemma analyze_tensors_keeps {X : Type} (f : Manager → X) m m' :
  untouched_by_resolver f → analyze_tensors m = Ret m' → f m' = f m.
Proof.
  intros Hu. unfold analyze_tensors.
  set (m1 := foldl assign_node m (sorted_nodes m)).
  destruct (for_each classify_node (sorted_nodes m1) (m1, ∅)) as [[m2 out]|] eqn:E2; [|done].
  cbn [mbind Result_bind]. intros [= <-].
  rewrite (classify_nodes_keeps f _ _ _ _ _ (proj2 (proj2 (proj2 (proj2 (proj2 Hu))))) E2).
  unfold m1. rewrite (proj1 (assign_pass_calls _ m)). clear E2 m1.
  generalize (resolver_calls m (sorted_nodes m)). intros calls. revert m.
  induction calls as [|[[n t] sh] calls IH]; intros m; [done|].
  cbn [foldl]. rewrite IH. unfold resolve. by apply add_unique_tensor_keeps.
Qed.

Lemma count_dependencies_spec ids dep :
  let dep' := foldl count_dependency dep ids in
  (∀ t, t ∈ ids → is_Some (dep' !! t))
  ∧ (∀ t, is_Some (dep !! t) → is_Some (dep' !! t))
  ∧ ((∀ t c, dep !! t = Some c → (0 < c)%nat) → ∀ t c, dep' !! t = Some c → (0 < c)%nat).
Proof.
  revert dep. induction ids as [|x ids IH]; intros dep; simpl.
  - split; [|done]. intros t Ht. by apply elem_of_nil in Ht.
  - destruct (IH (count_dependency dep x)) as (I1 & I2 & I3).
    assert (Hx : ∀ t, is_Some (dep !! t) ∨ t = x → is_Some (count_dependency dep x !! t)).
    { intros t Ht. unfold count_dependency. rewrite lookup_insert. case_decide; [eauto|].
      destruct Ht; [done|congruence]. }
    split; [|split].
    + intros t [Ht|Ht]%elem_of_cons; [subst; apply I2, Hx; auto|by apply I1].
    + intros t Ht. apply I2, Hx. auto.
    + intros Hpos. apply I3. intros t c. unfold count_dependency. rewrite lookup_insert.
      case_decide; [intros [= <-]; lia|apply Hpos].
Qed.

Lemma visit_qualified_dependency child m m' :
  visit_qualified child m = Ret m' → dependency_inv m → dependency_inv m'.
Proof.
  unfold visit_qualified.
  destruct (build_func child (record_node child m)) as [[fc m2]|] eqn:E; [|done].
  intros [= <-] [Hin Hpos]. apply build_func_frame in E as (Es & Ed & _).
  unfold dependency_inv. simpl. rewrite Es, Ed. unfold record_node. simpl.
  destruct (count_dependencies_spec (tensor_ids (get_input_tensors child))
              (dependency_permanent m)) as (C1 & C2 & C3).
  split; [|by apply C3].
  intros node t [Hn|Hn%list_elem_of_singleton]%elem_of_app Ht; [|subst; by apply C1].
  apply C2. by eapply Hin.
Qed.

Lemma _dfs_traverse_dependency root :
  ∀ m m', _dfs_traverse root m = Ret m' → dependency_inv m → dependency_inv m'.
Proof.
  induction root as [root IH] using Node_children_ind. intros m m'.
  rewrite _dfs_traverse_unfold. revert m.
  induction IH as [|c cs Hc _ IHcs]; intros m; [by intros [= <-]|].
  rewrite for_each_cons, dfs_visit_eq.
  destruct (name_skipped c); [apply IHcs|].
  destruct (is_qualified c).
  - destruct (visit_qualified c m) as [m1|] eqn:E; [|done]. cbn [mbind Result_bind].
    intros E' Hi. apply (IHcs _ E'). by eapply visit_qualified_dependency.
  - destruct (_dfs_traverse c m) as [m1|] eqn:E; [|done]. cbn [mbind Result_bind].
    intros E' Hi. apply (IHcs _ E'). by eapply Hc.
Qed.

Lemma extract_subgraph_dependency root m m' :
  extract_subgraph root m = Ret m' → dependency_inv m → dependency_inv m'.
Proof.
  unfold extract_subgraph. destruct (_dfs_traverse root m) as [m1|] eqn:E; [|done].
  cbn [mbind Result_bind]. intros [= <-] Hi.
  destruct (_dfs_traverse_dependency _ _ _ E Hi) as [Hin Hpos].
  split; [|done]. simpl. intros node t Hn. rewrite sorted_by_id_perm in Hn. by apply Hin.
Qed.

Lemma allocation_frame_bound m m' :
  allocation_frame m m' →
  (∀ s, s ∈ dom (tensor_registry_permanent m') →
        s ∈ dom (tensor_registry_permanent m)
        ∨ ∃ n t, tracked m t = true ∧ tensors_mapping m !! (n, t) = Some s) →
  bound_tracked m → bound_tracked m'.
Proof.
  intros (Em & Ed & _) Hnew Hb s Hs. unfold tracked. rewrite Em, Ed.
  destruct (Hnew s Hs) as [Hold|?]; [by apply Hb|done].
Qed.

Lemma allocate_input_bound node m it m' :
  allocate_input node m it = Ret m' → bound_tracked m → bound_tracked m'.
Proof.
  intros E. destruct (allocate_input_frame _ _ _ _ E) as [Hf _].
  apply allocation_frame_bound; [done|]. revert E.
  unfold allocate_input. destruct it as [idx [[dt t_id] sh]].
  destruct (slot_of m node t_id) as [slot|] eqn:Es; [|done].
  destruct (tracked m t_id) eqn:Et; cbn [andb]; [|intros [= <-]; auto].
  case_bool_decide as Hd; cbn [andb]; [|intros [= <-]; auto].
  destruct (_ || _ || _); [|intros [= <-]; auto].
  assert (Hins : ∀ v s, s ∈ dom (<[slot := v]> (tensor_registry_permanent m)) →
             s ∈ dom (tensor_registry_permanent m)
             ∨ ∃ n t, tracked m t = true ∧ tensors_mapping m !! (n, t) = Some s).
  { intros v s. rewrite dom_insert_L.
    intros [Hs%elem_of_singleton|?]%elem_of_union; [subst; right; by exists (node_id node), t_id|auto]. }
  destruct (is_fbgemm_forward node).
  - destruct (generate_fbgemm_tensors node !! idx) as [v|]; [|done].
    intros [= <-]. destruct (name_is node _); simpl; apply Hins.
  - destruct (TORCH_DTYPES_RNG !! strip_dtype dt) as [[d rng]|].
    + intros [= <-].
      destruct (name_is node "aten::embedding_bag"),
               (name_is node "aten::pin_memory" && bool_decide (idx = 0%nat));
        simpl; apply Hins.
    + intros [= <-]. destruct (String.eqb dt _); simpl; apply Hins.
Qed.

Lemma for_each_inv {A : Type} (P : Manager → Prop) (body : Manager → A → Result Manager) l :
  (∀ m x m', body m x = Ret m' → P m → P m') →
  ∀ m m', for_each body l m = Ret m' → P m → P m'.
Proof.
  intros Hb. induction l as [|x l IH]; intros m m'; [by intros [= <-]|].
  rewrite for_each_cons. destruct (body m x) as [m1|] eqn:E; [|done].
  cbn [mbind Result_bind]. intros E' Hp. apply (IH _ _ E'). by eapply Hb.
Qed.

Lemma allocate_tensors_bound m m' :
  allocate_tensors m = Ret m' → bound_tracked m → bound_tracked m'.
Proof.
  unfold allocate_tensors. apply for_each_inv. clear. intros m node m'.
  unfold allocate_node.
  destruct (for_each (allocate_input node) _ m) as [m1|] eqn:E1; [|done].
  cbn [mbind Result_bind]. intros E2 Hb.
  assert (Hb1 : bound_tracked m1).
  { revert E1 Hb. apply for_each_inv. intros ? ? ?. apply allocate_input_bound. }
  by apply match_offsets_Ret in E2 as ->.
Qed.

Lemma tracked_false m t_id : dependency_permanent m !! t_id = None → tracked m t_id = false.
Proof. intros Hn. unfold tracked. apply bool_decide_eq_false. by rewrite not_elem_of_dom. Qed.

Lemma enumerate_elem {A : Type} (l : list A) i x : (i, x) ∈ enumerate l → x ∈ l.
Proof. unfold enumerate. apply elem_of_zip_r. Qed.

(** C5. After [preprocess_graph] on a fresh manager, an identifier whose
    dependency count is zero has no entry in [dependency_permanent] and is
    an input of no node of the replay list.  The resolver has made no slot
    for it: it is the key of no binding, it has no table of shapes, and it
    is not among the identifiers seen.  With this dependency table, the
    steps of the resolver, of the classification and of the write-back leave
    the manager as it is when they are given the identifier; the allocation
    loop, which goes over the inputs of the replay list, never gets to it,
    and every slot bound in the permanent registry is the slot of a tracked
    identifier. *)
Theorem untracked_identifier_ignored (root : Node) (m : Manager) (t_id : list Z) :
  preprocess_graph root init_manager = Ret m →
  dependency_count m t_id = 0%nat →
  dependency_permanent m !! t_id = None
  ∧ (∀ node, node ∈ sorted_nodes m → t_id ∉ tensor_ids (get_input_tensors node))
  ∧ ((∀ n, tensors_mapping m !! (n, t_id) = None)
     ∧ tensor_shapes m !! t_id = None
     ∧ t_id ∉ original_unique_tensors m)
  ∧ (∀ m1 node dt sh out output,
       dependency_permanent m1 = dependency_permanent m →
       assign_tensor node m1 (dt, t_id, sh) = m1
       ∧ classify_input node (m1, out) (dt, t_id, sh) = Ret (m1, out)
       ∧ classify_output node (m1, out) (dt, t_id, sh) = Ret (m1, out)
       ∧ write_output node m1 ((dt, t_id, sh), output) = Ret m1)
  ∧ (∀ node idx dt sh, node ∈ sorted_nodes m →
       (idx, (dt, t_id, sh)) ∉ enumerate (get_input_tensors node))
  ∧ (∀ s, s ∈ dom (tensor_registry_permanent m) →
          ∃ n t, tracked m t = true ∧ tensors_mapping m !! (n, t) = Some s).
Proof.
  unfold preprocess_graph. intros E Hzero.
  destruct (extract_subgraph root init_manager) as [m1|] eqn:E1; [|done].
  cbn [mbind Result_bind] in E.
  destruct (analyze_subgraph root m1) as [m2|] eqn:E2; [|done]. cbn [mbind Result_bind] in E.
  destruct (analyze_tensors m2) as [m3|] eqn:E3; [|done]. cbn [mbind Result_bind] in E.
  destruct (allocate_tensors (print (tensor_count m3) m3)) as [m4|] eqn:E4; [|done].
  cbn [mbind Result_bind] in E.
  assert (Em : ∀ {X : Type} (f : Manager → X), preserved_by set_tensor_registry f → f m = f m4).
  { intros X f Hf. unfold reset_registry in E. case_bool_decide; [|done].
    injection E as <-. apply Hf. }
  destruct (allocate_nodes_keep _ _ _ E4) as [(F1 & F2 & F3 & F4 & F5 & F6 & F7 & F8) _].
  simpl in F1, F2, F3, F4, F5, F6.
  (* the dependency table and the replay list are those of the extraction *)
  assert (Edep : dependency_permanent m = dependency_permanent m1).
  { rewrite (Em _ dependency_permanent) by done. rewrite F2.
    rewrite (analyze_tensors_keeps dependency_permanent _ _ ltac:(by repeat split) E3).
    by rewrite (analyze_subgraph_keeps dependency_permanent _ _ _ ltac:(by repeat split) E2). }
  assert (Esorted : sorted_nodes m = sorted_nodes m1).
  { rewrite (Em _ sorted_nodes) by done. rewrite F3.
    rewrite (analyze_tensors_keeps sorted_nodes _ _ ltac:(by repeat split) E3).
    by rewrite (analyze_subgraph_keeps sorted_nodes _ _ _ ltac:(by repeat split) E2). }
  assert (Hinv : dependency_inv m1).
  { apply (extract_subgraph_dependency _ _ _ E1). split; simpl.
    - intros node t Hn. by apply elem_of_nil in Hn.
    - intros t c. by rewrite lookup_empty. }
  destruct Hinv as [Hin Hpos].
  assert (Hnone : dependency_permanent m !! t_id = None).
  { unfold dependency_count in Hzero. destruct (dependency_permanent m !! t_id) as [c|] eqn:Ec;
      [|done].
    rewrite Edep in Ec. apply Hpos in Ec. simpl in Hzero. lia. }
  split; [done|]. split.
  { intros node Hn Ht. rewrite Esorted in Hn. destruct (Hin node t_id Hn Ht) as [c Hc].
    rewrite Edep in Hnone. congruence. }
  split.
  { (* no slot *)
    assert (H2 : no_slot m2 t_id).
    { unfold no_slot.
      rewrite (analyze_subgraph_keeps tensors_mapping _ _ _ ltac:(by repeat split) E2).
      rewrite (analyze_subgraph_keeps tensor_shapes _ _ _ ltac:(by repeat split) E2).
      rewrite (analyze_subgraph_keeps original_unique_tensors _ _ _ ltac:(by repeat split) E2).
      rewrite (extract_subgraph_keeps tensors_mapping _ _ _ ltac:(by repeat split) E1).
      rewrite (extract_subgraph_keeps tensor_shapes _ _ _ ltac:(by repeat split) E1).
      rewrite (extract_subgraph_keeps original_unique_tensors _ _ _ ltac:(by repeat split) E1).
      simpl. split; [intros n; apply lookup_empty|]. split; [apply lookup_empty|set_solver]. }
    assert (H3 : no_slot m3 t_id).
    { apply (analyze_tensors_no_slot _ _ _ E3); [|done]. apply tracked_false.
      rewrite <- (analyze_subgraph_keeps dependency_permanent _ _ _ ltac:(by repeat split) E2)
        in Edep. by rewrite <- Edep. }
    destruct H3 as (Hm3 & Hs3 & Ho3). unfold no_slot.
    rewrite (Em _ tensors_mapping), (Em _ tensor_shapes), (Em _ original_unique_tensors)
      by done.
    by rewrite F1, F5, F6. }
  split.
  { intros m' node dt sh out output Hd.
    assert (Ht : tracked m' t_id = false) by (apply tracked_false; by rewrite Hd).
    unfold assign_tensor. rewrite classify_input_unfold, classify_output_unfold.
    unfold write_output. cbn [fst snd]. by rewrite Ht. }
  split.
  { intros node idx dt sh Hn Hi. apply enumerate_elem in Hi.
    rewrite Esorted in Hn. destruct (Hin node t_id Hn) as [c Hc].
    - unfold tensor_ids. apply list_elem_of_fmap. by exists (dt, t_id, sh).
    - rewrite Edep in Hnone. congruence. }
  assert (Hb4 : bound_tracked m4).
  { apply (allocate_tensors_bound _ _ E4). intros s. simpl.
    rewrite (analyze_tensors_keeps tensor_registry_permanent _ _ ltac:(by repeat split) E3).
    rewrite (analyze_subgraph_keeps tensor_registry_permanent _ _ _ ltac:(by repeat split) E2).
    rewrite (extract_subgraph_keeps tensor_registry_permanent _ _ _ ltac:(by repeat split) E1).
    simpl. set_solver. }
  intros s. unfold tracked.
  rewrite (Em _ tensor_registry_permanent), (Em _ tensors_mapping),
    (Em _ dependency_permanent) by done.
  apply Hb4.
Qed.

(** ** The instantiate set and the appearances of tensors *)

Lemma appearances_pairs m :
  snd <$> appearances m = pair_of <$> resolver_calls m (sorted_nodes m).
Proof.
  unfold appearances, resolver_calls. induction (sorted_nodes m) as [|node nodes IH]; [done|].
  cbn [mbind list_bind]. rewrite !fmap_app, IH. f_equal.
  unfold node_appearances, appearances_of, resolver_calls_of.
  rewrite filter_app, !fmap_app, <- !list_fmap_compose. done.
Qed.

(** The pairs that have a slot are those the calls carried. *)
Lemma resolve_pass_pairs calls m t sh :
  resolver_fresh m →
  (∃ s, (s, sh) ∈ shapes_of (foldl resolve m calls) t) ↔ (t, sh) ∈ pair_of <$> calls.
Proof.
  intros Hfresh. pose proof (resolver_fresh_inv m Hfresh) as Hinv. split.
  - intros [s Hin]. apply (assigned_slots_complete _ _ _ _ _ Hinv) in Hin as [Hin|(i & n & Hi & _)].
    + rewrite shapes_of_fresh in Hin by done. set_solver.
    + apply list_elem_of_fmap. exists (n, t, sh). split; [done|]. by eapply list_elem_of_lookup_2.
  - intros ([[n t'] sh'] & [= <- <-] & Hc)%list_elem_of_fmap.
    apply list_elem_of_lookup_1 in Hc as [i Hi].
    destruct (assigned_slots_sound calls m i n t sh Hinv Hi) as (s & _ & Hin). by exists s.
Qed.

(** The counter holds the number of distinct pairs the calls carried. *)
Lemma resolve_pass_count calls m :
  resolver_fresh m →
  replay_unique_tensor_num (foldl resolve m calls)
  = Z.of_nat (size (list_to_set (C := gset (list Z * list Z)) (pair_of <$> calls))).
Proof.
  intros Hfresh. pose proof (resolver_fresh_inv m Hfresh) as Hinv.
  induction calls as [|[[n t] sh] calls IH] using rev_ind.
  - cbn [foldl fmap list_fmap list_to_set]. rewrite size_empty.
    by destruct Hfresh as (_ & _ & _ & ->).
  - rewrite foldl_app, fmap_app, list_to_set_app_L. cbn [foldl fmap list_fmap list_to_set].
    unfold resolve at 1. cbn [fst snd].
    pose proof (resolve_pass_inv calls m Hinv) as Hinv'.
    pose proof (resolve_pass_pairs calls m t sh Hfresh) as Hp.
    destruct (add_unique_tensor_cases n t sh _ Hinv')
      as [(s & Hs & _ & _ & En & _)|(Hnew & _ & _ & En & _)]; rewrite En, IH.
    + assert (Hin : pair_of (n, t, sh) ∈ pair_of <$> calls) by (apply Hp; eauto).
      f_equal. f_equal. apply set_eq. intros q. 
      rewrite elem_of_union, elem_of_union, elem_of_singleton, elem_of_list_to_set.
      split; [auto|]. intros [?|[->|?%elem_of_empty]]; done.
    + assert (Hout : pair_of (n, t, sh) ∉ pair_of <$> calls).
      { intros [s Hs]%Hp. by apply Hnew in Hs. }
      rewrite size_union, size_union, size_singleton, size_empty by set_solver. lia.
Qed.

(** The call that first carries a pair binds it to the next value of the
    counter. *)
Lemma first_call_mints calls m j n t sh :
  resolver_fresh m →
  calls !! j = Some (n, t, sh) →
  (∀ i c, (i < j)%nat → calls !! i = Some c → pair_of c ≠ (t, sh)) →
  assigned_slots m calls !! j
  = Some (Some (replay_unique_tensor_num (foldl resolve m (take j calls)) + 1)).
Proof.
  intros Hfresh Hj Hfirst. pose proof (resolver_fresh_inv m Hfresh) as Hinv.
  rewrite (assigned_slots_lookup calls m j n t sh Hj). f_equal.
  pose proof (resolve_pass_inv (take j calls) m Hinv) as Hinvj.
  destruct (add_unique_tensor_cases n t sh _ Hinvj) as [(s0 & Hs0 & _)|(_ & Em & _)].
  - exfalso. assert (Hin : (t, sh) ∈ pair_of <$> take j calls).
    { apply (resolve_pass_pairs _ m); eauto. }
    apply list_elem_of_fmap in Hin as (c & Hc & Hin).
    apply list_elem_of_lookup_1 in Hin as [i Hi]. apply lookup_take_Some in Hi as [Hi Hlt].
    by apply (Hfirst i c).
  - by rewrite Em, lookup_insert_eq.
Qed.

(** The table of the resolver holds, for each pair, the number of the pair
    in the order of first appearance. *)
Lemma resolve_pass_slot_number calls m t s sh :
  resolver_fresh m →
  (s, sh) ∈ shapes_of (foldl resolve m calls) t
  ↔ slot_number (pair_of <$> calls) (t, sh) = Some s.
Proof.
  intros Hfresh. pose proof (resolver_fresh_inv m Hfresh) as Hinv.
  pose proof (resolve_pass_inv calls m Hinv) as Hfin.
  assert (Hfound : ∀ j q, list_find (λ q, q = (t, sh)) (pair_of <$> calls) = Some (j, q) →
            (Z.of_nat (size (list_to_set (C := gset (list Z * list Z))
                               (take j (pair_of <$> calls)))) + 1, sh)
            ∈ shapes_of (foldl resolve m calls) t).
  { intros j q (Hj & -> & Hbefore)%list_find_Some.
    apply list_lookup_fmap_Some in Hj as ([[n t'] sh'] & [= <- <-] & Hj).
    destruct (assigned_slots_sound calls m j n t sh Hinv Hj) as (s' & Hs' & Hin).
    rewrite (first_call_mints calls m j n t sh Hfresh Hj) in Hs'.
    - injection Hs' as <-. by rewrite <- fmap_take, <- (resolve_pass_count _ m Hfresh).
    - intros i c Hlt Hi Hc. apply (Hbefore i (pair_of c)); [|done..].
      by rewrite list_lookup_fmap, Hi. }
  unfold slot_number. split.
  - intros Hin.
    destruct (list_find (λ q, q = (t, sh)) (pair_of <$> calls)) as [[j q]|] eqn:Ef.
    + cbn [fmap option_fmap option_map fst]. f_equal.
      eapply (inv_shape _ Hfin); [by eapply Hfound|done].
    + exfalso. apply list_find_None in Ef. rewrite Forall_forall in Ef.
      apply (Ef (t, sh)); [|done]. apply (resolve_pass_pairs _ m); eauto.
  - destruct (list_find (λ q, q = (t, sh)) (pair_of <$> calls)) as [[j q]|] eqn:Ef; [|done].
    cbn [fmap option_fmap option_map fst]. intros [= <-]. by eapply Hfound.
Qed.

Lemma resolver_calls_elem m nodes n t sh :
  (n, t, sh) ∈ resolver_calls m nodes
  ↔ ∃ node d, node ∈ nodes ∧ node_id node = n ∧ tracked m t = true
              ∧ (d, t, sh) ∈ get_input_tensors node ++ get_output_tensors node.
Proof.
  unfold resolver_calls, resolver_calls_of. rewrite list_elem_of_bind. split.
  - intros (node & ([[d t'] sh'] & [= -> -> ->] & [Ht Hin]%list_elem_of_filter)%list_elem_of_fmap
            & Hn).
    by exists node, d.
  - intros (node & d & Hn & Hid & Ht & Hin). exists node. split; [|done].
    apply list_elem_of_fmap. exists (d, t, sh). split; [by rewrite <- Hid|].
    by apply list_elem_of_filter.
Qed.

(** Under the assumption of the source, the binding of a node and an
    identifier at the end of the first pass is the slot of the identifier
    and the shape the node lists it with. *)
Lemma assign_pass_binding m node d t sh :
  resolver_fresh m → one_shape_per_binding m →
  node ∈ sorted_nodes m → tracked m t = true →
  (d, t, sh) ∈ get_input_tensors node ++ get_output_tensors node →
  ∃ s, slot_of (foldl assign_node m (sorted_nodes m)) node t = Some s
       ∧ slot_number (snd <$> appearances m) (t, sh) = Some s.
Proof.
  intros Hfresh Hone Hnode Ht Hin. pose proof (resolver_fresh_inv m Hfresh) as Hinv.
  rewrite appearances_pairs, (proj1 (assign_pass_calls _ m)).
  unfold one_shape_per_binding in Hone. cbv zeta in Hone.
  set (calls := resolver_calls m (sorted_nodes m)) in *.
  assert (Hc : (node_id node, t, sh) ∈ calls) by (apply resolver_calls_elem; by exists node, d).
  rewrite Forall_forall in Hone. specialize (Hone _ Hc). rewrite Forall_forall in Hone.
  apply list_elem_of_lookup_1 in Hc as [i Hi].
  destruct (assigned_slots_sound calls m i _ t sh Hinv Hi) as (s & Hs & Hshape).
  exists s. split; [|by apply (resolve_pass_slot_number calls m t s sh Hfresh)].
  unfold slot_of.
  rewrite (resolver_final_binding m calls i (node_id node) t sh Hinv) in Hs; [congruence| |done].
  intros j sh' Hj. symmetry. apply (Hone (node_id node, t, sh')); [|done].
  by eapply list_elem_of_lookup_2.
Qed.

(** What the second pass reads is, appearance by appearance, the slot of the
    identifier and the shape that appear. *)
Lemma uses_of_appearances m m1 node u ts pairs :
  (∀ t', tracked m1 t' = tracked m t') →
  (∀ t, t ∈ ts → tracked m t.1.2 = true →
        ∃ s, slot_of m1 node t.1.2 = Some s ∧ slot_number pairs (t.1.2, t.2) = Some s) →
  Forall2 (λ e a, e.1 = a.1 ∧ slot_number pairs a.2 = Some e.2)
    (uses_of m1 node u ts) (appearances_of m u ts).
Proof.
  intros Htr. unfold uses_of, appearances_of. induction ts as [|t ts IH]; intros Hb; [constructor|].
  rewrite filter_cons. cbn [omap list_omap]. rewrite Htr.
  assert (IH' := IH (λ t' Hin, Hb t' (proj2 (elem_of_cons ts t' t) (or_intror Hin)))).
  destruct (tracked m t.1.2) eqn:Et.
  - destruct (Hb t) as (s & Hs & Hn); [by left|done|]. rewrite Hs, decide_True by done.
    cbn [fmap option_fmap option_map]. rewrite fmap_cons. by constructor.
  - by rewrite decide_False by done.
Qed.

Lemma scan_appearances m :
  resolver_fresh m → one_shape_per_binding m →
  Forall2 (λ e a, e.1 = a.1 ∧ slot_number (snd <$> appearances m) a.2 = Some e.2)
    (scan (foldl assign_node m (sorted_nodes m))) (appearances m).
Proof.
  intros Hfresh Hone. set (m1 := foldl assign_node m (sorted_nodes m)).
  destruct (assign_pass_calls (sorted_nodes m) m) as [Ecalls Htr]. fold m1 in Htr.
  assert (Es : sorted_nodes m1 = sorted_nodes m).
  { unfold m1. rewrite Ecalls. apply (resolve_pass_frame _ m). }
  unfold scan, appearances at 2. rewrite Es.
  assert (Hall : ∀ node, node ∈ sorted_nodes m →
            Forall2 (λ e a, e.1 = a.1 ∧ slot_number (snd <$> appearances m) a.2 = Some e.2)
              (scan_node m1 node) (node_appearances m node)).
  { intros node Hnode. unfold scan_node, node_appearances.
    apply Forall2_app; apply uses_of_appearances; try done.
    - intros [[d t] sh] Hin Ht. eapply (assign_pass_binding m node d); try done.
      apply elem_of_app. by left.
    - intros [[d t] sh] Hin Ht. eapply (assign_pass_binding m node d); try done.
      apply elem_of_app. by right. }
  revert Hall. generalize (snd <$> appearances m) (sorted_nodes m). clearbody m1.
  clear. intros pairs nodes.
  induction nodes as [|node nodes IH]; intros Hall; [constructor|].
  cbn [mbind list_bind]. apply Forall2_app; [apply Hall; by left|].
  apply IH. intros node' Hn. apply Hall. by right.
Qed.

(** Appearing first as an input carries over from the bindings to the
    pairs, the numbering of the pairs being one to one. *)
Lemma input_first_transfer (pairs : list (list Z * list Z)) evs apps (s : Z) :
  Forall2 (λ e a, e.1 = a.1 ∧ slot_number pairs a.2 = Some e.2) evs apps →
  (∀ p q s', slot_number pairs p = Some s' → slot_number pairs q = Some s' → p = q) →
  input_first s evs ↔ ∃ p, slot_number pairs p = Some s ∧ input_first p apps.
Proof.
  intros Hall Hinj. rewrite input_first_iff. split.
  - intros (i & Hi & Hno).
    destruct (Forall2_lookup_l _ _ _ _ _ Hall Hi) as ([u p] & Ha & Hu & Hp). simpl in *. subst u.
    exists p. split; [done|]. apply input_first_iff. exists i. split; [done|].
    intros j Hj Haj.
    destruct (Forall2_lookup_r _ _ _ _ _ Hall Haj) as ([u' s'] & He & Hu & Hp'). simpl in *.
    subst u'. apply (Hno j Hj). rewrite He. do 2 f_equal. congruence.
  - intros (p & Hp & (i & Hi & Hno)%input_first_iff).
    destruct (Forall2_lookup_r _ _ _ _ _ Hall Hi) as ([u s'] & He & Hu & Hp'). simpl in *.
    subst u. exists i. split; [rewrite He; do 2 f_equal; congruence|].
    intros j Hj Hej.
    destruct (Forall2_lookup_l _ _ _ _ _ Hall Hej) as ([u' q] & Ha & Hu & Hq). simpl in *.
    subst u'. apply (Hno j Hj). rewrite Ha. do 2 f_equal. by eapply Hinj.
Qed.

(** C2, as the code has it.  Take a replay list along which every node id
    and tracked identifier come with a single shape, and a fresh resolver.
    Then [analyze_tensors] returns; the slot its table gives an (identifier,
    shape) pair is the number of the pair in the order of first appearance;
    and a slot is in the instantiate set exactly when it is the slot of a
    pair that, in the scan of the replay list (node after node, the inputs
    of a node before its outputs), appears as an input and does not appear
    as an output before that.  The slot of a pair that appears only as an
    output, or first as an output, is not in the set. *)
Theorem instantiate_iff_appears_first_as_input (m : Manager) :
  resolver_fresh m → instantiate m = ∅ → one_shape_per_binding m →
  ∃ m', analyze_tensors m = Ret m'
    ∧ sorted_nodes m' = sorted_nodes m
    ∧ (∀ t s sh, (s, sh) ∈ shapes_of m' t
                 ↔ slot_number (snd <$> appearances m) (t, sh) = Some s)
    ∧ (∀ s, s ∈ instantiate m'
            ↔ ∃ p, slot_number (snd <$> appearances m) p = Some s
                   ∧ input_first p (appearances m)).
Proof.
  intros Hfresh Hempty Hone.
  destruct (classification_follows_bindings m Hempty) as (m' & E & Hs & Esorted & Hinst).
  exists m'. split; [done|]. split; [done|].
  set (m1 := foldl assign_node m (sorted_nodes m)) in *.
  assert (Eshapes : tensor_shapes m' = tensor_shapes m1).
  { revert E. unfold analyze_tensors. fold m1.
    destruct (for_each classify_node (sorted_nodes m1) (m1, ∅)) as [[m2 out]|] eqn:E2; [|done].
    cbn [mbind Result_bind]. intros [= <-].
    by apply (classify_nodes_keeps tensor_shapes _ _ _ _ _ (λ _ _, eq_refl) E2). }
  assert (Htable : ∀ t s sh, (s, sh) ∈ shapes_of m' t
                   ↔ slot_number (snd <$> appearances m) (t, sh) = Some s).
  { intros t s sh. unfold shapes_of. rewrite Eshapes. fold (shapes_of m1 t).
    unfold m1. rewrite (proj1 (assign_pass_calls _ m)), appearances_pairs.
    by apply (resolve_pass_slot_number _ m t s sh Hfresh). }
  split; [done|]. intros s. rewrite Hinst, (scan_ext m1 m' Hs).
  apply input_first_transfer; [by apply scan_appearances|].
  intros [t sh] [t' sh'] s' Hp%Htable Hq%Htable.
  pose proof (resolve_pass_inv (resolver_calls m (sorted_nodes m)) m
                (resolver_fresh_inv m Hfresh)) as Hinv1.
  rewrite <- (proj1 (assign_pass_calls _ m)) in Hinv1. fold m1 in Hinv1.
  unfold shapes_of in Hp, Hq. rewrite Eshapes in Hp, Hq.
  by destruct (inv_slot m1 Hinv1 t t' s' sh sh' Hp Hq) as [-> ->].
Qed.

(** * Further properties of the methods *)

(** ** [reset_registry] *)



(** ** Subgraph extraction, node by node *)











(** ** The numbering of the slots *)




(** ** Allocation *)






(** ** The registries during the replay *)





(** ** The key stripped from a declared type *)














(** The keys of some declared types. *)
Example strip_dtype_samples :
  strip_dtype "Tensor(float)" = "float"%string
  ∧ strip_dtype "Tensor(long)" = "long"%string
  ∧ strip_dtype "Tensor(short)" = "hort"%string
  ∧ strip_dtype "Tensor(signed char)" = "igned char"%string
  ∧ strip_dtype "Tensor(nullptr (uninitialized))" = "ullptr (uninitialized"%string.
Proof. by split_and!. Qed.

(** ** The dependency analyzer *)




End Properties.

(** * The theorems on the sample traces *)

Section OnSamples.
Import Sample.
#[local] Existing Instance utils.

(** Scenario 2: the resolver binds T1 of shape [4] to slot 1 at A and at B,
    mints slot 2 for T1 of shape [8] at C, reuses it at D, and mints slot 3
    for T3. *)
Lemma resolver_scenario2 :
  resolver_fresh scenario2_extracted
  ∧ assigned_slots scenario2_extracted
      (resolver_calls scenario2_extracted (sorted_nodes scenario2_extracted))
    = [Some 1; Some 1; Some 2; Some 2; Some 3]
  ∧ (let m := scenario2_extracted in
     let calls := resolver_calls m (sorted_nodes m) in
     let slots := assigned_slots m calls in
     foldl assign_node m (sorted_nodes m) = foldl resolve m calls
     ∧ (∀ c, c ∈ calls → tracked m c.1.2 = true)
     ∧ (∀ i j n1 t1 sh1 n2 t2 sh2,
          calls !! i = Some (n1, t1, sh1) → calls !! j = Some (n2, t2, sh2) →
          ∃ s1 s2, slots !! i = Some (Some s1) ∧ slots !! j = Some (Some s2)
                   ∧ (s1 = s2 ↔ t1 = t2 ∧ sh1 = sh2))
     ∧ (∀ j n t sh,
          calls !! j = Some (n, t, sh) →
          (∀ i n', (i < j)%nat → calls !! i ≠ Some (n', t, sh)) →
          slots !! j
          = Some (Some (replay_unique_tensor_num (foldl resolve m (take j calls)) + 1))
          ∧ ∀ i s', (i < j)%nat → slots !! i = Some (Some s') →
                    s' < replay_unique_tensor_num (foldl resolve m (take j calls)) + 1)
     ∧ (∀ t s sh,
          (s, sh) ∈ shapes_of (foldl assign_node m (sorted_nodes m)) t
          ↔ ∃ i n, calls !! i = Some (n, t, sh) ∧ slots !! i = Some (Some s))).
Proof.
  assert (Hfresh : resolver_fresh scenario2_extracted)
    by (unfold resolver_fresh; split_and!; vm_compute; reflexivity).
  split; [exact Hfresh|]. split; [vm_compute; reflexivity|].
  exact (resolver_one_slot_per_identifier_and_shape scenario2_extracted
           (sorted_nodes scenario2_extracted) Hfresh).
Defined.

(** Scenario 2: the slots of T1, in either shape, appear first as outputs;
    T3 is consumed and never produced, so that its slot, the third, is the
    one to instantiate. *)
Lemma instantiate_of_scenario2 :
  (resolver_fresh scenario2_extracted ∧ instantiate scenario2_extracted = ∅
   ∧ one_shape_per_binding scenario2_extracted)
  ∧ appearances scenario2_extracted
    = [(AsOutput, (T1, [4])); (AsInput, (T1, [4])); (AsOutput, (T1, [8]));
       (AsInput, (T1, [8])); (AsInput, (T3, [2]))]
  ∧ slot_number (snd <$> appearances scenario2_extracted) (T3, [2]) = Some 3
  ∧ elements (instantiate (state_of (analyze_tensors scenario2_extracted))) = [3]
  ∧ ∃ m', analyze_tensors scenario2_extracted = Ret m'
      ∧ sorted_nodes m' = sorted_nodes scenario2_extracted
      ∧ (∀ t s sh, (s, sh) ∈ shapes_of m' t
                   ↔ slot_number (snd <$> appearances scenario2_extracted) (t, sh) = Some s)
      ∧ (∀ s, s ∈ instantiate m'
              ↔ ∃ p, slot_number (snd <$> appearances scenario2_extracted) p = Some s
                     ∧ input_first p (appearances scenario2_extracted)).
Proof.
  assert (Hfresh : resolver_fresh scenario2_extracted)
    by (unfold resolver_fresh; split_and!; vm_compute; reflexivity).
  assert (Hempty : instantiate scenario2_extracted = ∅) by (vm_compute; reflexivity).
  assert (Hone : one_shape_per_binding scenario2_extracted)
    by (refine (bool_decide_unpack _ _); vm_compute; exact I).
  split; [by split_and!|]. split; [vm_compute; reflexivity|].
  split; [vm_compute; reflexivity|]. split; [vm_compute; reflexivity|].
  exact (instantiate_iff_appears_first_as_input scenario2_extracted Hfresh Hempty Hone).
Defined.

(** C2 as stated fails on the trace with a tensor that changes shape in
    place.  The first node lists T1 with shape [4] as its input and with
    shape [4, 1] as its output.  The slot of T1 with shape [4, 1], the
    second, appears first as an output, and it is in the instantiate set;
    the slot of T1 with shape [4], the first, appears first as an input, and
    it is not. *)
Lemma instantiate_of_reshaped_tensor :
  (resolver_fresh reshaped_extracted ∧ instantiate reshaped_extracted = ∅
   ∧ NoDup (node_id <$> sorted_nodes reshaped_extracted)
   ∧ ¬ one_shape_per_binding reshaped_extracted)
  ∧ appearances reshaped_extracted
    = [(AsInput, (T1, [4])); (AsOutput, (T1, [4; 1])); (AsInput, (T1, [4; 1]))]
  ∧ analyze_tensors reshaped_extracted = Ret reshaped_analyzed
  ∧ (slot_number (snd <$> appearances reshaped_extracted) (T1, [4; 1]) = Some 2
     ∧ (2, [4; 1]) ∈ shapes_of reshaped_analyzed T1
     ∧ ¬ input_first (T1, [4; 1]) (appearances reshaped_extracted)
     ∧ 2 ∈ instantiate reshaped_analyzed)
  ∧ (slot_number (snd <$> appearances reshaped_extracted) (T1, [4]) = Some 1
     ∧ (1, [4]) ∈ shapes_of reshaped_analyzed T1
     ∧ input_first (T1, [4]) (appearances reshaped_extracted)
     ∧ 1 ∉ instantiate reshaped_analyzed)
  ∧ ¬ (∀ s, s ∈ instantiate reshaped_analyzed
            ↔ ∃ p, slot_number (snd <$> appearances reshaped_extracted) p = Some s
                   ∧ input_first p (appearances reshaped_extracted)).
Proof.
  assert (H2 : 2 ∈ instantiate reshaped_analyzed)
    by (refine (bool_decide_unpack _ _); vm_compute; exact I).
  assert (Happ : appearances reshaped_extracted
                 = [(AsInput, (T1, [4])); (AsOutput, (T1, [4; 1])); (AsInput, (T1, [4; 1]))])
    by (vm_compute; reflexivity).
  assert (Hout : ¬ input_first (T1, [4; 1]) (appearances reshaped_extracted)).
  { rewrite Happ. refine (bool_decide_unpack _ _). vm_compute. exact I. }
  assert (Hn : slot_number (snd <$> appearances reshaped_extracted) (T1, [4; 1]) = Some 2)
    by (vm_compute; reflexivity).
  split.
  { split_and!; [unfold resolver_fresh; split_and!; vm_compute; reflexivity
                |vm_compute; reflexivity
                |refine (bool_decide_unpack _ _); vm_compute; exact I
                |refine (bool_decide_unpack _ _); vm_compute; exact I]. }
  split; [exact Happ|]. split; [vm_compute; reflexivity|]. split.
  { split_and!; [exact Hn| refine (bool_decide_unpack _ _); vm_compute; exact I
                |exact Hout|exact H2]. }
  split.
  { split_and!; [vm_compute; reflexivity
                |refine (bool_decide_unpack _ _); vm_compute; exact I
                |rewrite Happ; refine (bool_decide_unpack _ _); vm_compute; exact I
                |refine (bool_decide_unpack _ _); vm_compute; exact I]. }
  intros Hall. apply (Hall 2) in H2 as (p & Hp & Hfirst).
  assert (p = (T1, [4; 1])) as ->; [|by apply Hout].
  revert Hp. rewrite Happ. unfold slot_number. cbn [fmap list_fmap snd].
  destruct p as [t sh]. clear.
  destruct (decide ((T1, [4]) = (t, sh))) as [<-|Hne1].
  { vm_compute. intros Hp. discriminate Hp. }
  destruct (decide ((T1, [4; 1]) = (t, sh))) as [<-|Hne2]; [done|].
  rewrite (proj2 (list_find_None _ _)); [done|].
  repeat constructor; congruence.
Qed.

(** The tensor that the embedding forward node of the sample consumes is
    the output of the operator before it.  Its slot, the second, is
    unchangeable and not in the instantiate set: the operator runs and
    returns a tensor for it, and the entry of the slot stays the tensor that
    allocation bound, in that step and after two passes. *)
Lemma unchangeable_slot_kept_from_its_producer :
  preprocess_graph lookup_graph init_manager = Ret lookup_ready
  ∧ long_tensor T1 [4] ∈ get_output_tensors producer
  ∧ tracked lookup_ready T1 = true
  ∧ slot_of lookup_ready producer T1 = Some 2
  ∧ 2 ∈ unchangeable_intermediate_tensors lookup_ready
  ∧ 2 ∉ instantiate lookup_ready
  ∧ funcs lookup_ready !! node_id producer = Some (Some op_one, 1%nat)
  ∧ invoke op_one 1 (resolve_inputs lookup_ready producer)
    = Some [VTensor (cpu_tensor_of "float32" [1])]
  ∧ tensor_registry lookup_ready !! 2
    = Some (VTensor {| is_cuda := true; dtype := "int64"; tensor_shape := [4];
                       data := ones 4 |})
  ∧ final_state (write_output producer lookup_ready
                   (long_tensor T1 [4], VTensor (cpu_tensor_of "float32" [1])))
    = lookup_ready
  ∧ tensor_registry (final_state (run_op producer lookup_ready)) !! 2
    = tensor_registry lookup_ready !! 2
  ∧ run_passes 2 lookup_ready = Ret lookup_replayed
  ∧ tensor_registry (final_state (run_passes 2 lookup_ready)) !! 2
    = tensor_registry lookup_ready !! 2
  ∧ 2 ∈ unchangeable_intermediate_tensors (final_state (run_passes 2 lookup_ready)).
Proof.
  assert (Hu : 2 ∈ unchangeable_intermediate_tensors lookup_ready)
    by (refine (bool_decide_unpack _ _); vm_compute; exact I).
  assert (Hs : slot_of lookup_ready producer T1 = Some 2) by (vm_compute; reflexivity).
  destruct registry_overwrite_guarded as (Hwrite & Hop & Hpasses).
  split; [vm_compute; reflexivity|].
  split; [refine (bool_decide_unpack _ _); vm_compute; exact I|].
  split; [vm_compute; reflexivity|]. split; [exact Hs|]. split; [exact Hu|].
  split; [refine (bool_decide_unpack _ _); vm_compute; exact I|].
  split; [vm_compute; reflexivity|]. split; [vm_compute; reflexivity|].
  split; [vm_compute; reflexivity|]. split.
  { destruct (Hwrite producer lookup_ready "Tensor(long)"%string T1 [4]
                (VTensor (cpu_tensor_of "float32" [1])))
      as [(slot & _ & Hslot & Hnot & _)|[_ Hsame]]; [|exact Hsame].
    exfalso. apply Hnot. rewrite Hs in Hslot. injection Hslot as <-. exact Hu. }
  split.
  { destruct (Hop producer lookup_ready 2) as [Hsame|(Hnot & _)]; [exact Hsame|].
    exfalso. exact (Hnot Hu). }
  split; [vm_compute; reflexivity|].
  exact (Hpasses 2%nat lookup_ready 2 Hu).
Defined.

(** The replay list of the tree with a data-loading group holds the
    operator beside the group, and nothing of the group. *)
Lemma extract_subgraph_on_loader_tree :
  extract_subgraph loader_tree init_manager = Ret loader_extracted
  ∧ (∀ n, n ∈ sorted_nodes loader_extracted
          ↔ n ∈ sorted_nodes init_manager
            ∨ (Encountered loader_tree n ∧ name_skipped n = false ∧ is_qualified n = true))
  ∧ sorted_nodes loader_extracted ≡ₚ sorted_nodes init_manager ++ replay_nodes loader_tree
  ∧ ascending (sorted_nodes loader_extracted).
Proof.
  assert (He : extract_subgraph loader_tree init_manager = Ret loader_extracted)
    by (vm_compute; reflexivity).
  split; [exact He|]. exact (extract_subgraph_records loader_tree init_manager _ He).
Defined.

(** C4 as stated fails on that tree: the data-loading group is met and is
    not qualified, so the operator inside it would be met and, being
    qualified, recorded; the replay list does not hold it. *)
Lemma extract_subgraph_skips_loader :
  EncounteredAsClaimed loader_tree loader
  ∧ is_qualified loader = false
  ∧ loaded ∈ node_children loader
  ∧ is_qualified loaded = true
  ∧ extract_subgraph loader_tree init_manager = Ret loader_extracted
  ∧ loaded ∉ sorted_nodes loader_extracted
  ∧ ¬ (∀ n, EncounteredAsClaimed loader_tree n → is_qualified n = true →
            n ∈ sorted_nodes loader_extracted).
Proof.
  assert (H1 : EncounteredAsClaimed loader_tree loader).
  { apply claimed_child. simpl. by left. }
  assert (H2 : loaded ∉ sorted_nodes loader_extracted).
  { change (sorted_nodes loader_extracted) with [adder].
    intros Hin%list_elem_of_singleton. discriminate Hin. }
  split; [exact H1|]. split; [reflexivity|]. split; [simpl; by left|].
  split; [reflexivity|]. split; [vm_compute; reflexivity|]. split; [exact H2|].
  intros Hall. apply H2, Hall; [|reflexivity].
  apply (claimed_below _ loader); [exact H1|reflexivity|simpl; by left].
Qed.

(** Two nested pairs of embedding nodes: each backward node gets the entry
    built for its forward node. *)
Lemma fbgemm_pairs_nested :
  Nested [F1; F2; B2; B1] [(F1, B1); (F2, B2)]
  ∧ ∃ fcs m',
      build_funcs [F1; F2; B2; B1] init_manager = Some (fcs, m')
      ∧ fbgemm_backward_ops m' = fbgemm_backward_ops init_manager
      ∧ fcs.*1 = [F1; F2; B2; B1]
      ∧ ∀ f b, (f, b) ∈ [(F1, B1); (F2, B2)] →
          ∃ func output_count,
            build_fbgemm_func f = Some (func, output_count)
            ∧ (f, (Some (forward func), output_count)) ∈ fcs
            ∧ (b, (Some (backward func), length (node_output_types b))) ∈ fcs.
Proof.
  assert (Hn : Nested [F1; F2; B2; B1] [(F1, B1); (F2, B2)]).
  { apply (nested_pair F1 B1 [F2; B2] [] [(F2, B2)] []); try reflexivity; [|constructor].
    apply (nested_pair F2 B2 [] [] [] []); try reflexivity; constructor. }
  split; [exact Hn|].
  refine (proj2 (proj2 fbgemm_backward_lifo) _ _ init_manager Hn _).
  repeat constructor; vm_compute; eauto.
Defined.

(** The backward entries built for the two forward nodes of the sample are
    different operators. *)
Lemma sample_backward_entries_differ (f1 f2 : FbgemmFunc) (c1 c2 : nat) :
  build_fbgemm_func F1 = Some (f1, c1) → build_fbgemm_func F2 = Some (f2, c2) →
  call (backward f1) [] ≠ call (backward f2) [].
Proof. intros [= <- <-] [= <- <-]. vm_compute. intros E. discriminate E. Qed.

(** The undefined optional tensor of the sample has no generator: its slot
    is bound to [None], nothing is printed, and the loop goes on. *)
Lemma allocation_of_null_input :
  TORCH_DTYPES_RNG !! strip_dtype null_type = None
  ∧ ∃ m',
      allocate_input with_null null_analyzed (1%nat, (null_type, T4, [])) = Ret m'
      ∧ tensor_registry_permanent m' = <[2 := VNone]> (tensor_registry_permanent null_analyzed)
      ∧ stdout m' = (if String.eqb null_type "Tensor(nullptr (uninitialized))"
                     then stdout null_analyzed
                     else stdout null_analyzed ++ [KeyErrorLine (node_id with_null) T4 null_type])
      ∧ (∀ rest, for_each (allocate_input with_null) ((1%nat, (null_type, T4, [])) :: rest)
                   null_analyzed
                 = for_each (allocate_input with_null) rest m')
      ∧ (∀ m1 m2, tensor_registry_permanent m1 !! 2 = Some VNone →
                  reset_registry m1 = Ret m2 → tensor_registry m2 !! 2 = Some VNone)
      ∧ (∀ m2 node' t', slot_of m2 node' t' = Some 2 →
                        tensor_registry m2 !! 2 = Some VNone →
                        registry_at m2 node' t' = Some VNone).
Proof.
  assert (Hk : TORCH_DTYPES_RNG !! strip_dtype null_type = None) by (vm_compute; reflexivity).
  split; [exact Hk|].
  refine (allocation_missing_generator with_null null_analyzed 1%nat null_type T4 [] 2
            _ _ _ _ _ Hk); try (vm_compute; reflexivity).
  refine (bool_decide_unpack _ _); vm_compute; exact I.
Defined.

(** C7 as stated fails on the sample.  The input of the embedding forward
    node has a type without generator, and its slot is bound to a tensor,
    not to [None].  The undefined optional tensor is bound to [None] and
    nothing is printed.  And the replay, which hands that [None] to the
    operator in every pass, runs to completion. *)
Lemma allocation_missing_generator_deviates :
  (TORCH_DTYPES_RNG !! strip_dtype half_type = None
   ∧ tensor_registry_permanent
       (state_of (allocate_input with_half null_analyzed (0%nat, (half_type, T5, [3])))) !! 3
     = Some (VTensor (cpu_tensor_of "int64" [3])))
  ∧ (TORCH_DTYPES_RNG !! strip_dtype null_type = None
     ∧ tensor_registry_permanent
         (state_of (allocate_input with_null null_analyzed (1%nat, (null_type, T4, [])))) !! 2
       = Some VNone
     ∧ stdout (state_of (allocate_input with_null null_analyzed (1%nat, (null_type, T4, []))))
       = stdout null_analyzed)
  ∧ (preprocess_graph null_graph init_manager = Ret null_ready
     ∧ tensor_registry null_ready !! 2 = Some VNone
     ∧ resolve_inputs null_ready with_null
       = Some [VTensor {| is_cuda := true; dtype := "float32"; tensor_shape := [2];
                          data := ones 2 |}; VNone]
     ∧ run_passes 2 null_ready = Ret null_replayed).
Proof. split_and!; vm_compute; reflexivity. Qed.

(** The operator of the first node of the sample raises: the run stops
    there, in its first pass or in any later one. *)
Lemma broken_operator_stops_replay :
  ∃ why m',
    run_op broken broken_ready = Abort why m'
    ∧ (InputsError (node_id broken) ∈ stdout m' ∨ RunOpError (node_id broken) ∈ stdout m')
    ∧ tensor_registry m' = tensor_registry broken_ready
    ∧ (∀ rest, run_nodes (broken :: rest) broken_ready = Abort why m')
    ∧ (∀ k iters m_start m0 before rest,
         run_passes k m_start = Ret m0 →
         sorted_nodes m0 = before ++ broken :: rest →
         run_nodes before m0 = Ret broken_ready →
         run_passes (k + S iters) m_start = Abort why m').
Proof.
  refine (replay_failure_is_fatal broken broken_ready op_raise 1%nat _ _).
  - vm_compute. reflexivity.
  - right. eexists _, _, _. split_and!; vm_compute; reflexivity.
Defined.

(** The embedding-bag node of the sample has 10 indices and 2 offsets, and
    its third input is the identifier of the offsets, a list.  The run stops
    with a [TypeError] in the workaround; the buffer of the offsets, bound
    to the third slot, is as the generator filled it, with 1 at index 1
    where the uniform layout has [1 * (10 / 2)], that is 5. *)
Lemma offsets_of_bag_not_patched :
  (name_is bag "aten::embedding_bag" = true
   ∧ input_dim bag 1 = Some 10 ∧ input_dim bag 2 = Some 2 ∧ 0 < 2
   ∧ true_div 10 2 = inr 5%float
   ∧ node_inputs bag !! 2%nat = Some (ItemInts OFF))
  ∧ (preprocess_graph bag_graph init_manager = Abort (Traceback TypeError) bag_stopped
     ∧ for_each (allocate_input bag) (enumerate (get_input_tensors bag)) bag_analyzed
       = Ret bag_filled
     ∧ tensor_registry_permanent bag_stopped = tensor_registry_permanent bag_filled
     ∧ slot_of bag_stopped bag OFF = Some 3
     ∧ tensor_registry_permanent bag_stopped !! 3 = Some (VTensor (cpu_tensor_of "int64" [2]))
     ∧ data (cpu_tensor_of "int64" [2]) !! 1%nat = Some 1%float
     ∧ int_times 1 5 = inr 5%float
     ∧ PrimFloat.eqb 1 5 = false)
  ∧ (∀ m, match_offsets bag m = Abort (Traceback TypeError) m)
  ∧ (∀ m m1, for_each (allocate_input bag) (enumerate (get_input_tensors bag)) m = Ret m1 →
             allocate_node m bag = Abort (Traceback TypeError) m1)
  ∧ (∀ m, ∃ why m', allocate_node m bag = Abort why m')
  ∧ (∀ m, bag ∈ sorted_nodes m → ∃ why m', allocate_tensors m = Abort why m')
  ∧ (∀ root m, preprocess_graph root init_manager = Ret m → bag ∉ sorted_nodes m).
Proof.
  assert (Hd : true_div 10 2 = inr 5%float) by (vm_compute; reflexivity).
  split; [split_and!; [vm_compute; reflexivity..|lia|exact Hd|vm_compute; reflexivity]|].
  split; [split_and!; vm_compute; reflexivity|].
  refine (embedding_bag_offsets_patch_raises bag 10 2 5%float OFF _ _ _ _ Hd _);
    [vm_compute; reflexivity..|lia|vm_compute; reflexivity].
Defined.

(** An operator group at the top of the sample trace is not in the replay
    list and has no ancestor in it: the analysis stops. *)
Lemma analysis_stops_on_optimizer_tree :
  Reached optimizer_tree optimizer [optimizer_tree]
  ∧ in_sorted_nodes optimizer_extracted optimizer = false
  ∧ ∃ why m', analyze_subgraph optimizer_tree optimizer_extracted = Abort why m'.
Proof.
  assert (Hr : Reached optimizer_tree optimizer [optimizer_tree]).
  { apply reached_child; [simpl; by left|reflexivity..]. }
  assert (Hs : in_sorted_nodes optimizer_extracted optimizer = false) by (vm_compute; reflexivity).
  split; [exact Hr|]. split; [exact Hs|].
  refine (proj2 (proj2 (proj2 analyze_subgraph_walk_partial)) optimizer_tree
            optimizer_extracted optimizer [optimizer_tree] Hr Hs eq_refl _).
  intros a Ha%list_elem_of_singleton. subst a. vm_compute. reflexivity.
Defined.

(** Scenario 2: T2 is produced by B and consumed by no node. *)
Lemma untracked_T2_in_scenario2 :
  preprocess_graph scenario2 init_manager = Ret scenario2_ready
  ∧ dependency_count scenario2_ready T2 = 0%nat
  ∧ (dependency_permanent scenario2_ready !! T2 = None
     ∧ (∀ node, node ∈ sorted_nodes scenario2_ready →
                T2 ∉ tensor_ids (get_input_tensors node))
     ∧ ((∀ n, tensors_mapping scenario2_ready !! (n, T2) = None)
        ∧ tensor_shapes scenario2_ready !! T2 = None
        ∧ T2 ∉ original_unique_tensors scenario2_ready)
     ∧ (∀ m1 node dt sh out output,
          dependency_permanent m1 = dependency_permanent scenario2_ready →
          assign_tensor node m1 (dt, T2, sh) = m1
          ∧ classify_input node (m1, out) (dt, T2, sh) = Ret (m1, out)
          ∧ classify_output node (m1, out) (dt, T2, sh) = Ret (m1, out)
          ∧ write_output node m1 ((dt, T2, sh), output) = Ret m1)
     ∧ (∀ node idx dt sh, node ∈ sorted_nodes scenario2_ready →
          (idx, (dt, T2, sh)) ∉ enumerate (get_input_tensors node))
     ∧ (∀ s, s ∈ dom (tensor_registry_permanent scenario2_ready) →
             ∃ n t, tracked scenario2_ready t = true
                    ∧ tensors_mapping scenario2_ready !! (n, t) = Some s)).
Proof.
  assert (Hp : preprocess_graph scenario2 init_manager = Ret scenario2_ready)
    by (vm_compute; reflexivity).
  assert (Hz : dependency_count scenario2_ready T2 = 0%nat) by (vm_compute; reflexivity).
  split; [exact Hp|]. split; [exact Hz|].
  exact (untracked_identifier_ignored scenario2 scenario2_ready T2 Hp Hz).
Defined.










End OnSamples.
